(** * CFGParser: a shallow embedding of the configuration parser

    The development follows [CFGParser.hpp] and [CFGParser.cpp]: the
    section store, the lookup functions, the character-driven state machine
    of [CFGParser::load], the serializer [CFGParser::save] and the typed
    getters. *)

From Stdlib Require Import Ascii String ZArith Lia.
From stdpp Require Import base option list strings pretty gmap fin_maps.

Local Open Scope string_scope.
Local Open Scope list_scope.

(** ** Characters and strings *)

(** The double quote, written by its code so that no string literal has to
    escape it. *)
Definition dq : ascii := "034"%char.
Definition DQ : string := String dq EmptyString.

(** [s += c] on a [std::string]. *)
Definition push_back (s : string) (c : ascii) : string :=
  s +:+ String c EmptyString.

(** [s.empty()] *)
Definition empty (s : string) : bool :=
  match s with EmptyString => true | String _ _ => false end.

(** [std::to_string] on an unsigned number. *)
Definition to_string (n : N) : string := pretty n.

(** ** Data model ([CFGParser.hpp]) *)

Record Section := mkSection {
  inheritances : list string;
  attributes : list string;
  values : gmap string string
}.

(** [Section{}] *)
Definition Section0 : Section :=
  {| inheritances := []; attributes := []; values := ∅ |}.

(** The members of [class CFGParser].  [_msg_functor] is an optional
    callback; its observable effect is the sequence of messages it has been
    called with, so a set functor is modelled by [Some log] and an empty
    [std::function] by [None]. *)
Record CFGParser := mkCFGParser {
  _section_data : gmap string Section;
  _msg_functor : option (list string);
  _current_file : string;
  _base_path : string
}.

Definition set_section_data (f : gmap string Section → gmap string Section)
    (g : CFGParser) : CFGParser :=
  {| _section_data := f (_section_data g); _msg_functor := _msg_functor g;
     _current_file := _current_file g; _base_path := _base_path g |}.

Definition set_current_file (p : string) (g : CFGParser) : CFGParser :=
  {| _section_data := _section_data g; _msg_functor := _msg_functor g;
     _current_file := p; _base_path := _base_path g |}.

(** [if (_msg_functor) _msg_functor(m);] *)
Definition call_msg_functor (m : string) (g : CFGParser) : CFGParser :=
  {| _section_data := _section_data g;
     _msg_functor := (λ log, log ++ [m]) <$> _msg_functor g;
     _current_file := _current_file g; _base_path := _base_path g |}.

(** The default constructor: no sections, the printing functor installed. *)
Definition CFGParser0 : CFGParser :=
  {| _section_data := ∅; _msg_functor := Some [];
     _current_file := EmptyString; _base_path := EmptyString |}.

(** The messages the functor has received. *)
Definition messages (g : CFGParser) : list string :=
  default [] (_msg_functor g).

(** ** Lookup ([CFGParser.cpp], lines 40-197) *)

(** The message of the introspection functions for an unknown section. *)
Definition is_not_exist (section : string) : string :=
  "Section " +:+ DQ +:+ section +:+ DQ +:+ " is not exist!".

Definition hasSection (g : CFGParser) (section : string) : bool :=
  bool_decide (is_Some (_section_data g !! section)).

(** [hasKey]: the result, and the object after the call, which has
    received a message when the section is unknown. *)
Definition hasKey (g : CFGParser) (section key : string)
    : bool * CFGParser :=
  match _section_data g !! section with
  | Some s => (bool_decide (is_Some (values s !! key)), g)
  | None => (false, call_msg_functor (is_not_exist section) g)
  end.

Definition isInheritedFrom (g : CFGParser) (section base_section : string)
    : bool :=
  match _section_data g !! section with
  | Some s => bool_decide (base_section ∈ inheritances s)
  | None => false
  end.

(** [getInheritances]; [_dummy], the empty vector, for an unknown
    section. *)
Definition getInheritances (g : CFGParser) (section : string)
    : list string * CFGParser :=
  match _section_data g !! section with
  | Some s => (inheritances s, g)
  | None => ([], call_msg_functor (is_not_exist section) g)
  end.

Definition getAttributes (g : CFGParser) (section : string)
    : list string * CFGParser :=
  match _section_data g !! section with
  | Some s => (attributes s, g)
  | None => ([], call_msg_functor (is_not_exist section) g)
  end.

(** The loop of [getValueFromInheritance] over [section_data.inheritances];
    [_dummy_str], the empty string, is returned when the loop ends. *)
Fixpoint getValueFromInheritance_loop (data : gmap string Section)
    (l : list string) (key : string) : string :=
  match l with
  | [] => EmptyString
  | inheritance :: rest =>
      match data !! inheritance with
      | Some s =>
          match values s !! key with
          | Some v => v
          | None => getValueFromInheritance_loop data rest key
          end
      | None => getValueFromInheritance_loop data rest key
      end
  end.

Definition getValueFromInheritance (g : CFGParser) (section_data : Section)
    (key : string) : string :=
  getValueFromInheritance_loop (_section_data g) (inheritances section_data)
    key.

Definition getString (g : CFGParser) (section key default_value : string)
    : string :=
  match _section_data g !! section with
  | Some s =>
      match values s !! key with
      | Some v => v
      | None =>
          let value := getValueFromInheritance g s key in
          if negb (empty value) then value else default_value
      end
  | None => default_value
  end.

(** ** The state machine of [CFGParser::load] *)

Inductive ParseAction :=
  | NEW_LINE
  | SECTION
  | INHERITANCE
  | ATTRIBUTE
  | KEY
  | VALUE
  | VALUE_ARRAY
  | STRING_VALUE
  | COMMENT
  | MULTILINE_COMMENT
  | PREPROCESSOR
  | INCLUDE
  | ERROR.

Global Instance ParseAction_eq_dec : EqDecision ParseAction.
Proof. solve_decision. Defined.

(** The case labels of [switch (character)]. *)
Inductive CaseLabel :=
  | case_comment_character   (* semicolon *)
  | case_comment_multiline   (* vertical bar *)
  | case_space               (* space and tab *)
  | case_backslash
  | case_quote               (* double quote *)
  | case_hash
  | case_newline
  | case_less
  | case_greater
  | case_open                (* opening bracket *)
  | case_close               (* closing bracket *)
  | case_comma
  | case_colon
  | case_equals
  | case_default.

Global Instance CaseLabel_eq_dec : EqDecision CaseLabel.
Proof. solve_decision. Defined.

Definition LF : ascii := "010"%char.
Definition TAB : ascii := "009"%char.
Definition BACKSLASH : ascii := "092"%char.

(** The value of [file.get()]: a byte, or [None] for the end-of-file
    value, which is no case label and therefore reaches [default]. *)
Definition label (character : option ascii) : CaseLabel :=
  match character with
  | None => case_default
  | Some c =>
      if Ascii.eqb c ";" then case_comment_character
      else if Ascii.eqb c "|" then case_comment_multiline
      else if Ascii.eqb c " " then case_space
      else if Ascii.eqb c TAB then case_space
      else if Ascii.eqb c BACKSLASH then case_backslash
      else if Ascii.eqb c dq then case_quote
      else if Ascii.eqb c "#" then case_hash
      else if Ascii.eqb c LF then case_newline
      else if Ascii.eqb c "<" then case_less
      else if Ascii.eqb c ">" then case_greater
      else if Ascii.eqb c "[" then case_open
      else if Ascii.eqb c "]" then case_close
      else if Ascii.eqb c "," then case_comma
      else if Ascii.eqb c ":" then case_colon
      else if Ascii.eqb c "=" then case_equals
      else case_default
  end.

(** The conversion of the [int] returned by [file.get()] to the [char]
    that [+=] appends: the end-of-file value -1 becomes the byte 255. *)
Definition to_char (character : option ascii) : ascii :=
  match character with
  | Some c => c
  | None => "255"%char
  end.

(** The local variables of [load].  [section_ptr] points into
    [_section_data], whose elements are never erased or moved, so the
    pointer is modelled by the key of the element it points to. *)
Record Locals := mkLocals {
  section : string;
  inheritance : string;
  attribute : string;
  key : string;
  value : string;
  preprocessor_pair : string * string;
  section_ptr : option string;
  parse_action : ParseAction;
  line : N;
  character_pos : N;
  ignore_current_spaces : bool
}.

Definition Locals0 : Locals :=
  {| section := EmptyString; inheritance := EmptyString;
     attribute := EmptyString; key := EmptyString; value := EmptyString;
     preprocessor_pair := (EmptyString, EmptyString);
     section_ptr := None; parse_action := NEW_LINE;
     line := 1; character_pos := 0; ignore_current_spaces := true |}.

Definition set_section (x : string) (p : Locals) : Locals :=
  {| section := x; inheritance := inheritance p; attribute := attribute p;
     key := key p; value := value p; preprocessor_pair := preprocessor_pair p;
     section_ptr := section_ptr p; parse_action := parse_action p;
     line := line p; character_pos := character_pos p;
     ignore_current_spaces := ignore_current_spaces p |}.

Definition set_inheritance (x : string) (p : Locals) : Locals :=
  {| section := section p; inheritance := x; attribute := attribute p;
     key := key p; value := value p; preprocessor_pair := preprocessor_pair p;
     section_ptr := section_ptr p; parse_action := parse_action p;
     line := line p; character_pos := character_pos p;
     ignore_current_spaces := ignore_current_spaces p |}.

Definition set_attribute (x : string) (p : Locals) : Locals :=
  {| section := section p; inheritance := inheritance p; attribute := x;
     key := key p; value := value p; preprocessor_pair := preprocessor_pair p;
     section_ptr := section_ptr p; parse_action := parse_action p;
     line := line p; character_pos := character_pos p;
     ignore_current_spaces := ignore_current_spaces p |}.

Definition set_key (x : string) (p : Locals) : Locals :=
  {| section := section p; inheritance := inheritance p;
     attribute := attribute p; key := x; value := value p;
     preprocessor_pair := preprocessor_pair p;
     section_ptr := section_ptr p; parse_action := parse_action p;
     line := line p; character_pos := character_pos p;
     ignore_current_spaces := ignore_current_spaces p |}.

Definition set_value (x : string) (p : Locals) : Locals :=
  {| section := section p; inheritance := inheritance p;
     attribute := attribute p; key := key p; value := x;
     preprocessor_pair := preprocessor_pair p;
     section_ptr := section_ptr p; parse_action := parse_action p;
     line := line p; character_pos := character_pos p;
     ignore_current_spaces := ignore_current_spaces p |}.

Definition set_preprocessor_pair (x : string * string) (p : Locals) : Locals :=
  {| section := section p; inheritance := inheritance p;
     attribute := attribute p; key := key p; value := value p;
     preprocessor_pair := x;
     section_ptr := section_ptr p; parse_action := parse_action p;
     line := line p; character_pos := character_pos p;
     ignore_current_spaces := ignore_current_spaces p |}.

Definition set_section_ptr (x : option string) (p : Locals) : Locals :=
  {| section := section p; inheritance := inheritance p;
     attribute := attribute p; key := key p; value := value p;
     preprocessor_pair := preprocessor_pair p;
     section_ptr := x; parse_action := parse_action p;
     line := line p; character_pos := character_pos p;
     ignore_current_spaces := ignore_current_spaces p |}.

Definition set_parse_action (x : ParseAction) (p : Locals) : Locals :=
  {| section := section p; inheritance := inheritance p;
     attribute := attribute p; key := key p; value := value p;
     preprocessor_pair := preprocessor_pair p;
     section_ptr := section_ptr p; parse_action := x;
     line := line p; character_pos := character_pos p;
     ignore_current_spaces := ignore_current_spaces p |}.

Definition set_line (x : N) (p : Locals) : Locals :=
  {| section := section p; inheritance := inheritance p;
     attribute := attribute p; key := key p; value := value p;
     preprocessor_pair := preprocessor_pair p;
     section_ptr := section_ptr p; parse_action := parse_action p;
     line := x; character_pos := character_pos p;
     ignore_current_spaces := ignore_current_spaces p |}.

Definition set_character_pos (x : N) (p : Locals) : Locals :=
  {| section := section p; inheritance := inheritance p;
     attribute := attribute p; key := key p; value := value p;
     preprocessor_pair := preprocessor_pair p;
     section_ptr := section_ptr p; parse_action := parse_action p;
     line := line p; character_pos := x;
     ignore_current_spaces := ignore_current_spaces p |}.

Definition set_ignore_current_spaces (x : bool) (p : Locals) : Locals :=
  {| section := section p; inheritance := inheritance p;
     attribute := attribute p; key := key p; value := value p;
     preprocessor_pair := preprocessor_pair p;
     section_ptr := section_ptr p; parse_action := parse_action p;
     line := line p; character_pos := character_pos p;
     ignore_current_spaces := x |}.

(** [++x] on a [uint32_t]. *)
Definition incr32 (x : N) : N := ((x + 1) mod 2 ^ 32)%N.

(** The state of one activation of [load]: the object and the locals. *)
Definition State : Type := CFGParser * Locals.

Definition GetErrorLineString (p : Locals) : string :=
  "Error at line '" +:+ to_string (line p) +:+
  "', character at '" +:+ to_string (character_pos p) +:+ "' : ".

Definition msg (message : string) (σ : State) : State :=
  (call_msg_functor (GetErrorLineString σ.2 +:+ message) σ.1, σ.2).

(** A write through [section_ptr]. *)
Definition through_ptr (name : string) (f : Section → Section)
    (g : CFGParser) : CFGParser :=
  set_section_data (alter f name) g.

Definition push_inheritance (x : string) (s : Section) : Section :=
  {| inheritances := inheritances s ++ [x]; attributes := attributes s;
     values := values s |}.

Definition push_attribute (x : string) (s : Section) : Section :=
  {| inheritances := inheritances s; attributes := attributes s ++ [x];
     values := values s |}.

(** [values.try_emplace(k, std::string{})] *)
Definition try_emplace_value (k : string) (s : Section) : Section :=
  {| inheritances := inheritances s; attributes := attributes s;
     values := match values s !! k with
               | Some _ => values s
               | None => <[k := EmptyString]> (values s)
               end |}.

(** [values[k] = v] *)
Definition assign_value (k v : string) (s : Section) : Section :=
  {| inheritances := inheritances s; attributes := attributes s;
     values := <[k := v]> (values s) |}.

Definition PushInheritance (σ : State) : State :=
  let '(g, p) := σ in
  match section_ptr p with
  | Some ptr =>
      if negb (empty (inheritance p)) then
        let σ' :=
          if bool_decide (is_Some (_section_data g !! inheritance p))
          then (through_ptr ptr (push_inheritance (inheritance p)) g, p)
          else msg ("Inherited section " +:+ DQ +:+ inheritance p +:+ DQ +:+
                    " is not exist!") σ in
        (σ'.1, set_inheritance EmptyString σ'.2)
      else σ
  | None => σ
  end.

Definition PushAttribute (σ : State) : State :=
  let '(g, p) := σ in
  match section_ptr p with
  | Some ptr =>
      if negb (empty (attribute p)) then
        (through_ptr ptr (push_attribute (attribute p)) g,
         set_attribute EmptyString p)
      else σ
  | None => σ
  end.

Definition action (a : ParseAction) (σ : State) : State :=
  (σ.1, set_parse_action a σ.2).

Definition value_append (c : ascii) (σ : State) : State :=
  (σ.1, set_value (push_back (value σ.2) c) σ.2).

(** The inner [switch (file.get())] of the backslash case. *)
Definition escape (next : option ascii) (σ : State) : State :=
  match next with
  | Some c =>
      if Ascii.eqb c BACKSLASH then value_append BACKSLASH σ
      else if Ascii.eqb c "n" then value_append LF σ
      else if Ascii.eqb c dq then value_append dq σ
      else if Ascii.eqb c "'" then value_append "'"%char σ
      else msg "Unknown escape-sequence symbol" σ
  | None => msg "Unknown escape-sequence symbol" σ
  end.

(** The commit of a section header at the closing bracket. *)
Definition close_section (σ : State) : State :=
  let '(g, p) := σ in
  let σ' :=
    match _section_data g !! section p with
    | None =>
        (set_section_data (insert (section p) Section0) g,
         set_section_ptr (Some (section p)) p)
    | Some _ =>
        msg ("Section " +:+ DQ +:+ section p +:+ DQ +:+ " already exist.") σ
    end in
  (σ'.1, set_ignore_current_spaces true σ'.2).

(** The insertion of the key at the equals sign. *)
Definition emplace_key (σ : State) : State :=
  let '(g, p) := σ in
  match section_ptr p with
  | Some ptr =>
      let g' := through_ptr ptr (try_emplace_value (key p)) g in
      match _section_data g !! ptr ≫= λ s, values s !! key p with
      | Some _ =>
          msg ("Section " +:+ DQ +:+ section p +:+ DQ +:+ " key " +:+ DQ +:+
               key p +:+ DQ +:+ " already exist.") (g', p)
      | None => (g', p)
      end
  | None => σ
  end.

(** The commit of a value at the end of a line. *)
Definition commit_value (σ : State) : State :=
  let '(g, p) := σ in
  let g' :=
    match section_ptr p with
    | Some ptr => through_ptr ptr (assign_value (key p) (value p)) g
    | None => g
    end in
  (g', set_value EmptyString (set_key EmptyString p)).

(** The tail of the newline case, after its inner switch. *)
Definition end_of_line (σ : State) : State :=
  let '(g, p) := σ in
  let p1 :=
    if bool_decide (parse_action p ≠ STRING_VALUE ∧
                    parse_action p ≠ MULTILINE_COMMENT)
    then set_character_pos 0 (set_parse_action NEW_LINE p)
    else p in
  (g, set_ignore_current_spaces true (set_line (incr32 (line p1)) p1)).

Section Loop.

(** The recursive call [this->load]; [None] stands for a nesting of
    includes that never returns. *)
Variable load_rec : string → CFGParser → option CFGParser.

Definition IncludeFile (path : string) (g : CFGParser)
    : option CFGParser :=
  let file := _current_file g in
  g' ← load_rec (_base_path g +:+ path) g;
  Some (set_current_file file g').

(** The body of [switch (character)] for one value of [file.get()];
    [next] is the value of the second [file.get()], which only the
    backslash case inside a string value performs. *)
Definition switch (character next : option ascii) (σ : State)
    : option State :=
  let c := to_char character in
  let a := parse_action σ.2 in
  match label character with
  | case_comment_character =>
      match a with
      | STRING_VALUE => Some (value_append c σ)
      | _ => Some (action COMMENT σ)
      end
  | case_comment_multiline =>
      match a with
      | STRING_VALUE => Some (value_append c σ)
      | MULTILINE_COMMENT => Some (action NEW_LINE σ)
      | _ => Some (action MULTILINE_COMMENT σ)
      end
  | case_space =>
      match a with
      | STRING_VALUE => Some (value_append c σ)
      | PREPROCESSOR =>
          let σ1 :=
            if bool_decide ((preprocessor_pair σ.2).1 = "include")
            then action INCLUDE σ else σ in
          Some (σ1.1, set_preprocessor_pair
                        (EmptyString, (preprocessor_pair σ1.2).2) σ1.2)
      | ATTRIBUTE | INHERITANCE | KEY | SECTION | VALUE =>
          if negb (ignore_current_spaces σ.2)
          then Some (msg "Space in wrong place" (action ERROR σ))
          else Some σ
      | _ => Some σ
      end
  | case_backslash =>
      match a with
      | COMMENT | MULTILINE_COMMENT => Some σ
      | STRING_VALUE => Some (escape next σ)
      | _ => Some (msg "Unexpected escape-symbol" (action ERROR σ))
      end
  | case_quote =>
      match a with
      | STRING_VALUE => Some (action VALUE σ)
      | VALUE => Some (action STRING_VALUE σ)
      | _ => Some σ
      end
  | case_hash =>
      match a with
      | COMMENT | MULTILINE_COMMENT => Some σ
      | NEW_LINE => Some (action PREPROCESSOR σ)
      | STRING_VALUE => Some (value_append c σ)
      | _ => Some (msg "Preprocessor parse error" (action ERROR σ))
      end
  | case_newline =>
      let σ1 :=
        match a with
        | COMMENT | MULTILINE_COMMENT => σ
        | INHERITANCE => PushInheritance σ
        | PREPROCESSOR | INCLUDE => σ
        | ATTRIBUTE => PushAttribute σ
        | VALUE | VALUE_ARRAY => commit_value σ
        | STRING_VALUE | NEW_LINE => σ
        | SECTION => action NEW_LINE σ
        | _ => msg "New line parse error" (action ERROR σ)
        end in
      Some (end_of_line σ1)
  | case_less =>
      match a with
      | STRING_VALUE => Some (value_append c σ)
      | _ => Some σ
      end
  | case_greater =>
      match a with
      | STRING_VALUE => Some (value_append c σ)
      | INCLUDE =>
          g' ← IncludeFile (preprocessor_pair σ.2).2 σ.1;
          Some (g', set_preprocessor_pair
                      ((preprocessor_pair σ.2).1, EmptyString) σ.2)
      | _ => Some σ
      end
  | case_open =>
      match a with
      | COMMENT | MULTILINE_COMMENT => Some σ
      | NEW_LINE =>
          Some (σ.1, set_section_ptr None
                       (set_section EmptyString
                          (set_parse_action SECTION
                             (set_ignore_current_spaces false σ.2))))
      | STRING_VALUE => Some (value_append c σ)
      | _ => Some (msg "Section naming parse error" (action ERROR σ))
      end
  | case_close =>
      match a with
      | COMMENT | MULTILINE_COMMENT => Some σ
      | SECTION => Some (close_section σ)
      | STRING_VALUE => Some (value_append c σ)
      | _ => Some (msg "Section naming parse error" (action ERROR σ))
      end
  | case_comma =>
      match a with
      | COMMENT | MULTILINE_COMMENT => Some σ
      | INHERITANCE => Some (PushInheritance σ)
      | ATTRIBUTE => Some (PushAttribute σ)
      | STRING_VALUE | VALUE_ARRAY => Some (value_append c σ)
      | VALUE => Some (value_append c (action VALUE_ARRAY σ))
      | _ => Some (msg "Enumeration error" (action ERROR σ))
      end
  | case_colon =>
      match a with
      | COMMENT | MULTILINE_COMMENT => Some σ
      | SECTION => Some (action INHERITANCE σ)
      | STRING_VALUE => Some (value_append c σ)
      | _ => Some (msg "Inheritance error" (action ERROR σ))
      end
  | case_equals =>
      match a with
      | COMMENT | MULTILINE_COMMENT => Some σ
      | SECTION => Some (action ATTRIBUTE σ)
      | INHERITANCE => Some (action ATTRIBUTE (PushInheritance σ))
      | KEY => Some (action VALUE (emplace_key σ))
      | STRING_VALUE => Some (value_append c σ)
      | _ => Some (msg "Set value error" (action ERROR σ))
      end
  | case_default =>
      match a with
      | COMMENT | MULTILINE_COMMENT => Some σ
      | NEW_LINE =>
          Some (σ.1, set_key (push_back (key σ.2) c)
                       (set_parse_action KEY σ.2))
      | PREPROCESSOR =>
          Some (σ.1, set_preprocessor_pair
                       (push_back (preprocessor_pair σ.2).1 c,
                        (preprocessor_pair σ.2).2) σ.2)
      | INCLUDE =>
          Some (σ.1, set_preprocessor_pair
                       ((preprocessor_pair σ.2).1,
                        push_back (preprocessor_pair σ.2).2 c) σ.2)
      | SECTION => Some (σ.1, set_section (push_back (section σ.2) c) σ.2)
      | INHERITANCE =>
          Some (σ.1, set_inheritance (push_back (inheritance σ.2) c) σ.2)
      | ATTRIBUTE =>
          Some (σ.1, set_attribute (push_back (attribute σ.2) c) σ.2)
      | KEY => Some (σ.1, set_key (push_back (key σ.2) c) σ.2)
      | VALUE | VALUE_ARRAY => Some (value_append c σ)
      | STRING_VALUE => Some (value_append c σ)
      | _ => Some (msg "Invalid character error" (action ERROR σ))
      end
  end.

(** [++character_pos] at the end of the loop body. *)
Definition next_pos (σ : State) : State :=
  (σ.1, set_character_pos (incr32 (character_pos σ.2)) σ.2).

(** One iteration of the loop for a first [file.get()] that does not
    read a second one. *)
Definition iteration (character : option ascii) (σ : State)
    : option State :=
  next_pos <$> switch character None σ.

(** Whether the iteration that reads [c] in state [σ] performs the
    second [file.get()]. *)
Definition reads_escape (c : ascii) (σ : State) : bool :=
  bool_decide (label (Some c) = case_backslash ∧
               parse_action σ.2 = STRING_VALUE).

(** [while (!file.eof())] over the bytes that are left in the file.  The
    read that hits the end of the file still runs the loop body, with the
    end-of-file value, and sets the flag that ends the loop. *)
Fixpoint loop (bytes : string) (σ : State) : option State :=
  match bytes with
  | EmptyString => iteration None σ
  | String c rest =>
      if reads_escape c σ then
        match rest with
        | EmptyString => next_pos <$> switch (Some c) None σ
        | String e rest' =>
            σ' ← next_pos <$> switch (Some c) (Some e) σ; loop rest' σ'
        end
      else σ' ← iteration (Some c) σ; loop rest σ'
  end.

End Loop.

(** ** The file system and [load] *)

(** The files that can be opened for reading, with their contents. *)
Abbreviation Files := (gmap string string) (only parsing).

(** [load], with a bound on the nesting of includes: [None] when the bound
    is reached, which stands for the unbounded recursion of a file that
    includes itself. *)
Fixpoint load (depth : nat) (fs : Files) (file_path : string)
    (g : CFGParser) : option CFGParser :=
  match depth with
  | O => None
  | S depth' =>
      let g := set_current_file file_path g in
      match fs !! file_path with
      | None =>
          Some (call_msg_functor
                  ("Cannot open file " +:+ DQ +:+ file_path +:+ DQ +:+ ".") g)
      | Some bytes =>
          fst <$> loop (load depth' fs) bytes (g, Locals0)
      end
  end.

(** A file of the given lines, each ended by a newline. *)
Fixpoint unlines (l : list string) : string :=
  match l with
  | [] => EmptyString
  | x :: l' => x +:+ String LF (unlines l')
  end.

(** ** Typed getters ([CFGParser.hpp]) *)

(** [makeValueFromString<bool>] *)
Definition makeValueFromString_bool (string_value : string) : option bool :=
  Some (bool_decide (string_value = "true") ||
        bool_decide (string_value = "on") ||
        bool_decide (string_value = "yes")).

Definition isspace (c : ascii) : bool :=
  let n := nat_of_ascii c in
  bool_decide (n = 32 ∨ (9 ≤ n ∧ n ≤ 13))%nat.

Definition digit (c : ascii) : option Z :=
  let n := Z.of_nat (nat_of_ascii c) in
  if bool_decide (48 ≤ n ≤ 57)%Z then Some (n - 48)%Z else None.

Fixpoint skip_spaces (s : string) : string :=
  match s with
  | String c rest => if isspace c then skip_spaces rest else s
  | EmptyString => s
  end.

(** The digits at the front of [s], folded into [acc]; [None] when there
    is no digit at all. *)
Fixpoint digits (s : string) (acc : option Z) : option Z :=
  match s with
  | String c rest =>
      match digit c with
      | Some d => digits rest (Some (default 0%Z acc * 10 + d)%Z)
      | None => acc
      end
  | EmptyString => acc
  end.

(** [std::stoi] of the C++ standard library, base 10: leading white space
    is skipped, a sign is optional, the longest run of digits is converted
    and what follows is ignored.  [None] stands for the exception thrown
    when there is no digit or the number does not fit an [int]. *)
Definition stoi (s : string) : option Z :=
  let s := skip_spaces s in
  let '(neg, s) :=
    match s with
    | String c rest =>
        if Ascii.eqb c "-" then (true, rest)
        else if Ascii.eqb c "+" then (false, rest)
        else (false, s)
    | EmptyString => (false, s)
    end in
  n ← digits s None;
  let v := if neg : bool then (- n)%Z else n in
  if bool_decide (- 2 ^ 31 ≤ v < 2 ^ 31)%Z then Some v else None.

(** [makeValueFromString<int>] *)
Definition makeValueFromString_int (string_value : string) : option Z :=
  stoi string_value.

Section Getters.

Context {T : Type}.

(** [makeValueFromString<T>]; [None] stands for an exception of the
    numeric conversion, which ends the program since the getters are
    [noexcept]. *)
Variable makeValueFromString : string → option T.

(** [get<T>] *)
Definition get (g : CFGParser) (section key : string) (default_value : T)
    : option T :=
  let str := getString g section key EmptyString in
  if negb (empty str) then makeValueFromString str
  else Some default_value.

(** The loop of [getArray] over the characters of [str], followed by the
    push of the last element. *)
Fixpoint getArray_loop (str : string) (result : list T) (num_str : string)
    : option (list T) :=
  match str with
  | String character rest =>
      if Ascii.eqb character ","
      then v ← makeValueFromString num_str;
           getArray_loop rest (result ++ [v]) EmptyString
      else getArray_loop rest result (push_back num_str character)
  | EmptyString =>
      v ← makeValueFromString num_str; Some (result ++ [v])
  end.

(** [getArray<T>] *)
Definition getArray (g : CFGParser) (section key : string)
    : option (list T) :=
  let str := getString g section key EmptyString in
  if negb (empty str) then getArray_loop str [] EmptyString
  else Some [].

End Getters.

(** ** The serializer ([CFGParser::save]) *)

Section Save.

(** The order in which a range-for visits an [std::unordered_map] is not
    specified; the serializer is given the two enumerations it uses. *)
Variable section_order : gmap string Section → list (string * Section).
Variable value_order : gmap string string → list (string * string).

(** The loop that writes a list of names with [", "] between them. *)
Fixpoint save_names (first : bool) (l : list string) : string :=
  match l with
  | [] => EmptyString
  | x :: l' =>
      (if first then EmptyString else ", ") +:+ x +:+ save_names false l'
  end.

Fixpoint save_values (l : list (string * string)) : string :=
  match l with
  | [] => EmptyString
  | (k, v) :: l' => k +:+ " = " +:+ v +:+ String LF (save_values l')
  end.

Definition save_section (pair : string * Section) : string :=
  "[" +:+ pair.1 +:+ "]" +:+
  (match inheritances pair.2 with
   | [] => EmptyString
   | l => " : " +:+ save_names true l
   end) +:+
  (match attributes pair.2 with
   | [] => EmptyString
   | l => " = " +:+ save_names true l
   end) +:+
  String LF (save_values (value_order (values pair.2)) +:+
             String LF EmptyString).

Fixpoint save_sections (l : list (string * Section)) : string :=
  match l with
  | [] => EmptyString
  | x :: l' => save_section x +:+ save_sections l'
  end.

(** The bytes that [save] writes. *)
Definition save_bytes (g : CFGParser) : string :=
  save_sections (section_order (_section_data g)).

(** [save]: the file at [file_path], taken to be writable, is replaced
    by the written bytes. *)
Definition save (file_path : string) (g : CFGParser) (fs : Files) : Files :=
  <[file_path := save_bytes g]> fs.

End Save.

(** ** The rest of the interface ([CFGParser.hpp], [CFGParser.cpp]) *)

(** [allowed_characters]: the digits, the capital letters, the small
    letters and the underscore, 63 characters. *)
Definition allowed_characters : list ascii :=
  list_ascii_of_string
    "0123456789ABCDEFGHIJKLMNOPQRSTUVWXYZabcdefghijklmnopqrstuvwxyz_".

(** [std::find] over a range, by position: the index of the first element
    equal to [x], or the length of the range for [cend()]. *)
Fixpoint std_find (l : list ascii) (x : ascii) : nat :=
  match l with
  | [] => O
  | y :: l' => if Ascii.eqb y x then O else S (std_find l' x)
  end.

(** [isCharacterValid]: the comparison of the result of [std::find] with
    [allowed_characters.cend()] is an equality. *)
Definition isCharacterValid (character : ascii) : bool :=
  bool_decide (std_find allowed_characters character =
               length allowed_characters).

(** The constructor that takes a file: the printing functor is installed
    and the file is loaded. *)
Definition CFGParser_of_file (depth : nat) (fs : gmap string string)
    (file_path : string) : option CFGParser :=
  load depth fs file_path CFGParser0.


(** The loop of [hasAttribute] over the vector of attributes, which
    returns at the first element equal to [x]. *)
Fixpoint has_name_loop (l : list string) (x : string) : bool :=
  match l with
  | [] => false
  | y :: l' => if bool_decide (y = x) then true else has_name_loop l' x
  end.

(** [hasAttribute] says nothing to the functor for an unknown section. *)
Definition hasAttribute (g : CFGParser) (section attribute : string)
    : bool :=
  match _section_data g !! section with
  | Some s => has_name_loop (attributes s) attribute
  | None => false
  end.

Definition hasAttributes (g : CFGParser) (section : string)
    : bool * CFGParser :=
  match _section_data g !! section with
  | Some s => (negb (bool_decide (attributes s = [])), g)
  | None => (false, call_msg_functor (is_not_exist section) g)
  end.

Definition hasInheritances (g : CFGParser) (section : string)
    : bool * CFGParser :=
  match _section_data g !! section with
  | Some s => (negb (bool_decide (inheritances s = [])), g)
  | None => (false, call_msg_functor (is_not_exist section) g)
  end.

Definition getSectionCount (g : CFGParser) : nat := size (_section_data g).

Definition getSectionData (g : CFGParser) : gmap string Section :=
  _section_data g.

(** The message of [set] for a key that the section does not hold. *)
Definition key_is_not_exist (section key : string) : string :=
  "Section " +:+ DQ +:+ section +:+ DQ +:+ " key " +:+ DQ +:+ key +:+ DQ +:+
  " is not exist!".

(** [std::to_string] on an [int], and on a [bool], which is promoted to
    [int]. *)
Definition to_string_int (value : Z) : string := pretty value.

Definition to_string_bool (value : bool) : string :=
  to_string_int (if value then 1 else 0)%Z.

Section Setter.

Context {T : Type}.

(** [std::to_string] at the type [T]. *)
Variable to_string_T : T → string.

(** [set<T>]: the value is stored only under a key that the section
    holds itself. *)
Definition set (g : CFGParser) (section key : string) (value : T)
    : CFGParser :=
  match _section_data g !! section with
  | Some s =>
      match values s !! key with
      | Some _ =>
          through_ptr section (assign_value key (to_string_T value)) g
      | None => call_msg_functor (key_is_not_exist section key) g
      end
  | None => call_msg_functor (is_not_exist section) g
  end.

End Setter.

(** [saveCurrent]: [save] to the current file path; the two enumerations
    are those of the object at the time of the call. *)
Definition saveCurrent
    (section_order : gmap string Section → list (string * Section))
    (value_order : gmap string string → list (string * string))
    (g : CFGParser) (fs : gmap string string) : gmap string string :=
  save section_order value_order (_current_file g) g fs.

(** ** The rules of the specification, and the inputs of its scenarios *)

(** The lookup rule: the binding of [key] in the first section of the list
    [l] that exists and binds it. *)
Definition first_binding (data : gmap string Section) (l : list string)
    (key : string) : option string :=
  head (omap (λ base, data !! base ≫= λ s, values s !! key) l).

(** The lookup rule as the specification words it: the default for an
    unknown section, the section's own binding, the first binding among the
    listed bases, the default. *)
Definition lookup_rule (data : gmap string Section)
    (section key default_value : string) : string :=
  match data !! section with
  | None => default_value
  | Some s =>
      match values s !! key with
      | Some v => v
      | None => default default_value (first_binding data (inheritances s) key)
      end
  end.

(** What [getString] computes: a first inherited binding that is the empty
    string is passed over for the default. *)
Definition lookup_rule_nonempty (data : gmap string Section)
    (section key default_value : string) : string :=
  match data !! section with
  | None => default_value
  | Some s =>
      match values s !! key with
      | Some v => v
      | None =>
          match first_binding data (inheritances s) key with
          | Some v => if empty v then default_value else v
          | None => default_value
          end
      end
  end.

(** The segments of a raw value between its commas, the last one
    included. *)
Fixpoint split_commas (s : string) : list string :=
  match s with
  | EmptyString => [EmptyString]
  | String c rest =>
      if Ascii.eqb c "," then EmptyString :: split_commas rest
      else match split_commas rest with
           | seg :: l => String c seg :: l
           | [] => [String c EmptyString]
           end
  end.

(** The segments of [num_str +:+ str], given those of [str], when
    [num_str] has no comma. *)
Definition continue_segment (num_str : string) (l : list string)
    : list string :=
  match l with
  | seg :: l' => (num_str +:+ seg) :: l'
  | [] => []
  end.

(** The inputs of the scenarios S1, S3, S5 and S6 of the specification,
    and the chain of three sections of its depth-one property. *)
Definition scenario_S1 : string :=
  unlines ["[a]"; "x = 1"; "[b] : a"; "y = 2"].

Definition scenario_S3 : string :=
  unlines ["[s]";
           "m = " +:+ DQ +:+ "line1" +:+ String BACKSLASH "nline2" +:+ DQ].

Definition scenario_S5 : string :=
  unlines ["[base]"; "[derived] : base = flagA, flagB"; "k = v"].

Definition scenario_S6 : string := unlines ["[child] : ghost"; "k = v"].

Definition chain_input : string :=
  unlines ["[A]"; "K = v"; "[B] : A"; "[C] : B"].

(** A file system that holds one file. *)
Definition one_file (path bytes : string) : Files := {[ path := bytes ]}.

(** A section record with no inheritances and no attributes. *)
Definition plain_section (l : list (string * string)) : Section :=
  {| inheritances := []; attributes := []; values := list_to_map l |}.

(** An empty inherited value: section [b] inherits [x] from [a], where it
    is bound to the empty string. *)
Definition empty_inherited_input : string :=
  unlines ["[a]"; "x ="; "[b] : a"].

Definition empty_inherited_model : CFGParser :=
  {| _section_data :=
       {[ "a" := plain_section [("x", EmptyString)];
          "b" := {| inheritances := ["a"]; attributes := [];
                    values := ∅ |} ]};
     _msg_functor := Some []; _current_file := "f";
     _base_path := EmptyString |}.

(** A key assigned twice in one section. *)
Definition redefinition_input : string := unlines ["[a]"; "x=1"; "x=2"].

(** Scenario S2: a section header that comes twice. *)
Definition duplicate_section_input : string :=
  unlines ["[a]"; "x=1"; "[a]"; "x=2"].

(** Scenario S4: an array value. *)
Definition array_input : string := unlines ["[t]"; "arr = 1,2,3"].

Definition array_model : CFGParser :=
  {| _section_data := {[ "t" := plain_section [("arr", "1,2,3")] ]};
     _msg_functor := Some []; _current_file := "f";
     _base_path := EmptyString |}.

(** A key bound to the empty string. *)
Definition empty_value_input : string := unlines ["[a]"; "x ="].

Definition empty_value_model : CFGParser :=
  {| _section_data := {[ "a" := plain_section [("x", EmptyString)] ]};
     _msg_functor := Some []; _current_file := "f";
     _base_path := EmptyString |}.

Definition redefinition_model : CFGParser :=
  {| _section_data := {[ "a" := plain_section [("x", "2")] ]};
     _msg_functor :=
       Some ["Error at line '3', character at '2' : Section " +:+ DQ +:+ "a"
             +:+ DQ +:+ " key " +:+ DQ +:+ "x" +:+ DQ +:+ " already exist."];
     _current_file := "f"; _base_path := EmptyString |}.

Definition duplicate_section_model : CFGParser :=
  {| _section_data := {[ "a" := plain_section [("x", "1")] ]};
     _msg_functor :=
       Some ["Error at line '3', character at '3' : Section " +:+ DQ +:+ "a"
             +:+ DQ +:+ " already exist."];
     _current_file := "f"; _base_path := EmptyString |}.

(** The message of [load] for a file that cannot be opened. *)
Definition cannot_open (file_path : string) : string :=
  "Cannot open file " +:+ DQ +:+ file_path +:+ DQ +:+ ".".

(** The states in which the parser accumulates an identifier or a value
    and checks the ignore-spaces flag when it reads a space or a tab. *)
Definition checks_spaces (a : ParseAction) : bool :=
  match a with
  | SECTION | INHERITANCE | ATTRIBUTE | KEY | VALUE => true
  | _ => false
  end.

(** The ignore-spaces flag after the loop body has run for [character]. *)
Definition flag_after (character : option ascii) (p : Locals) : bool :=
  if bool_decide (label character = case_newline ∨
                  (label character = case_close ∧ parse_action p = SECTION))
  then true
  else if bool_decide (label character = case_open ∧
                       parse_action p = NEW_LINE)
  then false
  else ignore_current_spaces p.

(** A key written with a space inside it. *)
Definition spaced_key_input : string := unlines ["[s]"; "k ey = v"].

Definition spaced_key_model : CFGParser :=
  {| _section_data := {[ "s" := plain_section [("key", "v")] ]};
     _msg_functor := Some []; _current_file := "f";
     _base_path := EmptyString |}.

(** A loader for files without includes. *)
Definition no_include : string → CFGParser → option CFGParser :=
  λ _ _, None.

(** ** The shape of input lines *)

Fixpoint all_chars (P : ascii → bool) (s : string) : bool :=
  match s with
  | EmptyString => true
  | String c rest => P c && all_chars P rest
  end.

(** A character with no case label of its own: it reaches [default]. *)
Definition ordinary (c : ascii) : bool :=
  bool_decide (label (Some c) = case_default).

(** A space or a tab. *)
Definition blank (c : ascii) : bool :=
  bool_decide (label (Some c) = case_space).

Definition comma (c : ascii) : bool :=
  bool_decide (label (Some c) = case_comma).

(** A name: characters that reach [default] only. *)
Definition name_text (s : string) : bool := all_chars ordinary s.

(** The left side of an assignment: a name, with blanks allowed around
    and inside it. *)
Definition key_text (s : string) : bool :=
  all_chars (λ c, ordinary c || blank c) s && negb (all_chars blank s).

(** A bare value: a token or a list of tokens separated by commas, with
    blanks allowed. *)
Definition bare_value (s : string) : bool :=
  all_chars (λ c, ordinary c || blank c || comma c) s.

(** The characters that may follow a backslash in a quoted value. *)
Definition escape_char (c : ascii) : bool :=
  Ascii.eqb c BACKSLASH || Ascii.eqb c "n" || Ascii.eqb c dq ||
  Ascii.eqb c "'".

(** The inside of a quoted value: no double quote, and every backslash is
    followed by one of the four escape characters. *)
Fixpoint string_body (s : string) : bool :=
  match s with
  | EmptyString => true
  | String c rest =>
      if Ascii.eqb c BACKSLASH then
        match rest with
        | String e rest' => escape_char e && string_body rest'
        | EmptyString => false
        end
      else negb (Ascii.eqb c dq) && string_body rest
  end.

(** An assignment line [KEY = VALUE], the value bare or quoted, with its
    newline. *)
Inductive assignment_line : string → Prop :=
  | bare_assignment k v :
      key_text k = true → bare_value v = true →
      assignment_line (k +:+ "=" +:+ v +:+ String LF EmptyString)
  | quoted_assignment k b1 body b2 :
      key_text k = true → all_chars blank b1 = true →
      string_body body = true → all_chars blank b2 = true →
      assignment_line (k +:+ "=" +:+ b1 +:+ DQ +:+ body +:+ DQ +:+ b2 +:+
                       String LF EmptyString).

(** The locals in state [a] while no section is active and spaces are
    ignored. *)
Definition idle (a : ParseAction) (p : Locals) : Prop :=
  parse_action p = a ∧ section_ptr p = None ∧
  ignore_current_spaces p = true.

(** The locals inside a bare value while no section is active. *)
Definition idle_value (p : Locals) : Prop :=
  idle VALUE p ∨ idle VALUE_ARRAY p.

(** A list of names separated by commas, with blanks allowed. *)
Definition list_text (s : string) : bool :=
  all_chars (λ c, ordinary c || blank c || comma c) s.

(** What follows the bracketed name on a header line: nothing, a list of
    bases after a colon, a list of attributes after an equals sign, or
    both. *)
Inductive header_tail : string → Prop :=
  | tail_none b : all_chars blank b = true → header_tail b
  | tail_bases b t :
      all_chars blank b = true → list_text t = true →
      header_tail (b +:+ ":" +:+ t)
  | tail_attributes b t :
      all_chars blank b = true → list_text t = true →
      header_tail (b +:+ "=" +:+ t)
  | tail_both b t1 t2 :
      all_chars blank b = true → list_text t1 = true →
      list_text t2 = true →
      header_tail (b +:+ ":" +:+ t1 +:+ "=" +:+ t2).

(** The locals at the start of a line while no section is active. *)
Definition no_section_line_start (p : Locals) : Prop :=
  parse_action p = NEW_LINE ∧ section_ptr p = None ∧
  ignore_current_spaces p = true.

Fixpoint concat_lines (l : list string) : string :=
  match l with
  | [] => EmptyString
  | x :: l' => x +:+ concat_lines l'
  end.

(** The diagnostic for a section header that names an existing section. *)
Definition already_exist (line pos : N) (name : string) : string :=
  ("Error at line '" +:+ to_string line +:+ "', character at '" +:+
   to_string pos +:+ "' : ") +:+
  "Section " +:+ DQ +:+ name +:+ DQ +:+ " already exist.".

(** The states that append an ordinary character to a scratch buffer of
    their own. *)
Definition accumulates (a : ParseAction) : bool :=
  match a with
  | SECTION | INHERITANCE | ATTRIBUTE | KEY | VALUE | VALUE_ARRAY => true
  | _ => false
  end.

(** The locals after the text [s] has been appended to the scratch buffer
    of the current state. *)
Definition accumulate (s : string) (p : Locals) : Locals :=
  match parse_action p with
  | SECTION => set_section (section p +:+ s) p
  | INHERITANCE => set_inheritance (inheritance p +:+ s) p
  | ATTRIBUTE => set_attribute (attribute p +:+ s) p
  | KEY => set_key (key p +:+ s) p
  | VALUE | VALUE_ARRAY => set_value (value p +:+ s) p
  | _ => p
  end.

(** An assignment line for the witnesses. *)
Definition sample_assignment : string := "x = 1" +:+ String LF EmptyString.

(** ** Comments *)

(** The states in which a newline changes nothing but the line count, so
    that a comment that starts there can be deleted without a trace. *)
Definition comment_neutral (a : ParseAction) : bool :=
  match a with
  | NEW_LINE | SECTION | COMMENT | PREPROCESSOR | INCLUDE => true
  | _ => false
  end.

(** The text of a semicolon comment up to its newline, with no vertical
    bar in it. *)
Definition line_comment_text (s : string) : bool :=
  all_chars (λ c, negb (bool_decide (label (Some c) = case_newline)) &&
                  negb (bool_decide (label (Some c) = case_comment_multiline)))
            s.

(** The text between two vertical bars, with no semicolon in it. *)
Definition block_comment_text (s : string) : bool :=
  all_chars (λ c, negb (bool_decide (label (Some c) = case_comment_character))
                  && negb (bool_decide
                             (label (Some c) = case_comment_multiline)))
            s.

(** The deletion of the comment regions, as the specification words it:
    each semicolon through the end of its line, the newline kept, and each
    region enclosed in a pair of vertical bars. *)
Inductive StripMode := in_text | in_line_comment | in_block_comment.

Fixpoint strip_comments (mode : StripMode) (s : string) : string :=
  match s with
  | EmptyString => EmptyString
  | String c rest =>
      match mode with
      | in_text =>
          if Ascii.eqb c ";" then strip_comments in_line_comment rest
          else if Ascii.eqb c "|" then strip_comments in_block_comment rest
          else String c (strip_comments in_text rest)
      | in_line_comment =>
          if Ascii.eqb c LF then String c (strip_comments in_text rest)
          else strip_comments in_line_comment rest
      | in_block_comment =>
          if Ascii.eqb c "|" then strip_comments in_text rest
          else strip_comments in_block_comment rest
      end
  end.

(** A comment after a value. *)
Definition trailing_comment_input : string := unlines ["[s]"; "x = 1 ; c"].
Definition trailing_comment_stripped : string := unlines ["[s]"; "x = 1 "].

Definition trailing_comment_model : CFGParser :=
  {| _section_data := {[ "s" := plain_section [("x", EmptyString)] ]};
     _msg_functor := Some []; _current_file := "f";
     _base_path := EmptyString |}.

Definition trailing_comment_stripped_model : CFGParser :=
  {| _section_data := {[ "s" := plain_section [("x", "1")] ]};
     _msg_functor := Some []; _current_file := "f";
     _base_path := EmptyString |}.

(** The object without the record of its diagnostics, and the locals
    without the position in the file: what is left decides the model. *)
Definition erase_log (g : CFGParser) : CFGParser :=
  {| _section_data := _section_data g; _msg_functor := None;
     _current_file := _current_file g; _base_path := _base_path g |}.

Definition erase_pos (p : Locals) : Locals :=
  set_line 0 (set_character_pos 0 p).

Definition erase (σ : State) : State := (erase_log σ.1, erase_pos σ.2).

(** A loader whose model does not depend on the diagnostics emitted so
    far. *)
Definition log_blind (load_rec : string → CFGParser → option CFGParser)
    : Prop :=
  ∀ path g g', erase_log g = erase_log g' →
    erase_log <$> load_rec path g = erase_log <$> load_rec path g'.

(** A step of the parser whose effect on the model does not depend on
    lines, positions and diagnostics. *)
Definition respects (f : State → State) : Prop :=
  ∀ σ σ', erase σ = erase σ' → erase (f σ) = erase (f σ').

(** The model that a run of the loop leaves. *)
Definition model_of (σ : State) : gmap string Section := _section_data σ.1.


(** ** Canonical models and the round trip *)

(** A quoted value with a space in it. *)
Definition spaced_value_input : string :=
  unlines ["[s]"; "k = " +:+ DQ +:+ "a b" +:+ DQ].

Definition spaced_value_model : CFGParser :=
  {| _section_data := {[ "s" := plain_section [("k", "a b")] ]};
     _msg_functor := Some []; _current_file := "f";
     _base_path := EmptyString |}.

(** A name that is not empty. *)
Definition nonempty_name (s : string) : bool :=
  name_text s && negb (empty s).

(** A value that the serializer writes and the parser reads back as it
    is: ordinary characters and commas. *)
Definition value_text (s : string) : bool :=
  all_chars (λ c, ordinary c || comma c) s.

Definition canonical_pair (kv : string * string) : bool :=
  nonempty_name kv.1 && value_text kv.2.

(** A section whose names, keys and values are written and read back as
    they are; [kvs] is the enumeration of its values. *)
Definition canonical_section (kvs : list (string * string)) (s : Section)
    : bool :=
  forallb nonempty_name (inheritances s) &&
  forallb nonempty_name (attributes s) &&
  forallb canonical_pair kvs.

(** Every section comes after the bases it names, or names itself;
    [seen] are the names of the sections before the list. *)
Fixpoint bases_first (seen : list string) (l : list (string * Section))
    : bool :=
  match l with
  | [] => true
  | x :: l' =>
      forallb (λ b, bool_decide (b ∈ x.1 :: seen)) (inheritances x.2) &&
      bases_first (x.1 :: seen) l'
  end.

(** A canonical model, in the order in which it is serialized. *)
Definition canonical
    (value_order : gmap string string → list (string * string))
    (l : list (string * Section)) : bool :=
  forallb (λ x, name_text x.1 &&
                canonical_section (value_order (values x.2)) x.2) l &&
  bases_first [] l.

(** The assignments [m[k] = v] for the pairs of a list, in order. *)
Definition insert_all {V : Type} (l : list (string * V))
    (m : gmap string V) : gmap string V :=
  foldl (λ m kv, <[kv.1 := kv.2]> m) m l.

(** The object with another section map. *)
Definition with_data (m : gmap string Section) (g : CFGParser) : CFGParser :=
  set_section_data (λ _, m) g.

(** A canonical model of two sections, the second derived from the
    first. *)
Definition derived_model : CFGParser :=
  {| _section_data :=
       {[ "a" := plain_section [("x", "1")];
          "b" := {| inheritances := ["a"]; attributes := ["flag"];
                    values := {[ "y" := "2,3" ]} |} ]};
     _msg_functor := Some []; _current_file := EmptyString;
     _base_path := EmptyString |}.

(** The section record with another value map. *)
Definition set_values (V : gmap string string) (s : Section) : Section :=
  {| inheritances := inheritances s; attributes := attributes s;
     values := V |}.

(** The locals at the start of a line inside the section [name], with the
    scratch buffers of the line empty. *)
Definition line_start (name : string) (p : Locals) : Prop :=
  parse_action p = NEW_LINE ∧ section_ptr p = Some name ∧
  ignore_current_spaces p = true ∧
  inheritance p = EmptyString ∧ attribute p = EmptyString ∧
  key p = EmptyString ∧ value p = EmptyString.

(** The section record with more inheritances, or more attributes. *)
Definition add_inheritances (l : list string) (s : Section) : Section :=
  {| inheritances := inheritances s ++ l; attributes := attributes s;
     values := values s |}.

Definition add_attributes (l : list string) (s : Section) : Section :=
  {| inheritances := inheritances s; attributes := attributes s ++ l;
     values := values s |}.

(** A base that exists when the header of section [n] is read: the section
    itself, or a section of [m]. *)
Definition known_base (m : gmap string Section) (n b : string) : Prop :=
  b = n ∨ is_Some (m !! b).

(** The part of a header that lists the names [l] after the text [sep],
    as [save] writes it. *)
Definition save_list (sep : string) (l : list string) : string :=
  match l with
  | [] => EmptyString
  | _ => sep +:+ save_names true l
  end.

(** The locals after the bracketed name of section [n], or after the list
    of its bases: in state [a], with [x] in the inheritance buffer. *)
Definition in_header (n : string) (a : ParseAction) (x : string) (p : Locals)
    : Prop :=
  parse_action p = a ∧ section_ptr p = Some n ∧
  ignore_current_spaces p = true ∧ section p = n ∧
  inheritance p = x ∧ attribute p = EmptyString ∧
  key p = EmptyString ∧ value p = EmptyString.

(** The name that the end of the list of bases still has to push. *)
Definition pending (x : string) : list string :=
  if empty x then [] else [x].

(** The locals between two sections of a serialized file: at the start
    of a line, with the scratch buffers of the line empty. *)
Definition between_sections (p : Locals) : Prop :=
  parse_action p = NEW_LINE ∧ inheritance p = EmptyString ∧
  attribute p = EmptyString ∧ key p = EmptyString ∧ value p = EmptyString.

(** Every section of the list names bases that are in [m], or before it
    in the list, or itself. *)
Fixpoint bases_known (m : gmap string Section) (l : list (string * Section))
    : Prop :=
  match l with
  | [] => True
  | x :: l' =>
      Forall (known_base m x.1) (inheritances x.2) ∧
      bases_known (<[x.1 := x.2]> m) l'
  end.

(** ** What a run of the loop does to the object *)

(** The part of the state that outlives a character: the object, and the
    section that [section_ptr] points to. *)
Definition view (σ : State) : CFGParser * option string :=
  (σ.1, section_ptr σ.2).

(** The changes that the body of the loop makes to the object and to
    [section_ptr]: a message, a write through the pointer, the reset of
    the pointer at an opening bracket, a new section, an include. *)
Inductive effect (load_rec : string → CFGParser → option CFGParser)
    : CFGParser * option string → CFGParser * option string → Prop :=
  | effect_none v : effect load_rec v v
  | effect_message m g ptr :
      effect load_rec (g, ptr) (call_msg_functor m g, ptr)
  | effect_write n f g :
      effect load_rec (g, Some n) (through_ptr n f g, Some n)
  | effect_reset g ptr : effect load_rec (g, ptr) (g, None)
  | effect_emplace n g ptr :
      _section_data g !! n = None →
      effect load_rec (g, ptr)
        (set_section_data (insert n Section0) g, Some n)
  | effect_include path g g' ptr :
      IncludeFile load_rec path g = Some g' →
      effect load_rec (g, ptr) (g', ptr)
  | effect_then v1 v2 v3 :
      effect load_rec v1 v2 → effect load_rec v2 v3 →
      effect load_rec v1 v3.

(** The functor of [g'] is the functor of [g] after some more messages. *)
Definition log_extends (g g' : CFGParser) : Prop :=
  match _msg_functor g with
  | Some log => ∃ more, _msg_functor g' = Some (log ++ more)
  | None => _msg_functor g' = None
  end.

(** The sections of [m0] are in the object as they are in [m0], and
    [section_ptr] points to none of them. *)
Definition kept (m0 : gmap string Section) (v : CFGParser * option string)
    : Prop :=
  m0 ⊆ _section_data v.1 ∧ ∀ n, v.2 = Some n → m0 !! n = None.

(** ** What an assignment line stores *)

(** The text without its spaces and tabs. *)
Fixpoint without_blanks (s : string) : string :=
  match s with
  | EmptyString => EmptyString
  | String c rest =>
      if blank c then without_blanks rest
      else String c (without_blanks rest)
  end.

(** What the character after a backslash adds to a quoted value. *)
Definition escaped (e : ascii) : string :=
  if Ascii.eqb e BACKSLASH then String BACKSLASH EmptyString
  else if Ascii.eqb e "n" then String LF EmptyString
  else if Ascii.eqb e dq then String dq EmptyString
  else if Ascii.eqb e "'" then String "'"%char EmptyString
  else EmptyString.

(** The value that the inside of a quoted string stands for: the escape
    sequences are replaced, a newline that is not written as an escape is
    left out, every other character stands for itself. *)
Fixpoint unescape (body : string) : string :=
  match body with
  | EmptyString => EmptyString
  | String c rest =>
      if Ascii.eqb c BACKSLASH then
        match rest with
        | String e rest' => escaped e +:+ unescape rest'
        | EmptyString => EmptyString
        end
      else if Ascii.eqb c LF then unescape rest
      else String c (unescape rest)
  end.

(** The object after [values[k] = v] in the section [n], the key
    inserted if it was not there. *)
Definition bind_value (n k v : string) (g : CFGParser) : CFGParser :=
  set_section_data
    (alter (λ s, set_values (<[k := v]> (values s)) s) n) g.

(** The binding of key [k] in section [n], if there is one. *)
Definition binding (g : CFGParser) (n k : string) : option string :=
  _section_data g !! n ≫= λ s, values s !! k.

(** The object after the equals sign of a line whose key is [K], and
    after the newline that commits the value [V]. *)
Definition after_equals (g : CFGParser) (n K : string) (g1 : CFGParser)
    : Prop :=
  match binding g n K with
  | None => g1 = bind_value n K EmptyString g
  | Some _ => ∃ m, g1 = call_msg_functor m g
  end.

Definition after_commit (g : CFGParser) (n K V : string) (g' : CFGParser)
    : Prop :=
  match binding g n K with
  | None => g' = bind_value n K V g
  | Some _ => ∃ m, g' = call_msg_functor m (bind_value n K V g)
  end.

(** ** Section headers *)

Global Instance known_base_dec m n b : Decision (known_base m n b).
Proof. unfold known_base. apply _. Defined.

(** The object after the functor has been called with the messages of a
    list, in order. *)
Definition add_messages (ms : list string) (g : CFGParser) : CFGParser :=
  foldl (λ g m, call_msg_functor m g) g ms.

(** The locals at the start of a line inside the section [n]. *)
Definition inside (n : string) : Locals := set_section_ptr (Some n) Locals0.

(** ** Characters of names *)

(** A digit, a letter of the ASCII alphabet or the underscore, by the
    code of the character. *)
Definition name_character (c : ascii) : bool :=
  let n := nat_of_ascii c in
  bool_decide ((48 ≤ n ∧ n ≤ 57) ∨ (65 ≤ n ∧ n ≤ 90) ∨
               (97 ≤ n ∧ n ≤ 122) ∨ n = 95)%nat.

(** An array value that ends with a comma. *)
Definition trailing_comma_model : CFGParser :=
  {| _section_data := {[ "t" := plain_section [("arr", "1,2,")] ]};
     _msg_functor := Some []; _current_file := "f";
     _base_path := EmptyString |}.

(** ** The line counter *)

(** The number of newlines in a text. *)
Fixpoint newlines (s : string) : nat :=
  match s with
  | EmptyString => O
  | String c rest =>
      if Ascii.eqb c LF then S (newlines rest) else newlines rest
  end.

(** The text after the equals sign on a last line: a value that is not
    quoted, a quoted string with blanks around it, or a quoted string
    that is not closed. *)
Inductive line_value : string → Prop :=
  | value_bare v : bare_value v = true → line_value v
  | value_quoted b1 body b2 :
      all_chars blank b1 = true → string_body body = true →
      all_chars blank b2 = true →
      line_value (b1 +:+ DQ +:+ body +:+ DQ +:+ b2)
  | value_open b1 body :
      all_chars blank b1 = true → string_body body = true →
      line_value (b1 +:+ DQ +:+ body).

(** The names that a header reads from a list when the buffer holds
    [x0]: the first name of the list comes after the content of the
    buffer. *)
Definition prefixed (x0 : string) (l : list string) : list string :=
  match l with
  | [] => []
  | b :: l' => (x0 +:+ b) :: l'
  end.


(** The locals with a key and a value left in the buffers by a line
    that was not committed. *)
Definition inside_after (n k v : string) : Locals :=
  set_value v (set_key k (inside n)).

(** Two files, the first of which includes the second. *)
Definition including_files : Files :=
  <["main" := "#include <inc>" +:+ String LF ("[b]" +:+ String LF EmptyString)]>
    (one_file "inc" ("[a]" +:+ String LF ("x = 1" +:+ String LF EmptyString))).

(** * Properties *)

(** ** Lookup *)

Lemma getValueFromInheritance_loop_first data l key :
  getValueFromInheritance_loop data l key =
  default EmptyString (first_binding data l key).
Proof.
  unfold first_binding.
  induction l as [|b l IH]; simpl; [done|].
  destruct (data !! b) as [s|]; simpl; [|done].
  by destruct (values s !! key).
Qed.

Lemma load_empty_inherited :
  load 1 (one_file "f" empty_inherited_input) "f" CFGParser0 =
  Some empty_inherited_model.
Proof. vm_compute. reflexivity. Qed.

(** C1: the code evaluated on a loaded file.  Section [b] does not bind
    [x], its first base [a] binds [x] to the empty string, and
    [getString] returns the default where the rule of the claim gives
    that binding: [getValueFromInheritance] finds it, and [getString]
    takes its empty value for the reply that stands for no binding. *)
Lemma getString_empty_inherited_counterexample :
  load 1 (one_file "f" empty_inherited_input) "f" CFGParser0 =
    Some empty_inherited_model ∧
  lookup_rule (_section_data empty_inherited_model) "b" "x" "dflt" =
    EmptyString ∧
  getString empty_inherited_model "b" "x" "dflt" = "dflt".
Proof. split; [apply load_empty_inherited|]. by vm_compute. Qed.

(** The section's own binding of the same key to the empty string is
    returned as it is: only the inherited one is lost. *)
Lemma getString_own_empty_binding :
  getString empty_inherited_model "a" "x" "dflt" = EmptyString.
Proof. by vm_compute. Qed.

(** What [getString] computes, for every model, section name and key: the
    default if the section does not exist; otherwise the section's own
    binding of the key if there is one; otherwise the binding of the key
    in the first section of the inheritance list that exists and binds
    it, unless that binding is the empty string; otherwise the default.
    Only the records of the section and of the bases it lists are read:
    bases of bases are never consulted. *)
Theorem getString_lookup_rule (g : CFGParser) (S K default_value : string) :
  getString g S K default_value =
  lookup_rule_nonempty (_section_data g) S K default_value.
Proof.
  unfold getString, lookup_rule_nonempty, getValueFromInheritance.
  destruct (_section_data g !! S) as [s|]; [|done].
  destruct (values s !! K) as [v|]; [done|].
  rewrite getValueFromInheritance_loop_first.
  destruct (first_binding _ _ _) as [v|]; simpl; [|done].
  by destruct (empty v).
Qed.

(** ** The scenarios of the specification, evaluated on the embedding *)

Example scenario_S1_lookup :
  (λ g, (getString g "b" "x" "_", getString g "b" "y" "_",
         getString g "b" "z" "_", isInheritedFrom g "b" "a",
         messages g)) <$>
    load 1 (one_file "f" scenario_S1) "f" CFGParser0 =
  Some ("1", "2", "_", true, []).
Proof. by vm_compute. Qed.

Example scenario_S3_escape :
  (λ g, getString g "s" "m" EmptyString) <$>
    load 1 (one_file "f" scenario_S3) "f" CFGParser0 =
  Some ("line1" +:+ String LF "line2").
Proof. by vm_compute. Qed.

Example scenario_S5_header :
  (λ g, ((getAttributes g "derived").1, (getInheritances g "derived").1,
         getString g "derived" "k" EmptyString, hasSection g "base")) <$>
    load 1 (one_file "f" scenario_S5) "f" CFGParser0 =
  Some (["flagA"; "flagB"], ["base"], "v", true).
Proof. by vm_compute. Qed.

Example scenario_S6_missing_base :
  (λ g, (length (messages g), (getInheritances g "child").1,
         getString g "child" "k" EmptyString)) <$>
    load 1 (one_file "f" scenario_S6) "f" CFGParser0 =
  Some (1, [], "v").
Proof. by vm_compute. Qed.

(** Inheritance is looked up one level deep: [C] inherits from [B], [B]
    from [A], only [A] binds [K], and [C] gets the default. *)
Example inheritance_depth_one :
  (λ g, (getString g "B" "K" "dflt", getString g "C" "K" "dflt")) <$>
    load 1 (one_file "f" chain_input) "f" CFGParser0 =
  Some ("v", "dflt").
Proof. by vm_compute. Qed.

(** The boolean conversion knows three spellings of true. *)
Example makeValueFromString_bool_values :
  (makeValueFromString_bool "yes", makeValueFromString_bool "on",
   makeValueFromString_bool "true", makeValueFromString_bool "True") =
  (Some true, Some true, Some true, Some false).
Proof. by vm_compute. Qed.

(** ** Redefinition of a key *)

(** C2: on the input with [x=1] followed by [x=2] in section [a], [load]
    reports the redefinition, and the model then binds [x] to the later
    value 2: the commit at the end of the line assigns the value without
    regard to the duplicate that the equals sign has just reported. *)
Theorem redefinition_overwrites :
  load 1 (one_file "f" redefinition_input) "f" CFGParser0 =
    Some redefinition_model ∧
  length (messages redefinition_model) = 1 ∧
  getString redefinition_model "a" "x" EmptyString = "2".
Proof. by vm_compute. Qed.

(** ** A file that cannot be opened *)

(** C7, as stated, fails: after a [load] of a path that cannot be opened
    the object's current file is that path, not the one it held before. *)
Lemma load_failure_current_file_counterexample :
  (∅ : Files) !! "missing.cfg" = None ∧
  _current_file CFGParser0 = EmptyString ∧
  (_current_file <$> load 1 ∅ "missing.cfg" CFGParser0) = Some "missing.cfg".
Proof. by vm_compute. Qed.

(** C7 (amended): for every path whose file cannot be opened, [load]
    returns after one call of the message functor, with the message that
    names the path; the sections and the base path are unchanged and the
    current file is the path given.  When the path comes from an include
    directive, [IncludeFile] puts the includer's current file back. *)
Theorem load_cannot_open (depth : nat) (fs : Files) (file_path : string)
    (g : CFGParser) :
  fs !! file_path = None →
  (∃ g', load (S depth) fs file_path g = Some g' ∧
     _section_data g' = _section_data g ∧
     _base_path g' = _base_path g ∧
     _msg_functor g' =
       (λ log, log ++ [cannot_open file_path]) <$> _msg_functor g ∧
     _current_file g' = file_path) ∧
  (∀ path, file_path = _base_path g +:+ path →
     ∃ g', IncludeFile (load (S depth) fs) path g = Some g' ∧
       _section_data g' = _section_data g ∧
       _base_path g' = _base_path g ∧
       _msg_functor g' =
         (λ log, log ++ [cannot_open file_path]) <$> _msg_functor g ∧
       _current_file g' = _current_file g).
Proof.
  intros Hnone. split.
  - eexists. split; [simpl; rewrite Hnone; reflexivity|]. done.
  - intros path ->. unfold IncludeFile. simpl. rewrite Hnone. simpl.
    eexists. split; [reflexivity|]. done.
Qed.

Lemma load_cannot_open_witness :
  (∅ : Files) !! "missing.cfg" = None ∧
  ∃ g', load 1 ∅ "missing.cfg" CFGParser0 = Some g' ∧
    _section_data g' = ∅ ∧ messages g' = [cannot_open "missing.cfg"].
Proof.
  split; [reflexivity|].
  destruct (load_cannot_open 0 ∅ "missing.cfg" CFGParser0 (lookup_empty _))
    as [(g' & Hl & Hs & _ & Hm & _) _].
  exists g'. split; [exact Hl|]. split; [exact Hs|].
  unfold messages. rewrite Hm. reflexivity.
Defined.

(** ** Typed getters *)

Lemma append_Empty (t : string) : EmptyString +:+ t = t.
Proof. reflexivity. Qed.

Lemma append_String (c : ascii) (s t : string) :
  String c s +:+ t = String c (s +:+ t).
Proof. reflexivity. Qed.

Lemma append_nil_r (s : string) : s +:+ EmptyString = s.
Proof.
  induction s as [|c s IH]; [done|]. by rewrite append_String, IH.
Qed.

Lemma append_assoc (s t u : string) : (s +:+ t) +:+ u = s +:+ (t +:+ u).
Proof.
  induction s as [|c s IH]; [done|]. by rewrite !append_String, IH.
Qed.

Lemma push_back_append (s t : string) (c : ascii) :
  push_back s c +:+ t = s +:+ String c t.
Proof. unfold push_back. by rewrite append_assoc. Qed.

Lemma split_commas_nonempty s : split_commas s ≠ [].
Proof.
  destruct s as [|c s]; simpl; [done|].
  destruct (Ascii.eqb c ","); [done|]. by destruct (split_commas s).
Qed.

Section GetterProperties.

Context {T : Type} (conv : string → option T).

(** The loop with a segment [num_str] in progress yields, after
    [result], the conversions of the segments of [str], the first of them
    continuing [num_str]. *)
Lemma getArray_loop_split str : ∀ result num_str,
  getArray_loop conv str result num_str =
  (result ++.) <$> mapM conv (continue_segment num_str (split_commas str)).
Proof.
  induction str as [|c str IH]; intros result num_str; simpl.
  - rewrite append_nil_r. by destruct (conv num_str).
  - destruct (Ascii.eqb c ",") eqn:Hc; simpl.
    + rewrite append_nil_r. destruct (conv num_str) as [v|]; simpl; [|done].
      rewrite IH. pose proof (split_commas_nonempty str) as Hne.
      destruct (split_commas str) as [|seg l]; [done|]. simpl.
      rewrite append_Empty.
      destruct (conv seg); simpl; [|done].
      destruct (mapM conv l); simpl; [|done].
      by rewrite <- app_assoc.
    + rewrite IH. pose proof (split_commas_nonempty str) as Hne.
      destruct (split_commas str) as [|seg l]; [done|]. simpl.
      by rewrite push_back_append.
Qed.

(** C8: when section [S] binds key [K] to a raw value that is not empty,
    [getArray] converts the segments between the commas of the raw value,
    in order, the last segment included, each segment as it stands (no
    trimming); a conversion that throws ends the call.  On the input of
    scenario S4, [getArray<int>] of [t], [arr] is the sequence 1, 2, 3. *)
Theorem getArray_split_commas (g : CFGParser) (S K : string)
    (s : Section) (raw : string) :
  _section_data g !! S = Some s →
  values s !! K = Some raw →
  raw ≠ EmptyString →
  getArray conv g S K = mapM conv (split_commas raw) ∧
  (load 1 (one_file "f" array_input) "f" CFGParser0 = Some array_model ∧
   getArray makeValueFromString_int array_model "t" "arr" =
     Some [1; 2; 3]%Z).
Proof.
  intros HS HK Hraw. split; [|by vm_compute].
  unfold getArray, getString. rewrite HS, HK.
  destruct raw as [|c raw]; [done|]. cbn [empty negb].
  rewrite getArray_loop_split.
  pose proof (split_commas_nonempty (String c raw)) as Hne.
  destruct (split_commas (String c raw)) as [|seg l]; [done|].
  unfold continue_segment. rewrite append_Empty.
  by destruct (mapM conv (seg :: l)).
Qed.

(** C9: when section [S] binds key [K] to the empty string, [get]
    returns the default without calling the conversion, [getArray]
    returns the empty array, and [hasKey] is true. *)
Theorem empty_value_getters (g : CFGParser) (S K : string) (s : Section)
    (default_value : T) :
  _section_data g !! S = Some s →
  values s !! K = Some EmptyString →
  get conv g S K default_value = Some default_value ∧
  getArray conv g S K = Some [] ∧
  hasKey g S K = (true, g).
Proof.
  intros HS HK. unfold get, getArray, getString, hasKey.
  rewrite HS, HK. simpl. by split_and!.
Qed.

End GetterProperties.

Lemma getArray_split_commas_witness :
  _section_data array_model !! "t" = Some (plain_section [("arr", "1,2,3")]) ∧
  values (plain_section [("arr", "1,2,3")]) !! "arr" = Some "1,2,3" ∧
  "1,2,3" ≠ EmptyString ∧
  getArray makeValueFromString_int array_model "t" "arr" =
    mapM makeValueFromString_int (split_commas "1,2,3").
Proof.
  assert (H1 : _section_data array_model !! "t" =
               Some (plain_section [("arr", "1,2,3")])) by reflexivity.
  assert (H2 : values (plain_section [("arr", "1,2,3")]) !! "arr" =
               Some "1,2,3") by reflexivity.
  assert (H3 : "1,2,3" ≠ EmptyString) by discriminate.
  split_and!; [exact H1|exact H2|exact H3|].
  exact (proj1 (getArray_split_commas makeValueFromString_int array_model
                  "t" "arr" _ _ H1 H2 H3)).
Defined.

Lemma empty_value_getters_witness :
  load 1 (one_file "f" empty_value_input) "f" CFGParser0 =
    Some empty_value_model ∧
  _section_data empty_value_model !! "a" =
    Some (plain_section [("x", EmptyString)]) ∧
  values (plain_section [("x", EmptyString)]) !! "x" = Some EmptyString ∧
  get makeValueFromString_int empty_value_model "a" "x" 7%Z = Some 7%Z ∧
  getArray makeValueFromString_int empty_value_model "a" "x" = Some [] ∧
  hasKey empty_value_model "a" "x" = (true, empty_value_model).
Proof.
  assert (H1 : _section_data empty_value_model !! "a" =
               Some (plain_section [("x", EmptyString)])) by reflexivity.
  assert (H2 : values (plain_section [("x", EmptyString)]) !! "x" =
               Some EmptyString) by reflexivity.
  split; [by vm_compute|]. split; [exact H1|]. split; [exact H2|].
  exact (empty_value_getters makeValueFromString_int empty_value_model
           "a" "x" _ 7%Z H1 H2).
Defined.

(** ** The ignore-spaces flag *)

Lemma flag_msg m σ :
  ignore_current_spaces (msg m σ).2 = ignore_current_spaces σ.2.
Proof. done. Qed.

Lemma flag_action a σ :
  ignore_current_spaces (action a σ).2 = ignore_current_spaces σ.2.
Proof. done. Qed.

Lemma flag_PushInheritance σ :
  ignore_current_spaces (PushInheritance σ).2 = ignore_current_spaces σ.2.
Proof.
  destruct σ as [g p]. unfold PushInheritance.
  destruct (section_ptr p); [|done].
  destruct (negb _); [|done]. by destruct (bool_decide _).
Qed.

Lemma flag_PushAttribute σ :
  ignore_current_spaces (PushAttribute σ).2 = ignore_current_spaces σ.2.
Proof.
  destruct σ as [g p]. unfold PushAttribute.
  destruct (section_ptr p); [|done]. by destruct (negb _).
Qed.

Lemma flag_emplace_key σ :
  ignore_current_spaces (emplace_key σ).2 = ignore_current_spaces σ.2.
Proof.
  destruct σ as [g p]. unfold emplace_key.
  destruct (section_ptr p); [|done]. by destruct (_ ≫= _).
Qed.

Lemma flag_escape next σ :
  ignore_current_spaces (escape next σ).2 = ignore_current_spaces σ.2.
Proof.
  unfold escape. destruct next as [c|]; [|done].
  by repeat destruct (Ascii.eqb _ _).
Qed.

Lemma flag_close_section σ :
  ignore_current_spaces (close_section σ).2 = true.
Proof. destruct σ as [g p]. unfold close_section. by destruct (_ !! _). Qed.

Lemma flag_end_of_line σ : ignore_current_spaces (end_of_line σ).2 = true.
Proof. by destruct σ. Qed.

(** C6, as stated, fails: after the identifier character [k] at the start
    of a line the flag is still set, the space that follows is tolerated,
    and the line [k ey = v] binds the key [key] without a diagnostic. *)
Lemma flag_after_identifier_counterexample :
  ((λ σ, (ignore_current_spaces σ.2, parse_action σ.2)) <$>
     iteration no_include (Some "k"%char) (CFGParser0, Locals0)) =
    Some (true, KEY) ∧
  ((λ σ, (ignore_current_spaces σ.2, parse_action σ.2, messages σ.1)) <$>
     (iteration no_include (Some "k"%char) (CFGParser0, Locals0) ≫=
      iteration no_include (Some " "%char))) =
    Some (true, KEY, []) ∧
  load 1 (one_file "f" spaced_key_input) "f" CFGParser0 =
    Some spaced_key_model.
Proof. by vm_compute. Qed.

(** C6 (amended): a space or tab read in the states SECTION, INHERITANCE,
    ATTRIBUTE, KEY or VALUE is tolerated exactly when the ignore-spaces
    flag is set: with the flag set nothing changes, with the flag clear the
    state becomes ERROR and the diagnostic [Space in wrong place] is
    emitted.  The flag is set when [load] starts, after every newline and
    after a closing bracket read in state SECTION; it is cleared by an
    opening bracket read in state NEW_LINE and by nothing else. *)
Theorem ignore_spaces_flag
    (load_rec : string → CFGParser → option CFGParser)
    (character next : option ascii) (σ σ' : State) :
  switch load_rec character next σ = Some σ' →
  ignore_current_spaces Locals0 = true ∧
  ignore_current_spaces σ'.2 = flag_after character σ.2 ∧
  (label character = case_space → checks_spaces (parse_action σ.2) = true →
     σ' = if ignore_current_spaces σ.2 then σ
          else msg "Space in wrong place" (action ERROR σ)).
Proof.
  intros Hs. split; [done|]. unfold switch, flag_after in *.
  destruct σ as [g p]. cbn [snd fst] in *.
  destruct (label character) eqn:Hl, (parse_action p) eqn:Ha;
    try match type of Hs with
        | (if negb (ignore_current_spaces p) then _ else _) = _ =>
            destruct (ignore_current_spaces p) eqn:Hf; cbn [negb] in Hs
        | (_ ≫= _) = _ =>
            destruct (IncludeFile _ _ _) eqn:Hi; cbn in Hs; [|discriminate]
        end;
    simplify_eq; cbn [fst snd];
    rewrite ?flag_msg, ?flag_action, ?flag_PushInheritance,
      ?flag_PushAttribute, ?flag_emplace_key, ?flag_escape, ?flag_close_section,
      ?flag_end_of_line;
    (split; [repeat case_bool_decide; try done;
             try (exfalso; intuition congruence)|]);
    try done.
Qed.

Lemma ignore_spaces_flag_witness :
  let σ := (CFGParser0, set_ignore_current_spaces false
                          (set_parse_action SECTION Locals0)) in
  let σ' := msg "Space in wrong place" (action ERROR σ) in
  switch no_include (Some " "%char) None σ = Some σ' ∧
  ignore_current_spaces σ'.2 = flag_after (Some " "%char) σ.2 ∧
  σ' = msg "Space in wrong place" (action ERROR σ).
Proof.
  intros σ σ'.
  assert (Hs : switch no_include (Some " "%char) None σ = Some σ')
    by reflexivity.
  split; [exact Hs|].
  destruct (ignore_spaces_flag _ _ _ _ _ Hs) as (_ & H2 & H3).
  split; [exact H2 | exact (H3 eq_refl eq_refl)].
Defined.

(** ** Runs of the loop over parts of a line *)

(** The case label of a character is looked up by rewriting, not by
    unfolding the chain of comparisons. *)
Global Arguments label : simpl never.

Lemma loop_String load_rec (c : ascii) (rest : string) (σ : State) :
  loop load_rec (String c rest) σ =
  if reads_escape c σ then
    match rest with
    | EmptyString => next_pos <$> switch load_rec (Some c) None σ
    | String e rest' =>
        σ' ← next_pos <$> switch load_rec (Some c) (Some e) σ;
        loop load_rec rest' σ'
    end
  else σ' ← iteration load_rec (Some c) σ; loop load_rec rest σ'.
Proof. reflexivity. Qed.

Lemma loop_Empty load_rec (σ : State) :
  loop load_rec EmptyString σ = iteration load_rec None σ.
Proof. reflexivity. Qed.

(** The loop is unfolded by these two equations only. *)
Global Arguments loop : simpl never.

Ltac label_of H :=
  unfold ordinary, blank, comma in H; apply bool_decide_eq_true in H.

Ltac run_switch H :=
  unfold iteration, switch; cbn [fst snd parse_action]; rewrite H; cbn.

Ltac setters :=
  cbv beta iota delta
    [next_pos action value_append msg set_section set_inheritance
     set_attribute set_key set_value set_preprocessor_pair set_section_ptr
     set_parse_action set_line set_character_pos set_ignore_current_spaces
     fst snd section inheritance attribute key value preprocessor_pair
     section_ptr parse_action line character_pos ignore_current_spaces].

Ltac setters_in H :=
  cbv beta iota delta
    [next_pos action value_append msg set_section set_inheritance
     set_attribute set_key set_value set_preprocessor_pair set_section_ptr
     set_parse_action set_line set_character_pos set_ignore_current_spaces
     fst snd section inheritance attribute key value preprocessor_pair
     section_ptr parse_action line character_pos ignore_current_spaces]
    in H.

Ltac idle_locals p H :=
  destruct p; destruct H as (? & ? & ?); simpl in *; simplify_eq.

Section Runs.

Variable load_rec : string → CFGParser → option CFGParser.

(** The loop body for a character that is not a backslash. *)
Lemma loop_cons (c : ascii) (rest : string) (σ : State) :
  label (Some c) ≠ case_backslash →
  loop load_rec (String c rest) σ =
  iteration load_rec (Some c) σ ≫= loop load_rec rest.
Proof.
  intros Hc. rewrite loop_String. unfold reads_escape.
  rewrite bool_decide_eq_false_2; [done|]. by intros [? _].
Qed.

(** A run of characters, each of which keeps the object unchanged and
    keeps the locals inside [J]. *)
Lemma loop_run (P : ascii → bool) (J : Locals → Prop) (g : CFGParser) :
  (∀ c p, P c = true → J p →
     label (Some c) ≠ case_backslash ∧
     ∃ p', iteration load_rec (Some c) (g, p) = Some (g, p') ∧ J p') →
  ∀ s rest p, all_chars P s = true → J p →
    ∃ p', loop load_rec (s +:+ rest) (g, p) = loop load_rec rest (g, p') ∧
          J p'.
Proof.
  intros Hstep s rest. induction s as [|c s IH]; intros p Hs HJ.
  - exists p. by rewrite append_Empty.
  - cbn [all_chars] in Hs. apply andb_prop in Hs as [Hc Hs].
    destruct (Hstep c p Hc HJ) as (Hb & p1 & Hit & HJ1).
    destruct (IH p1 Hs HJ1) as (p' & Hl & HJ').
    exists p'. split; [|done].
    rewrite append_String, loop_cons, Hit by done. exact Hl.
Qed.

Lemma idle_blank (a : ParseAction) g c p :
  a ≠ STRING_VALUE → a ≠ PREPROCESSOR →
  blank c = true → idle a p →
  label (Some c) ≠ case_backslash ∧
  ∃ p', iteration load_rec (Some c) (g, p) = Some (g, p') ∧ idle a p'.
Proof.
  intros Ha1 Ha2 Hc Hp. label_of Hc. split; [congruence|].
  idle_locals p Hp. run_switch Hc.
  destruct a; try done; cbn; by eexists.
Qed.

Lemma idle_ordinary_new_line g c p :
  ordinary c = true → idle NEW_LINE p →
  label (Some c) ≠ case_backslash ∧
  ∃ p', iteration load_rec (Some c) (g, p) = Some (g, p') ∧ idle KEY p'.
Proof.
  intros Hc Hp. label_of Hc. split; [congruence|].
  idle_locals p Hp. run_switch Hc. by eexists.
Qed.

Lemma idle_ordinary (a : ParseAction) g c p :
  a ≠ NEW_LINE → a ≠ ERROR →
  ordinary c = true → idle a p →
  label (Some c) ≠ case_backslash ∧
  ∃ p', iteration load_rec (Some c) (g, p) = Some (g, p') ∧ idle a p'.
Proof.
  intros Ha1 Ha2 Hc Hp. label_of Hc. split; [congruence|].
  idle_locals p Hp. run_switch Hc.
  destruct a; try done; cbn; by eexists.
Qed.

Lemma idle_equals g c p :
  label (Some c) = case_equals → idle KEY p →
  ∃ p', iteration load_rec (Some c) (g, p) = Some (g, p') ∧ idle VALUE p'.
Proof.
  intros Hc Hp. idle_locals p Hp. run_switch Hc. by eexists.
Qed.

Lemma idle_value_char g c p :
  ordinary c || blank c || comma c = true → idle_value p →
  label (Some c) ≠ case_backslash ∧
  ∃ p', iteration load_rec (Some c) (g, p) = Some (g, p') ∧ idle_value p'.
Proof.
  intros Hc [Hp|Hp].
  - apply orb_prop in Hc as [Hc|Hc]; [apply orb_prop in Hc as [Hc|Hc]|].
    + destruct (idle_ordinary VALUE g c p) as (? & p' & ? & ?); try done.
      split; [done|]. exists p'. split; [done|by left].
    + destruct (idle_blank VALUE g c p) as (? & p' & ? & ?); try done.
      split; [done|]. exists p'. split; [done|by left].
    + label_of Hc. split; [congruence|]. idle_locals p Hp. run_switch Hc.
      eexists. split; [done|by right].
  - apply orb_prop in Hc as [Hc|Hc]; [apply orb_prop in Hc as [Hc|Hc]|].
    + destruct (idle_ordinary VALUE_ARRAY g c p) as (? & p' & ? & ?);
        try done.
      split; [done|]. exists p'. split; [done|by right].
    + destruct (idle_blank VALUE_ARRAY g c p) as (? & p' & ? & ?); try done.
      split; [done|]. exists p'. split; [done|by right].
    + label_of Hc. split; [congruence|]. idle_locals p Hp. run_switch Hc.
      eexists. split; [done|by right].
Qed.

(** The end of the line after a value: nothing is committed while no
    section is active. *)
Lemma idle_value_newline g c p :
  label (Some c) = case_newline → idle_value p →
  ∃ p', iteration load_rec (Some c) (g, p) = Some (g, p') ∧
        idle NEW_LINE p'.
Proof.
  intros Hc [Hp|Hp]; idle_locals p Hp; run_switch Hc; by eexists.
Qed.

Lemma idle_quote_open g c p :
  label (Some c) = case_quote → idle VALUE p →
  ∃ p', iteration load_rec (Some c) (g, p) = Some (g, p') ∧
        idle STRING_VALUE p'.
Proof.
  intros Hc Hp. idle_locals p Hp. run_switch Hc. by eexists.
Qed.

Lemma idle_quote_close g c p :
  label (Some c) = case_quote → idle STRING_VALUE p →
  ∃ p', iteration load_rec (Some c) (g, p) = Some (g, p') ∧
        idle VALUE p'.
Proof.
  intros Hc Hp. idle_locals p Hp. run_switch Hc. by eexists.
Qed.

(** Inside a quoted value every character but the backslash and the
    double quote keeps the state. *)
Lemma idle_string_char g c p :
  label (Some c) ≠ case_backslash → label (Some c) ≠ case_quote →
  idle STRING_VALUE p →
  ∃ p', iteration load_rec (Some c) (g, p) = Some (g, p') ∧
        idle STRING_VALUE p'.
Proof.
  intros Hb Hq Hp. idle_locals p Hp. unfold iteration, switch.
  cbn [fst snd parse_action].
  destruct (label (Some c)); try done; cbn; by eexists.
Qed.

Lemma idle_string_escape g c e p :
  label (Some c) = case_backslash → escape_char e = true →
  idle STRING_VALUE p →
  ∃ p', next_pos <$> switch load_rec (Some c) (Some e) (g, p) =
          Some (g, p') ∧
        idle STRING_VALUE p'.
Proof.
  intros Hc He Hp. idle_locals p Hp. unfold switch.
  cbn [fst snd parse_action]. rewrite Hc. cbn. unfold escape, escape_char in *.
  destruct (Ascii.eqb e BACKSLASH); [by eexists|].
  destruct (Ascii.eqb e "n"); [by eexists|].
  destruct (Ascii.eqb e dq); [by eexists|].
  destruct (Ascii.eqb e "'"); [by eexists|done].
Qed.

Lemma label_backslash c :
  label (Some c) = case_backslash → c = BACKSLASH.
Proof.
  unfold label.
  repeat match goal with
         | |- context [Ascii.eqb c ?x] =>
             destruct (Ascii.eqb_spec c x) as [->|?]; [done|]
         end; done.
Qed.

Lemma label_quote c : label (Some c) = case_quote → c = dq.
Proof.
  unfold label.
  repeat match goal with
         | |- context [Ascii.eqb c ?x] =>
             destruct (Ascii.eqb_spec c x) as [->|?]; [done|]
         end; done.
Qed.

(** The inside of a quoted value, with its escapes. *)
Lemma idle_string_body g (n : nat) : ∀ body rest p,
  (String.length body ≤ n)%nat → string_body body = true →
  idle STRING_VALUE p →
  ∃ p', loop load_rec (body +:+ rest) (g, p) = loop load_rec rest (g, p') ∧
        idle STRING_VALUE p'.
Proof.
  induction n as [|n IH]; intros body rest p Hn Hb Hp.
  { destruct body; [|simpl in Hn; lia]. exists p. by rewrite append_Empty. }
  destruct body as [|c body]; [exists p; by rewrite append_Empty|].
  cbn [string_body] in Hb. destruct (Ascii.eqb_spec c BACKSLASH) as [->|Hc].
  - destruct body as [|e body]; [done|].
    apply andb_prop in Hb as [He Hb].
    destruct (idle_string_escape g BACKSLASH e p) as (p1 & Hs & Hp1);
      [done..|].
    destruct (IH body rest p1) as (p' & Hl & Hp'); [simpl in *; lia|done..|].
    exists p'. split; [|done]. rewrite !append_String.
    rewrite loop_String. unfold reads_escape. rewrite bool_decide_eq_true_2.
    + rewrite Hs. exact Hl.
    + split; [done|]. by destruct Hp.
  - apply andb_prop in Hb as [Hq Hb].
    destruct (Ascii.eqb_spec c dq) as [->|Hq']; [done|].
    destruct (idle_string_char g c p) as (p1 & Hs & Hp1); [| |done|].
    { intros H. by apply label_backslash in H. }
    { intros H. by apply label_quote in H. }
    destruct (IH body rest p1) as (p' & Hl & Hp'); [simpl in *; lia|done..|].
    exists p'. split; [|done].
    rewrite append_String, loop_cons, Hs; [exact Hl|].
    intros H. by apply label_backslash in H.
Qed.

(** The left side of an assignment, from the start of a line. *)
Lemma idle_key_text g : ∀ k rest p,
  key_text k = true → idle NEW_LINE p →
  ∃ p', loop load_rec (k +:+ rest) (g, p) = loop load_rec rest (g, p') ∧
        idle KEY p'.
Proof.
  induction k as [|c k IH]; intros rest p Hk Hp; [done|].
  unfold key_text in Hk. cbn [all_chars] in Hk.
  apply andb_prop in Hk as [Hall Hnb]. apply andb_prop in Hall as [Hc Hall].
  rewrite append_String. apply orb_prop in Hc as [Hc|Hc].
  - destruct (idle_ordinary_new_line g c p) as (Hb & p1 & Hs & Hp1);
      [done..|].
    destruct (loop_run (λ c, ordinary c || blank c) (idle KEY) g) with
      (s := k) (rest := rest) (p := p1) as (p' & Hl & Hp'); [|done..|].
    { intros c' q Hc' Hq. apply orb_prop in Hc' as [Hc'|Hc'].
      - by apply idle_ordinary.
      - by apply idle_blank. }
    exists p'. split; [|done]. by rewrite loop_cons, Hs.
  - rewrite Hc in Hnb. cbn [andb] in Hnb.
    destruct (idle_blank NEW_LINE g c p) as (Hb & p1 & Hs & Hp1); [done..|].
    destruct (IH rest p1) as (p' & Hl & Hp'); [|done|].
    { unfold key_text. by rewrite Hall, Hnb. }
    exists p'. split; [|done]. by rewrite loop_cons, Hs.
Qed.

Lemma idle_blanks (a : ParseAction) g s rest p :
  a ≠ STRING_VALUE → a ≠ PREPROCESSOR →
  all_chars blank s = true → idle a p →
  ∃ p', loop load_rec (s +:+ rest) (g, p) = loop load_rec rest (g, p') ∧
        idle a p'.
Proof.
  intros Ha1 Ha2. apply (loop_run blank (idle a) g).
  intros c q Hc Hq. by apply idle_blank.
Qed.

Lemma label_equals : label (Some "="%char) = case_equals.
Proof. reflexivity. Qed.

Lemma label_LF : label (Some LF) = case_newline.
Proof. reflexivity. Qed.

Lemma label_dq : label (Some dq) = case_quote.
Proof. reflexivity. Qed.

(** An assignment line read while no section is active changes neither
    the object nor, apart from the scratch buffers and the position, the
    locals. *)
Lemma idle_assignment_line g l rest p :
  assignment_line l → no_section_line_start p →
  ∃ p', loop load_rec (l +:+ rest) (g, p) = loop load_rec rest (g, p') ∧
        no_section_line_start p'.
Proof.
  intros Hl Hp. change (idle NEW_LINE p) in Hp.
  destruct Hl as [k v Hk Hv|k b1 body b2 Hk Hb1 Hbody Hb2];
    rewrite ?append_assoc.
  - destruct (idle_key_text g k ("=" +:+ v +:+ String LF EmptyString +:+ rest)
                p Hk Hp) as (p1 & -> & Hp1).
    rewrite append_String, append_Empty, loop_cons by done.
    destruct (idle_equals g "=" p1 label_equals Hp1) as (p2 & -> & Hp2).
    cbn [mbind option_bind].
    destruct (loop_run (λ c, ordinary c || blank c || comma c) idle_value g)
      with (s := v) (rest := String LF EmptyString +:+ rest) (p := p2)
      as (p3 & -> & Hp3); [|done|by left|].
    { intros c q Hc Hq. by apply idle_value_char. }
    rewrite append_String, append_Empty, loop_cons by done.
    destruct (idle_value_newline g LF p3 label_LF Hp3) as (p4 & -> & Hp4).
    by exists p4.
  - destruct (idle_key_text g k
                ("=" +:+ b1 +:+ DQ +:+ body +:+ DQ +:+ b2 +:+
                 String LF EmptyString +:+ rest) p Hk Hp) as (p1 & -> & Hp1).
    rewrite append_String, append_Empty, loop_cons by done.
    destruct (idle_equals g "=" p1 label_equals Hp1) as (p2 & -> & Hp2).
    cbn [mbind option_bind].
    destruct (idle_blanks VALUE g b1
                (DQ +:+ body +:+ DQ +:+ b2 +:+ String LF EmptyString +:+ rest)
                p2) as (p3 & -> & Hp3); [done..|].
    unfold DQ at 1. rewrite append_String, append_Empty, loop_cons by done.
    destruct (idle_quote_open g dq p3 label_dq Hp3) as (p4 & -> & Hp4).
    cbn [mbind option_bind].
    destruct (idle_string_body g (String.length body) body
                (DQ +:+ b2 +:+ String LF EmptyString +:+ rest) p4)
      as (p5 & -> & Hp5); [done..|].
    unfold DQ at 1. rewrite append_String, append_Empty, loop_cons by done.
    destruct (idle_quote_close g dq p5 label_dq Hp5) as (p6 & -> & Hp6).
    cbn [mbind option_bind].
    destruct (idle_blanks VALUE g b2 (String LF EmptyString +:+ rest) p6)
      as (p7 & -> & Hp7); [done..|].
    rewrite append_String, append_Empty, loop_cons by done.
    destruct (idle_value_newline g LF p7 label_LF (or_introl Hp7))
      as (p8 & -> & Hp8).
    by exists p8.
Qed.

Lemma idle_assignment_lines g lines : ∀ rest p,
  Forall assignment_line lines → no_section_line_start p →
  ∃ p', loop load_rec (concat_lines lines +:+ rest) (g, p) =
          loop load_rec rest (g, p') ∧
        no_section_line_start p'.
Proof.
  induction lines as [|l lines IH]; intros rest p Hl Hp.
  - exists p. by rewrite append_Empty.
  - apply Forall_cons in Hl as [Hl Hls]. cbn [concat_lines].
    rewrite append_assoc.
    destruct (idle_assignment_line g l (concat_lines lines +:+ rest) p)
      as (p1 & -> & Hp1); [done..|].
    by apply IH.
Qed.

(** A name read in a state that accumulates it. *)
Lemma loop_accumulate g : ∀ s rest p,
  name_text s = true → accumulates (parse_action p) = true →
  ∃ pos, loop load_rec (s +:+ rest) (g, p) =
         loop load_rec rest (g, set_character_pos pos (accumulate s p)).
Proof.
  induction s as [|c s IH]; intros rest p Hs Ha.
  - exists (character_pos p). rewrite append_Empty. f_equal. f_equal.
    destruct p as [? ? ? ? ? ? ? a ? ? ?]. unfold accumulate.
    destruct a; cbn in *; by rewrite ?append_nil_r.
  - cbn [name_text all_chars] in Hs. apply andb_prop in Hs as [Hc Hs].
    label_of Hc. rewrite append_String, loop_cons by congruence.
    destruct p as [sec inh att k v pp ptr a ln pos fl]. cbn in Ha.
    run_switch Hc.
    destruct a; try done; cbn; setters;
      match goal with
      | |- ∃ _, loop _ _ (_, ?p1) = _ =>
          destruct (IH rest p1) as (pos' & ->); [done..|]
      end;
      exists pos'; unfold accumulate; setters;
      by rewrite push_back_append.
Qed.

Lemma label_open : label (Some "["%char) = case_open.
Proof. reflexivity. Qed.

Lemma label_close : label (Some "]"%char) = case_close.
Proof. reflexivity. Qed.

Lemma idle_colon g c p :
  label (Some c) = case_colon → idle SECTION p →
  ∃ p', iteration load_rec (Some c) (g, p) = Some (g, p') ∧
        idle INHERITANCE p'.
Proof.
  intros Hc Hp. idle_locals p Hp. run_switch Hc. by eexists.
Qed.

Lemma idle_header_equals (a : ParseAction) g c p :
  a = SECTION ∨ a = INHERITANCE →
  label (Some c) = case_equals → idle a p →
  ∃ p', iteration load_rec (Some c) (g, p) = Some (g, p') ∧
        idle ATTRIBUTE p'.
Proof.
  intros [-> | ->] Hc Hp; idle_locals p Hp; run_switch Hc; by eexists.
Qed.

Lemma idle_list_char (a : ParseAction) g c p :
  a = INHERITANCE ∨ a = ATTRIBUTE →
  ordinary c || blank c || comma c = true → idle a p →
  label (Some c) ≠ case_backslash ∧
  ∃ p', iteration load_rec (Some c) (g, p) = Some (g, p') ∧ idle a p'.
Proof.
  intros Ha Hc Hp.
  apply orb_prop in Hc as [Hc|Hc]; [apply orb_prop in Hc as [Hc|Hc]|].
  - apply idle_ordinary; [by destruct Ha as [-> | ->]..|done|done].
  - apply idle_blank; [by destruct Ha as [-> | ->]..|done|done].
  - label_of Hc. split; [congruence|].
    destruct Ha as [-> | ->]; idle_locals p Hp; run_switch Hc; by eexists.
Qed.

Lemma idle_header_newline (a : ParseAction) g c p :
  a = SECTION ∨ a = INHERITANCE ∨ a = ATTRIBUTE →
  label (Some c) = case_newline → idle a p →
  ∃ p', iteration load_rec (Some c) (g, p) = Some (g, p') ∧
        idle NEW_LINE p'.
Proof.
  intros [-> | [-> | ->]] Hc Hp; idle_locals p Hp; run_switch Hc;
    by eexists.
Qed.

Lemma idle_list_text (a : ParseAction) g s rest p :
  a = INHERITANCE ∨ a = ATTRIBUTE →
  list_text s = true → idle a p →
  ∃ p', loop load_rec (s +:+ rest) (g, p) = loop load_rec rest (g, p') ∧
        idle a p'.
Proof.
  intros Ha.
  apply (loop_run (λ c, ordinary c || blank c || comma c) (idle a) g).
  intros c q Hc Hq. by apply idle_list_char.
Qed.

Lemma label_colon : label (Some ":"%char) = case_colon.
Proof. reflexivity. Qed.

(** The rest of a header line while no section is active: nothing is
    pushed, and nothing is reported. *)
Lemma idle_header_tail g tail rest p :
  header_tail tail → idle SECTION p →
  ∃ p', loop load_rec (tail +:+ String LF rest) (g, p) =
          loop load_rec rest (g, p') ∧
        idle NEW_LINE p'.
Proof.
  intros Ht Hp.
  destruct Ht as [b Hb|b t Hb Ht|b t Hb Ht|b t1 t2 Hb Ht1 Ht2];
    rewrite ?append_assoc;
    match goal with
    | |- ∃ _, loop _ (b +:+ ?r) _ = _ ∧ _ =>
        destruct (idle_blanks SECTION g b r p) as (p1 & -> & Hp1); [done..|]
    end.
  - rewrite loop_cons by done.
    destruct (idle_header_newline SECTION g LF p1) as (p2 & -> & Hp2);
      [auto|done..|].
    by exists p2.
  - rewrite append_String, append_Empty, loop_cons by done.
    destruct (idle_colon g ":" p1 label_colon Hp1) as (p2 & -> & Hp2).
    cbn [mbind option_bind].
    destruct (idle_list_text INHERITANCE g t (String LF rest) p2)
      as (p3 & -> & Hp3); [auto|done..|].
    rewrite loop_cons by done.
    destruct (idle_header_newline INHERITANCE g LF p3) as (p4 & -> & Hp4);
      [auto|done..|].
    by exists p4.
  - rewrite append_String, append_Empty, loop_cons by done.
    destruct (idle_header_equals SECTION g "=" p1) as (p2 & -> & Hp2);
      [auto|done..|].
    cbn [mbind option_bind].
    destruct (idle_list_text ATTRIBUTE g t (String LF rest) p2)
      as (p3 & -> & Hp3); [auto|done..|].
    rewrite loop_cons by done.
    destruct (idle_header_newline ATTRIBUTE g LF p3) as (p4 & -> & Hp4);
      [auto|done..|].
    by exists p4.
  - rewrite append_String, append_Empty, loop_cons by done.
    destruct (idle_colon g ":" p1 label_colon Hp1) as (p2 & -> & Hp2).
    cbn [mbind option_bind].
    destruct (idle_list_text INHERITANCE g t1
                ("=" +:+ t2 +:+ String LF rest) p2)
      as (p3 & -> & Hp3); [auto|done..|].
    rewrite append_String, append_Empty, loop_cons by done.
    destruct (idle_header_equals INHERITANCE g "=" p3) as (p4 & -> & Hp4);
      [auto|done..|].
    cbn [mbind option_bind].
    destruct (idle_list_text ATTRIBUTE g t2 (String LF rest) p4)
      as (p5 & -> & Hp5); [auto|done..|].
    rewrite loop_cons by done.
    destruct (idle_header_newline ATTRIBUTE g LF p5) as (p6 & -> & Hp6);
      [auto|done..|].
    by exists p6.
Qed.

(** A header line that names an existing section: one diagnostic, and no
    section is active afterwards. *)
Lemma duplicate_header g name tail rest p :
  parse_action p = NEW_LINE → name_text name = true →
  is_Some (_section_data g !! name) → header_tail tail →
  ∃ pos p',
    loop load_rec ("[" +:+ name +:+ "]" +:+ tail +:+ String LF rest) (g, p) =
    loop load_rec rest
      (call_msg_functor (already_exist (line p) pos name) g, p') ∧
    no_section_line_start p'.
Proof.
  intros Ha Hname [s Hs] Htail.
  rewrite append_String, append_Empty, loop_cons by done.
  destruct p as [sec inh att k v pp ptr a ln pos fl]. cbn in Ha. subst a.
  run_switch label_open. setters.
  match goal with
  | |- ∃ _ _, loop _ _ (_, ?p1) = _ ∧ _ =>
      destruct (loop_accumulate g name ("]" +:+ tail +:+ String LF rest) p1)
        as (pos1 & ->); [done..|]
  end.
  unfold accumulate. setters. rewrite append_Empty.
  rewrite append_String, append_Empty, loop_cons by done.
  run_switch label_close. unfold close_section. setters. rewrite Hs. setters.
  unfold GetErrorLineString. setters.
  match goal with
  | |- ∃ _ _, loop _ _ (?g1, ?p1) = _ ∧ _ =>
      destruct (idle_header_tail g1 tail rest p1) as (p' & -> & Hp');
        [done|by repeat split|]
  end.
  by exists pos1, p'.
Qed.

End Runs.

(** ** A duplicate section, and an assignment while no section is active *)

(** C5: a section header that names a section already in the model, with
    or without lists of bases and attributes, and the assignment lines that
    follow it add exactly one diagnostic, the one for the duplicate, and
    leave the sections as they were: the first-seen record is not
    overwritten and the lines of the duplicate block have no effect.  On
    the input of scenario S2 there is one diagnostic and [getString] of
    [a], [x] is 1. *)
Theorem duplicate_section_block
    (load_rec : string → CFGParser → option CFGParser) (g : CFGParser)
    (p : Locals) (name tail : string) (lines : list string) (rest : string) :
  parse_action p = NEW_LINE → name_text name = true →
  is_Some (_section_data g !! name) → header_tail tail →
  Forall assignment_line lines →
  (∃ pos p',
     loop load_rec
       ("[" +:+ name +:+ "]" +:+ tail +:+
        String LF (concat_lines lines +:+ rest))
       (g, p) =
     loop load_rec rest
       (call_msg_functor (already_exist (line p) pos name) g, p') ∧
     no_section_line_start p' ∧
     _section_data (call_msg_functor (already_exist (line p) pos name) g) =
       _section_data g) ∧
  (load 1 (one_file "f" duplicate_section_input) "f" CFGParser0 =
     Some duplicate_section_model ∧
   length (messages duplicate_section_model) = 1 ∧
   getString duplicate_section_model "a" "x" EmptyString = "1").
Proof.
  intros Ha Hname Hdup Htail Hlines. split; [|by vm_compute].
  destruct (duplicate_header load_rec g name tail
              (concat_lines lines +:+ rest) p)
    as (pos & p1 & -> & Hp1); [done..|].
  destruct (idle_assignment_lines load_rec
              (call_msg_functor (already_exist (line p) pos name) g)
              lines rest p1) as (p' & -> & Hp'); [done..|].
  by exists pos, p'.
Qed.

(** C10: an assignment line read at the start of a line while no section
    is active, as it is before the first header ([Locals0]) and after a
    rejected duplicate header, leaves the object as it was: the model is
    unchanged and no diagnostic is emitted.  The insertion of the key at
    the equals sign and the commit of the value at the newline both do
    nothing to the object when the section pointer is null. *)
Theorem assignment_without_section
    (load_rec : string → CFGParser → option CFGParser) (g : CFGParser)
    (p : Locals) (l rest : string) :
  no_section_line_start p → assignment_line l →
  (∃ p', loop load_rec (l +:+ rest) (g, p) = loop load_rec rest (g, p') ∧
         no_section_line_start p') ∧
  emplace_key (g, p) = (g, p) ∧
  (commit_value (g, p)).1 = g ∧
  no_section_line_start Locals0.
Proof.
  intros Hp Hl. split; [by apply idle_assignment_line|].
  destruct Hp as (_ & Hptr & _). unfold emplace_key, commit_value.
  by rewrite Hptr.
Qed.

Lemma sample_assignment_line : assignment_line sample_assignment.
Proof. exact (bare_assignment "x " " 1" eq_refl eq_refl). Qed.

Lemma duplicate_section_block_witness :
  parse_action Locals0 = NEW_LINE ∧ name_text "a" = true ∧
  is_Some (_section_data empty_value_model !! "a") ∧
  header_tail (" " +:+ ":" +:+ " a") ∧
  Forall assignment_line [sample_assignment] ∧
  ∃ pos p',
    loop no_include
      ("[" +:+ "a" +:+ "]" +:+ (" " +:+ ":" +:+ " a") +:+
       String LF (concat_lines [sample_assignment] +:+ EmptyString))
      (empty_value_model, Locals0) =
    loop no_include EmptyString
      (call_msg_functor (already_exist 1 pos "a") empty_value_model, p') ∧
    no_section_line_start p'.
Proof.
  assert (H1 : parse_action Locals0 = NEW_LINE) by reflexivity.
  assert (H2 : name_text "a" = true) by reflexivity.
  assert (H3 : is_Some (_section_data empty_value_model !! "a"))
    by (eexists; reflexivity).
  assert (H4 : header_tail (" " +:+ ":" +:+ " a"))
    by (apply tail_bases; reflexivity).
  assert (H5 : Forall assignment_line [sample_assignment])
    by (constructor; [exact sample_assignment_line|constructor]).
  split_and!; [exact H1|exact H2|exact H3|exact H4|exact H5|].
  destruct (duplicate_section_block no_include empty_value_model Locals0
              "a" (" " +:+ ":" +:+ " a") [sample_assignment] EmptyString
              H1 H2 H3 H4 H5)
    as [(pos & p' & Hl & Hp & _) _].
  exists pos, p'. split; [exact Hl|exact Hp].
Defined.

Lemma assignment_without_section_witness :
  no_section_line_start Locals0 ∧ assignment_line sample_assignment ∧
  ∃ p', loop no_include (sample_assignment +:+ EmptyString)
          (CFGParser0, Locals0) =
        loop no_include EmptyString (CFGParser0, p') ∧
        no_section_line_start p'.
Proof.
  assert (H1 : no_section_line_start Locals0) by done.
  split; [exact H1|]. split; [exact sample_assignment_line|].
  exact (proj1 (assignment_without_section no_include CFGParser0 Locals0
                  sample_assignment EmptyString H1 sample_assignment_line)).
Defined.

(** ** Comments *)

(** C3, as stated, fails: with the comment after the value the newline
    commits nothing and [x] keeps the empty string that the equals sign
    gave it; with the comment deleted [x] is bound to 1. *)
Lemma comment_invisibility_counterexample :
  strip_comments in_text trailing_comment_input = trailing_comment_stripped ∧
  load 1 (one_file "f" trailing_comment_input) "f" CFGParser0 =
    Some trailing_comment_model ∧
  load 1 (one_file "f" trailing_comment_stripped) "f" CFGParser0 =
    Some trailing_comment_stripped_model ∧
  getString trailing_comment_model "s" "x" "none" = EmptyString ∧
  getString trailing_comment_stripped_model "s" "x" "none" = "1".
Proof. by vm_compute. Qed.

Section Comments.

Variable load_rec : string → CFGParser → option CFGParser.

Lemma loop_cons_action (c : ascii) (rest : string) (σ : State) :
  parse_action σ.2 ≠ STRING_VALUE →
  loop load_rec (String c rest) σ =
  iteration load_rec (Some c) σ ≫= loop load_rec rest.
Proof.
  intros Ha. rewrite loop_String. unfold reads_escape.
  rewrite bool_decide_eq_false_2; [done|]. by intros [_ ?].
Qed.

(** Inside a semicolon comment every character but the newline and the
    vertical bar only advances the position. *)
Lemma line_comment_run g : ∀ s rest p,
  line_comment_text s = true → parse_action p = COMMENT →
  ∃ pos, loop load_rec (s +:+ rest) (g, p) =
         loop load_rec rest (g, set_character_pos pos p).
Proof.
  induction s as [|c s IH]; intros rest p Hs Ha.
  - exists (character_pos p). rewrite append_Empty. by destruct p.
  - cbn [line_comment_text all_chars] in Hs.
    apply andb_prop in Hs as [Hc Hs]. apply andb_prop in Hc as [Hc1 Hc2].
    apply negb_true_iff, bool_decide_eq_false in Hc1, Hc2.
    rewrite append_String, loop_cons_action by (cbn; congruence).
    destruct p as [sec inh att k v pp ptr a ln pos fl]. cbn in Ha. subst a.
    unfold iteration, switch. cbn [fst snd parse_action].
    destruct (label (Some c)); try done; cbn; setters;
      match goal with
      | |- ∃ _, loop _ _ (_, ?p1) = _ =>
          destruct (IH rest p1) as (pos' & ->); [done..|]
      end; by exists pos'.
Qed.

Lemma label_semicolon : label (Some ";"%char) = case_comment_character.
Proof. reflexivity. Qed.

Lemma label_bar : label (Some "|"%char) = case_comment_multiline.
Proof. reflexivity. Qed.

(** A semicolon comment that starts in a neutral state, with its newline,
    leaves the state that the newline alone leaves. *)
Lemma line_comment_deleted g s rest p :
  comment_neutral (parse_action p) = true → line_comment_text s = true →
  loop load_rec (";" +:+ s +:+ String LF rest) (g, p) =
  loop load_rec (String LF rest) (g, p).
Proof.
  intros Ha Hs.
  rewrite append_String, append_Empty.
  rewrite (loop_cons load_rec ";") by done.
  rewrite (loop_cons load_rec LF) by done.
  destruct p as [sec inh att k v pp ptr a ln pos fl]. cbn in Ha.
  assert (iteration load_rec (Some ";"%char)
            (g, mkLocals sec inh att k v pp ptr a ln pos fl) =
          Some (g, mkLocals sec inh att k v pp ptr COMMENT ln (incr32 pos) fl))
    as ->.
  { run_switch label_semicolon. by destruct a. }
  cbn [mbind option_bind].
  destruct (line_comment_run g s (String LF rest)
              (mkLocals sec inh att k v pp ptr COMMENT ln (incr32 pos) fl))
    as (pos' & ->); [done..|].
  rewrite (loop_cons load_rec LF) by done. setters.
  f_equal. run_switch label_LF.
  by destruct a.
Qed.

(** Inside a block comment every character but the semicolon and the
    vertical bar changes the position only, and sets the ignore-spaces
    flag if it is a newline. *)
Lemma block_comment_run g : ∀ s rest p,
  block_comment_text s = true → parse_action p = MULTILINE_COMMENT →
  ∃ p', loop load_rec (s +:+ rest) (g, p) = loop load_rec rest (g, p') ∧
        set_ignore_current_spaces true (erase_pos p') =
        set_ignore_current_spaces true (erase_pos p) ∧
        (ignore_current_spaces p = true → ignore_current_spaces p' = true).
Proof.
  induction s as [|c s IH]; intros rest p Hs Ha.
  - exists p. by rewrite append_Empty.
  - cbn [block_comment_text all_chars] in Hs.
    apply andb_prop in Hs as [Hc Hs]. apply andb_prop in Hc as [Hc1 Hc2].
    apply negb_true_iff, bool_decide_eq_false in Hc1, Hc2.
    rewrite append_String, loop_cons_action by (cbn; congruence).
    destruct p as [sec inh att k v pp ptr a ln pos fl]. cbn in Ha. subst a.
    unfold iteration, switch. cbn [fst snd parse_action].
    destruct (label (Some c)); try done; cbn; unfold end_of_line; setters;
      cbn;
      match goal with
      | |- ∃ _, loop _ _ (_, ?p1) = _ ∧ _ =>
          destruct (IH rest p1) as (p' & -> & Hp' & Hf'); [done..|]
      end; exists p'; (split; [done|]); (split; [exact Hp'|]);
      intros Hfl; apply Hf'; done.
Qed.

(** *** The model does not depend on lines, positions and diagnostics *)

Global Arguments to_string : simpl never.
Global Arguments GetErrorLineString : simpl never.

Ltac same_erased H :=
  match type of H with
  | erase ?σ = erase ?σ' =>
      destruct σ as [[d f cf bp] [sec inh att k v pp ptr pa ln pos fl]];
      destruct σ' as [[d' f' cf' bp'] [sec' inh' att' k' v' pp' ptr' pa'
                                       ln' pos' fl']];
      unfold erase, erase_log, erase_pos in H; setters_in H;
      cbn [_section_data _msg_functor _current_file _base_path] in H;
      injection H; clear H; intros;
      repeat match goal with
             | Hx : mkLocals _ _ _ _ _ _ _ _ _ _ _ = _ |- _ =>
                 injection Hx; clear Hx; intros
             | Hx : mkCFGParser _ _ _ _ = _ |- _ =>
                 injection Hx; clear Hx; intros
             end;
      subst
  end.

Lemma respects_msg m : respects (msg m).
Proof. intros σ σ' H. same_erased H. reflexivity. Qed.

Lemma respects_action a : respects (action a).
Proof. intros σ σ' H. same_erased H. reflexivity. Qed.

Lemma respects_value_append c : respects (value_append c).
Proof. intros σ σ' H. same_erased H. reflexivity. Qed.

Lemma respects_next_pos : respects next_pos.
Proof. intros σ σ' H. same_erased H. reflexivity. Qed.

Lemma respects_end_of_line : respects end_of_line.
Proof.
  intros σ σ' H. same_erased H. unfold end_of_line.
  by destruct (bool_decide _).
Qed.

Lemma respects_escape next : respects (escape next).
Proof.
  intros σ σ' H. unfold escape. destruct next as [c|].
  - repeat (destruct (Ascii.eqb c _);
            [by apply respects_value_append|]).
    by apply respects_msg.
  - by apply respects_msg.
Qed.

Lemma respects_PushInheritance : respects PushInheritance.
Proof.
  intros σ σ' H. same_erased H. unfold PushInheritance.
  cbn [section_ptr inheritance _section_data].
  destruct ptr'; [|reflexivity].
  destruct (negb (empty inh')); [|reflexivity].
  by destruct (bool_decide _).
Qed.

Lemma respects_PushAttribute : respects PushAttribute.
Proof.
  intros σ σ' H. same_erased H. unfold PushAttribute.
  cbn [section_ptr attribute].
  destruct ptr'; [|reflexivity].
  by destruct (negb (empty att')).
Qed.

Lemma respects_commit_value : respects commit_value.
Proof.
  intros σ σ' H. same_erased H. unfold commit_value.
  cbn [section_ptr]. by destruct ptr'.
Qed.

Lemma respects_emplace_key : respects emplace_key.
Proof.
  intros σ σ' H. same_erased H. unfold emplace_key.
  cbn [section_ptr _section_data key]. destruct ptr'; [|reflexivity].
  by destruct (_ ≫= _).
Qed.

Lemma respects_close_section : respects close_section.
Proof.
  intros σ σ' H. same_erased H. unfold close_section.
  cbn [section _section_data]. by destruct (_ !! _).
Qed.

Ltac respects_step :=
  lazymatch goal with
  | |- erase (msg _ _) = _ => apply respects_msg
  | |- erase (action _ _) = _ => apply respects_action
  | |- erase (value_append _ _) = _ => apply respects_value_append
  | |- erase (end_of_line _) = _ => apply respects_end_of_line
  | |- erase (escape _ _) = _ => apply respects_escape
  | |- erase (PushInheritance _) = _ => apply respects_PushInheritance
  | |- erase (PushAttribute _) = _ => apply respects_PushAttribute
  | |- erase (commit_value _) = _ => apply respects_commit_value
  | |- erase (emplace_key _) = _ => apply respects_emplace_key
  | |- erase (close_section _) = _ => apply respects_close_section
  | |- _ => reflexivity
  end.

Lemma IncludeFile_blind path g g' :
  log_blind load_rec → erase_log g = erase_log g' →
  erase_log <$> IncludeFile load_rec path g =
  erase_log <$> IncludeFile load_rec path g'.
Proof.
  intros Hblind H. unfold IncludeFile.
  assert (_current_file g = _current_file g' ∧ _base_path g = _base_path g')
    as [-> ->].
  { destruct g, g'. by injection H as ? ? ?. }
  specialize (Hblind (_base_path g' +:+ path) g g' H).
  destruct (load_rec _ g) as [g1|], (load_rec _ g') as [g1'|];
    simplify_eq/=; [|done].
  destruct g1, g1'. by simplify_eq/=.
Qed.

Lemma switch_respects (character next : option ascii) (σ σ' : State) :
  log_blind load_rec → erase σ = erase σ' →
  erase <$> switch load_rec character next σ =
  erase <$> switch load_rec character next σ'.
Proof.
  intros Hblind H. same_erased H. unfold switch.
  cbn [fst snd parse_action ignore_current_spaces preprocessor_pair].
  destruct (label character), pa'; try reflexivity;
    try (destruct fl'; reflexivity);
    try lazymatch goal with
        | |- _ <$> Some _ = _ <$> Some _ =>
            cbn [fmap option_fmap option_map]; f_equal;
            repeat respects_step
        end.
  - by destruct (bool_decide _).
  - match goal with
    | |- context [IncludeFile _ ?path ?g1] =>
        match goal with
        | |- _ = _ <$> (IncludeFile _ _ ?g2 ≫= _) =>
            pose proof (IncludeFile_blind path g1 g2 Hblind eq_refl) as Hi
        end
    end.
    destruct (IncludeFile _ _ _) as [g1|], (IncludeFile _ _ _) as [g2|];
      simplify_eq/=; [|done].
    destruct g1, g2. by simplify_eq/=.
Qed.

Lemma step_respects (character next : option ascii) (σ σ' : State) :
  log_blind load_rec → erase σ = erase σ' →
  option_Forall2 (λ σ1 σ1', erase σ1 = erase σ1')
    (next_pos <$> switch load_rec character next σ)
    (next_pos <$> switch load_rec character next σ').
Proof.
  intros Hblind H.
  pose proof (switch_respects character next σ σ' Hblind H) as Hs.
  destruct (switch _ _ _ σ) as [σ1|], (switch _ _ _ σ') as [σ1'|];
    cbn [fmap option_fmap option_map] in *; try discriminate; constructor.
  apply respects_next_pos. congruence.
Qed.

Lemma reads_escape_respects c σ σ' :
  erase σ = erase σ' → reads_escape c σ = reads_escape c σ'.
Proof. intros H. same_erased H. reflexivity. Qed.

Lemma loop_respects (n : nat) : ∀ bytes σ σ',
  (String.length bytes ≤ n)%nat → log_blind load_rec → erase σ = erase σ' →
  erase <$> loop load_rec bytes σ = erase <$> loop load_rec bytes σ'.
Proof.
  induction n as [|n IH]; intros bytes σ σ' Hn Hblind H.
  { destruct bytes; [|simpl in Hn; lia]. rewrite !loop_Empty.
    unfold iteration.
    destruct (step_respects None None σ σ' Hblind H); simpl; congruence. }
  destruct bytes as [|c bytes].
  { rewrite !loop_Empty. unfold iteration.
    destruct (step_respects None None σ σ' Hblind H); simpl; congruence. }
  rewrite !loop_String, <- (reads_escape_respects c σ σ' H).
  destruct (reads_escape c σ).
  - destruct bytes as [|e bytes].
    + destruct (step_respects (Some c) None σ σ' Hblind H); simpl;
        congruence.
    + destruct (step_respects (Some c) (Some e) σ σ' Hblind H); simpl;
        [|done].
      apply IH; [simpl in Hn; lia|done..].
  - unfold iteration.
    destruct (step_respects (Some c) None σ σ' Hblind H); simpl; [|done].
    apply IH; [simpl in Hn; lia|done..].
Qed.

End Comments.

(** The loader itself does not look at the diagnostics. *)
Lemma load_blind (fs : Files) (depth : nat) : log_blind (load depth fs).
Proof.
  induction depth as [|depth IH]; intros path g g' H; [done|].
  cbn [load]. destruct (fs !! path) as [bytes|].
  - pose proof (loop_respects (load depth fs) (String.length bytes) bytes
                  (set_current_file path g, Locals0)
                  (set_current_file path g', Locals0)) as Hl.
    destruct g, g'. unfold erase_log in H.
    cbn [_section_data _current_file _base_path] in H.
    injection H; clear H; intros; subst.
    specialize (Hl (le_n _) IH eq_refl).
    destruct (loop _ _ (set_current_file _ _, _)) as [[g1 p1]|],
             (loop _ _ (set_current_file _ _, _)) as [[g2 p2]|];
      simplify_eq/=; [|done].
    unfold erase_log. congruence.
  - destruct g, g'. unfold erase_log in H.
    cbn [_section_data _current_file _base_path] in H.
    injection H; clear H; intros; by subst.
Qed.

Lemma erase_model (o o' : option State) :
  erase <$> o = erase <$> o' → model_of <$> o = model_of <$> o'.
Proof.
  intros H. destruct o as [[g p]|], o' as [[g' p']|]; simplify_eq/=; [|done].
  unfold model_of. simpl. congruence.
Qed.

(** A block comment that starts at the start of a line can be deleted
    without a change to the model. *)
Lemma block_comment_deleted load_rec g s rest p :
  log_blind load_rec →
  parse_action p = NEW_LINE → ignore_current_spaces p = true →
  block_comment_text s = true →
  erase <$> loop load_rec ("|" +:+ s +:+ "|" +:+ rest) (g, p) =
  erase <$> loop load_rec rest (g, p).
Proof.
  intros Hblind Ha Hf Hs.
  rewrite append_String, append_Empty, loop_cons by done.
  destruct p as [sec inh att k v pp ptr a ln pos fl]. cbn in Ha, Hf.
  subst a fl. run_switch label_bar. setters.
  match goal with
  | |- _ <$> loop _ _ (_, ?p1) = _ =>
      destruct (block_comment_run load_rec g s ("|" +:+ rest) p1)
        as (p' & -> & Hp' & Hf'); [done..|]
  end.
  rewrite append_String, append_Empty, loop_cons by done.
  destruct p' as [sec' inh' att' k' v' pp' ptr' a' ln' pos' fl'].
  cbn in Hf'. rewrite Hf' in * by done.
  unfold erase_pos in Hp'. setters_in Hp'.
  injection Hp' as -> -> -> -> -> -> -> ->.
  run_switch label_bar. setters.
  apply (loop_respects load_rec (String.length rest)); [done..|].
  reflexivity.
Qed.

(** A semicolon comment on a line of its own can be deleted together
    with its newline without a change to the model. *)
Lemma line_comment_line_deleted load_rec g s rest p :
  log_blind load_rec →
  parse_action p = NEW_LINE → ignore_current_spaces p = true →
  line_comment_text s = true →
  erase <$> loop load_rec (";" +:+ s +:+ String LF rest) (g, p) =
  erase <$> loop load_rec rest (g, p).
Proof.
  intros Hblind Ha Hf Hs.
  rewrite line_comment_deleted by (by rewrite ?Ha).
  rewrite loop_cons by done.
  destruct p as [sec inh att k v pp ptr a ln pos fl]. cbn in Ha, Hf.
  subst a fl. run_switch label_LF. unfold end_of_line. setters.
  cbn [bool_decide decide_rel].
  apply (loop_respects load_rec (String.length rest)); [done..|].
  reflexivity.
Qed.

(** C3 (amended): a semicolon comment that holds no vertical bar and
    starts in state NEW_LINE, SECTION, COMMENT, PREPROCESSOR or INCLUDE (on
    a line of its own, or after a bare header) can be deleted up to its
    newline: the parser reaches the same state, diagnostics included; when
    it starts at the start of a line it can be deleted with its newline,
    and the parser ends with the same model.  A block comment between two
    vertical bars that holds no semicolon and starts at the start of a line
    (state NEW_LINE, ignore-spaces flag set) can be deleted: the parser
    ends with the same model.  This holds for the loader itself, whose
    model does not depend on the diagnostics, lines and positions. *)
Theorem comment_deletion
    (load_rec : string → CFGParser → option CFGParser) (g : CFGParser)
    (p : Locals) (s rest : string) :
  (comment_neutral (parse_action p) = true → line_comment_text s = true →
     loop load_rec (";" +:+ s +:+ String LF rest) (g, p) =
     loop load_rec (String LF rest) (g, p)) ∧
  (log_blind load_rec → parse_action p = NEW_LINE →
   ignore_current_spaces p = true → line_comment_text s = true →
     model_of <$> loop load_rec (";" +:+ s +:+ String LF rest) (g, p) =
     model_of <$> loop load_rec rest (g, p)) ∧
  (log_blind load_rec → parse_action p = NEW_LINE →
   ignore_current_spaces p = true → block_comment_text s = true →
     model_of <$> loop load_rec ("|" +:+ s +:+ "|" +:+ rest) (g, p) =
     model_of <$> loop load_rec rest (g, p)) ∧
  (∀ depth fs, log_blind (load depth fs)).
Proof.
  split_and!.
  - apply line_comment_deleted.
  - intros. by apply erase_model, line_comment_line_deleted.
  - intros. by apply erase_model, block_comment_deleted.
  - intros. apply load_blind.
Qed.

Lemma comment_deletion_witness :
  comment_neutral (parse_action Locals0) = true ∧
  line_comment_text " a comment" = true ∧
  block_comment_text " a comment" = true ∧
  loop (load 0 ∅) (";" +:+ " a comment" +:+ String LF "[s]")
    (CFGParser0, Locals0) =
  loop (load 0 ∅) (String LF "[s]") (CFGParser0, Locals0) ∧
  model_of <$> loop (load 0 ∅) (";" +:+ " a comment" +:+ String LF "[s]")
                 (CFGParser0, Locals0) =
  model_of <$> loop (load 0 ∅) "[s]" (CFGParser0, Locals0) ∧
  model_of <$> loop (load 0 ∅) ("|" +:+ " a comment" +:+ "|" +:+ "[s]")
                 (CFGParser0, Locals0) =
  model_of <$> loop (load 0 ∅) "[s]" (CFGParser0, Locals0).
Proof.
  destruct (comment_deletion (load 0 ∅) CFGParser0 Locals0 " a comment" "[s]")
    as (H1 & H2 & H3 & H4).
  split_and!; [reflexivity..| | |].
  - apply H1; reflexivity.
  - apply H2; [apply H4|reflexivity..].
  - apply H3; [apply H4|reflexivity..].
Defined.

(** ** Save followed by load *)

(** C4, as stated, fails: the value [a b], read from a quoted string, has
    no comma, newline or double quote, yet it is written bare and read back
    without its space.  The model has one section and one key, so the
    order of the enumerations plays no part. *)
Lemma round_trip_space_counterexample :
  load 1 (one_file "f" spaced_value_input) "f" CFGParser0 =
    Some spaced_value_model ∧
  getString spaced_value_model "s" "k" EmptyString = "a b" ∧
  ((λ g, getString g "s" "k" EmptyString) <$>
     load 1 (save map_to_list map_to_list "out" spaced_value_model ∅)
       "out" CFGParser0) = Some "ab".
Proof. by vm_compute. Qed.

Ltac step_with L :=
  rewrite ?append_String, ?append_Empty; rewrite loop_cons by done;
  unfold iteration, switch; cbn [fst snd parse_action]; rewrite L;
  cbn [fmap option_fmap option_map mbind option_bind negb
       ignore_current_spaces to_char];
  setters.

Global Arguments incr32 : simpl never.

Lemma label_space : label (Some " "%char) = case_space.
Proof. reflexivity. Qed.

Lemma label_comma : label (Some ","%char) = case_comma.
Proof. reflexivity. Qed.

Lemma through_ptr_insert name f S m g :
  through_ptr name f (with_data (<[name := S]> m) g) =
  with_data (<[name := f S]> m) g.
Proof.
  unfold through_ptr, with_data, set_section_data.
  cbn [_section_data _msg_functor _current_file _base_path].
  by rewrite alter_insert_eq.
Qed.

(** The end of a line in a state that does not survive a newline. *)
Lemma end_of_line_reset g p :
  parse_action p ≠ STRING_VALUE → parse_action p ≠ MULTILINE_COMMENT →
  end_of_line (g, p) =
  (g, set_ignore_current_spaces true
        (set_line (incr32 (line p))
           (set_character_pos 0 (set_parse_action NEW_LINE p)))).
Proof.
  intros H1 H2. unfold end_of_line. by rewrite bool_decide_eq_true_2.
Qed.

Lemma emplace_key_fresh g m name S p :
  section_ptr p = Some name → values S !! key p = None →
  emplace_key (with_data (<[name := S]> m) g, p) =
  (with_data (<[name := try_emplace_value (key p) S]> m) g, p).
Proof.
  intros Hptr Hfresh. unfold emplace_key. rewrite Hptr, through_ptr_insert.
  unfold with_data at 1, set_section_data at 1. cbn [_section_data].
  rewrite lookup_insert_eq. cbn [mbind option_bind]. by rewrite Hfresh.
Qed.

Lemma commit_value_insert g m name S p :
  section_ptr p = Some name →
  commit_value (with_data (<[name := S]> m) g, p) =
  (with_data (<[name := assign_value (key p) (value p) S]> m) g,
   set_value EmptyString (set_key EmptyString p)).
Proof.
  intros Hptr. unfold commit_value. by rewrite Hptr, through_ptr_insert.
Qed.

Lemma assign_after_emplace k v S :
  assign_value k v (try_emplace_value k S) =
  set_values (<[k := v]> (values S)) S.
Proof.
  unfold assign_value, try_emplace_value, set_values.
  cbn [values inheritances attributes]. f_equal.
  destruct (values S !! k); [done|]. by rewrite insert_insert_eq.
Qed.

Section RoundTrip.

Variable load_rec : string → CFGParser → option CFGParser.

(** A bare value read in state VALUE or VALUE_ARRAY is appended to the
    value buffer as it stands. *)
Lemma value_run g sec inh att k pp ptr ln fl : ∀ s rest v a pos,
  value_text s = true → a = VALUE ∨ a = VALUE_ARRAY →
  ∃ a' pos',
    (a' = VALUE ∨ a' = VALUE_ARRAY) ∧
    loop load_rec (s +:+ rest)
      (g, mkLocals sec inh att k v pp ptr a ln pos fl) =
    loop load_rec rest
      (g, mkLocals sec inh att k (v +:+ s) pp ptr a' ln pos' fl).
Proof.
  induction s as [|c s IH]; intros rest v a pos Hs Ha.
  - exists a, pos. split; [done|]. by rewrite append_Empty, append_nil_r.
  - cbn [value_text all_chars] in Hs. apply andb_prop in Hs as [Hc Hs].
    apply orb_prop in Hc as [Hc|Hc]; label_of Hc;
      rewrite append_String, loop_cons by congruence;
      unfold iteration, switch; cbn [fst snd parse_action]; rewrite Hc;
      destruct Ha as [-> | ->];
      cbn [fmap option_fmap option_map mbind option_bind to_char];
      setters;
      match goal with
      | |- ∃ _ _, _ ∧ loop _ _ (_, mkLocals _ _ _ _ ?v' _ _ ?a' _ ?pos' _) = _ =>
          destruct (IH rest v' a' pos') as (a'' & pos'' & Ha'' & ->);
            [done|auto|]
      end;
      exists a'', pos''; (split; [done|]); by rewrite push_back_append.
Qed.

(** A name read into the scratch buffer of its state. *)
Lemma name_run g sec inh att k v pp ptr a ln fl s rest pos :
  name_text s = true → accumulates a = true →
  ∃ pos',
    loop load_rec (s +:+ rest)
      (g, mkLocals sec inh att k v pp ptr a ln pos fl) =
    loop load_rec rest
      (g, set_character_pos pos'
            (accumulate s (mkLocals sec inh att k v pp ptr a ln pos fl))).
Proof. intros Hs Ha. by apply loop_accumulate. Qed.

(** A key read from the start of a line. *)
Lemma key_run g sec inh att v pp ptr ln fl s rest pos :
  nonempty_name s = true →
  ∃ pos',
    loop load_rec (s +:+ rest)
      (g, mkLocals sec inh att EmptyString v pp ptr NEW_LINE ln pos fl) =
    loop load_rec rest
      (g, mkLocals sec inh att s v pp ptr KEY ln pos' fl).
Proof.
  intros Hs. apply andb_prop in Hs as [Hs Hne].
  destruct s as [|c s]; [done|].
  cbn [name_text all_chars] in Hs. apply andb_prop in Hs as [Hc Hs].
  label_of Hc. rewrite append_String, loop_cons by congruence.
  unfold iteration, switch. cbn [fst snd parse_action]. rewrite Hc.
  cbn [fmap option_fmap option_map mbind option_bind to_char]. setters.
  match goal with
  | |- ∃ _, loop _ _ (_, mkLocals _ _ _ ?k' _ _ _ _ _ ?pos' _) = _ =>
      destruct (name_run g sec inh att k' v pp ptr KEY ln fl s rest pos')
        as (pos'' & ->); [done..|]
  end.
  exists pos''. unfold accumulate. setters.
  rewrite push_back_append, append_Empty. reflexivity.
Qed.

(** An assignment line of the serializer, read inside the section
    [name]: the key is new, and the section record gets the binding. *)
Lemma pair_line g m name S k v rest p :
  line_start name p → canonical_pair (k, v) = true →
  values S !! k = None →
  ∃ p',
    loop load_rec (k +:+ " = " +:+ v +:+ String LF rest)
      (with_data (<[name := S]> m) g, p) =
    loop load_rec rest
      (with_data (<[name := set_values (<[k := v]> (values S)) S]> m) g, p')
    ∧ line_start name p' ∧ section p' = section p.
Proof.
  intros Hp Hkv Hfresh. apply andb_prop in Hkv as [Hk Hv]. cbn in Hk, Hv.
  destruct p as [sec inh att k0 v0 pp ptr a ln pos fl].
  destruct Hp as (? & ? & ? & ? & ? & ? & ?). cbn in *. subst.
  destruct (key_run (with_data (<[name := S]> m) g) sec EmptyString
              EmptyString EmptyString pp (Some name) ln true k
              (" = " +:+ v +:+ String LF rest) pos) as (pos1 & ->); [done|].
  step_with label_space. step_with label_equals.
  rewrite emplace_key_fresh by (try reflexivity; exact Hfresh). cbn [key].
  step_with label_space.
  match goal with
  | |- ∃ _, loop _ _ (?g1, mkLocals _ _ _ _ _ _ _ _ _ ?pos' _) = _ ∧ _ =>
      destruct (value_run g1 sec EmptyString EmptyString k pp (Some name)
                  ln true v (String LF rest) EmptyString VALUE pos')
        as (a' & pos2 & Ha' & ->); [done|auto|]
  end.
  rewrite append_Empty.
  rewrite loop_cons by done. unfold iteration, switch.
  cbn [fst snd parse_action]. rewrite label_LF.
  eexists. split; [|split].
  - destruct Ha' as [-> | ->];
      cbn [fmap option_fmap option_map mbind option_bind];
      rewrite commit_value_insert by reflexivity; cbn [key value];
      rewrite assign_after_emplace;
      rewrite end_of_line_reset by discriminate; setters; reflexivity.
  - repeat split.
  - reflexivity.
Qed.

Lemma set_values_id S : set_values (values S) S = S.
Proof. by destruct S. Qed.

(** The assignment lines of a section, as the serializer writes them. *)
Lemma values_lines g m name : ∀ kvs S rest p,
  line_start name p → forallb canonical_pair kvs = true →
  NoDup kvs.*1 → (∀ k, k ∈ kvs.*1 → values S !! k = None) →
  ∃ p',
    loop load_rec (save_values kvs +:+ rest)
      (with_data (<[name := S]> m) g, p) =
    loop load_rec rest
      (with_data (<[name := set_values (insert_all kvs (values S)) S]> m) g,
       p')
    ∧ line_start name p' ∧ section p' = section p.
Proof.
  induction kvs as [|[k v] kvs IH]; intros S rest p Hp Hc Hnd Hfresh.
  - exists p. cbn [save_values insert_all foldl].
    rewrite append_Empty. unfold insert_all. cbn [foldl].
    rewrite set_values_id. split; [reflexivity|]. by split.
  - cbn [forallb] in Hc. apply andb_prop in Hc as [Hkv Hc].
    cbn [fmap list_fmap fst] in Hnd. apply NoDup_cons in Hnd as [Hk Hnd].
    cbn [save_values]. rewrite !append_assoc, (append_String LF).
    destruct (pair_line g m name S k v (save_values kvs +:+ rest) p)
      as (p1 & -> & Hp1 & Hsec1); [done|done|..].
    { apply Hfresh. cbn. left. }
    destruct (IH (set_values (<[k := v]> (values S)) S) rest p1)
      as (p' & -> & Hp' & Hsec'); [done..| |].
    { intros k' Hk'. cbn [values set_values].
      rewrite lookup_insert_ne; [|by intros ->].
      apply Hfresh. cbn. by right. }
    exists p'. split; [reflexivity|]. split; [done|congruence].
Qed.

Lemma known_base_lookup m n b S :
  known_base m n b → is_Some (<[n := S]> m !! b).
Proof.
  intros [-> | Hb]; [rewrite lookup_insert_eq; by eexists|].
  destruct (decide (n = b)) as [-> | Hne];
    [rewrite lookup_insert_eq; by eexists|by rewrite lookup_insert_ne].
Qed.

Lemma PushInheritance_known g m n S p :
  section_ptr p = Some n → nonempty_name (inheritance p) = true →
  known_base m n (inheritance p) →
  PushInheritance (with_data (<[n := S]> m) g, p) =
  (with_data (<[n := add_inheritances [inheritance p] S]> m) g,
   set_inheritance EmptyString p).
Proof.
  intros Hptr Hne Hb. unfold PushInheritance. rewrite Hptr.
  apply andb_prop in Hne as [_ ->].
  change (_section_data (with_data (<[n:=S]> m) g)) with (<[n:=S]> m).
  rewrite bool_decide_eq_true_2 by by apply known_base_lookup.
  cbn [fst snd negb]. rewrite through_ptr_insert. reflexivity.
Qed.

Lemma PushAttribute_some g m n S p :
  section_ptr p = Some n → nonempty_name (attribute p) = true →
  PushAttribute (with_data (<[n := S]> m) g, p) =
  (with_data (<[n := add_attributes [attribute p] S]> m) g,
   set_attribute EmptyString p).
Proof.
  intros Hptr Hne. unfold PushAttribute. rewrite Hptr.
  apply andb_prop in Hne as [_ ->]. by rewrite through_ptr_insert.
Qed.

Lemma add_inheritances_nil S : add_inheritances [] S = S.
Proof. destruct S. unfold add_inheritances. cbn. by rewrite app_nil_r. Qed.

Lemma add_attributes_nil S : add_attributes [] S = S.
Proof. destruct S. unfold add_attributes. cbn. by rewrite app_nil_r. Qed.

Lemma add_inheritances_cons x l S :
  add_inheritances l (add_inheritances [x] S) = add_inheritances (x :: l) S.
Proof. unfold add_inheritances. cbn. by rewrite <- app_assoc. Qed.

Lemma add_attributes_cons x l S :
  add_attributes l (add_attributes [x] S) = add_attributes (x :: l) S.
Proof. unfold add_attributes. cbn. by rewrite <- app_assoc. Qed.

(** The names of the bases after the first: every comma pushes the name
    read before it, and the last name is left in the buffer. *)
Lemma inheritance_names g m n sec att k v pp ln : ∀ l x S rest pos,
  nonempty_name x = true → known_base m n x →
  Forall (λ b, nonempty_name b = true ∧ known_base m n b) l →
  ∃ pushed x' pos',
    loop load_rec (save_names false l +:+ rest)
      (with_data (<[n := S]> m) g,
       mkLocals sec x att k v pp (Some n) INHERITANCE ln pos true) =
    loop load_rec rest
      (with_data (<[n := add_inheritances pushed S]> m) g,
       mkLocals sec x' att k v pp (Some n) INHERITANCE ln pos' true) ∧
    pushed ++ [x'] = x :: l ∧ nonempty_name x' = true ∧ known_base m n x'.
Proof.
  induction l as [|y l IH]; intros x S rest pos Hx Hbx Hl.
  - exists [], x, pos. cbn [save_names].
    rewrite append_Empty, add_inheritances_nil. by repeat split.
  - apply Forall_cons in Hl as [[Hy Hby] Hl]. cbn [save_names].
    rewrite !append_assoc. step_with label_comma.
    rewrite PushInheritance_known by done. cbn [inheritance]. setters.
    step_with label_space.
    match goal with
    | |- ∃ _ _ _, loop _ _ (?g1, mkLocals _ _ _ _ _ _ _ _ _ ?pos1 _) = _ ∧ _ =>
        destruct (name_run g1 sec EmptyString att k v pp (Some n) INHERITANCE
                    ln true y (save_names false l +:+ rest) pos1)
          as (pos2 & ->); [by apply andb_prop in Hy as [? _]|done|]
    end.
    unfold accumulate. setters. rewrite append_Empty.
    destruct (IH y (add_inheritances [x] S) rest pos2)
      as (pushed & x' & pos' & -> & Hp & Hx' & Hbx'); [done..|].
    exists (x :: pushed), x', pos'. rewrite add_inheritances_cons.
    split; [reflexivity|]. split; [|done]. cbn. by rewrite Hp.
Qed.

(** The same for the attributes. *)
Lemma attribute_names g m n sec inh k v pp ln : ∀ l x S rest pos,
  nonempty_name x = true → Forall (λ b, nonempty_name b = true) l →
  ∃ pushed x' pos',
    loop load_rec (save_names false l +:+ rest)
      (with_data (<[n := S]> m) g,
       mkLocals sec inh x k v pp (Some n) ATTRIBUTE ln pos true) =
    loop load_rec rest
      (with_data (<[n := add_attributes pushed S]> m) g,
       mkLocals sec inh x' k v pp (Some n) ATTRIBUTE ln pos' true) ∧
    pushed ++ [x'] = x :: l ∧ nonempty_name x' = true.
Proof.
  induction l as [|y l IH]; intros x S rest pos Hx Hl.
  - exists [], x, pos. cbn [save_names].
    rewrite append_Empty, add_attributes_nil. by repeat split.
  - apply Forall_cons in Hl as [Hy Hl]. cbn [save_names].
    rewrite !append_assoc. step_with label_comma.
    rewrite PushAttribute_some by done. cbn [attribute]. setters.
    step_with label_space.
    match goal with
    | |- ∃ _ _ _, loop _ _ (?g1, mkLocals _ _ _ _ _ _ _ _ _ ?pos1 _) = _ ∧ _ =>
        destruct (name_run g1 sec inh EmptyString k v pp (Some n) ATTRIBUTE
                    ln true y (save_names false l +:+ rest) pos1)
          as (pos2 & ->); [by apply andb_prop in Hy as [? _]|done|]
    end.
    unfold accumulate. setters. rewrite append_Empty.
    destruct (IH y (add_attributes [x] S) rest pos2)
      as (pushed & x' & pos' & -> & Hp & Hx'); [done..|].
    exists (x :: pushed), x', pos'. rewrite add_attributes_cons.
    split; [reflexivity|]. split; [|done]. cbn. by rewrite Hp.
Qed.

Lemma close_section_fresh g m p :
  m !! section p = None →
  close_section (with_data m g, p) =
  (with_data (<[section p := Section0]> m) g,
   set_ignore_current_spaces true (set_section_ptr (Some (section p)) p)).
Proof.
  intros Hfresh. unfold close_section.
  change (_section_data (with_data m g)) with m. by rewrite Hfresh.
Qed.

(** The bracketed name of a section that is not in the model yet. *)
Lemma header_name g m n rest p :
  parse_action p = NEW_LINE → inheritance p = EmptyString →
  attribute p = EmptyString → key p = EmptyString → value p = EmptyString →
  name_text n = true → m !! n = None →
  ∃ p',
    loop load_rec ("[" +:+ n +:+ "]" +:+ rest) (with_data m g, p) =
    loop load_rec rest (with_data (<[n := Section0]> m) g, p') ∧
    in_header n SECTION EmptyString p'.
Proof.
  intros Ha Hi Hat Hk Hv Hn Hfresh.
  destruct p as [sec inh att k v pp ptr a ln pos fl]. cbn in *. subst.
  step_with label_open.
  match goal with
  | |- ∃ _, loop _ _ (?g1, mkLocals _ _ _ _ _ _ _ _ _ ?pos1 _) = _ ∧ _ =>
      destruct (name_run g1 EmptyString EmptyString EmptyString EmptyString
                  EmptyString pp None SECTION ln false n (String "]" rest)
                  pos1)
        as (pos2 & ->); [done..|]
  end.
  unfold accumulate. setters. rewrite append_Empty.
  step_with label_close. rewrite close_section_fresh by exact Hfresh.
  setters. eexists. split; [reflexivity|]. by repeat split.
Qed.

(** The list of the bases in a header. *)
Lemma header_inheritances g m n S l rest p :
  in_header n SECTION EmptyString p →
  Forall (λ b, nonempty_name b = true ∧ known_base m n b) l →
  ∃ a x pushed p',
    loop load_rec (save_list " : " l +:+ rest)
      (with_data (<[n := S]> m) g, p) =
    loop load_rec rest (with_data (<[n := add_inheritances pushed S]> m) g, p')
    ∧ in_header n a x p' ∧
    ((a = SECTION ∧ x = EmptyString ∧ pushed = [] ∧ l = []) ∨
     (a = INHERITANCE ∧ nonempty_name x = true ∧ known_base m n x ∧
      pushed ++ [x] = l)).
Proof.
  intros Hp Hl.
  destruct p as [sec inh att k v pp ptr a ln pos fl].
  destruct Hp as (? & ? & ? & ? & ? & ? & ? & ?). cbn in *. subst.
  destruct l as [|x l].
  - eexists SECTION, EmptyString, [], _. cbn [save_list].
    rewrite append_Empty, add_inheritances_nil.
    split; [reflexivity|]. split; [by repeat split|]. by left.
  - apply Forall_cons in Hl as [[Hx Hbx] Hl]. cbn [save_list save_names].
    rewrite !append_assoc, append_Empty.
    step_with label_space. step_with label_colon. step_with label_space.
    match goal with
    | |- ∃ _ _ _ _, loop _ _ (?g1, mkLocals _ _ _ _ _ _ _ _ _ ?pos1 _) = _ ∧ _ =>
        destruct (name_run g1 n EmptyString EmptyString EmptyString
                    EmptyString pp (Some n) INHERITANCE ln true x
                    (save_names false l +:+ rest) pos1)
          as (pos2 & ->); [by apply andb_prop in Hx as [? _]|done|]
    end.
    unfold accumulate. setters. rewrite append_Empty.
    destruct (inheritance_names g m n n EmptyString EmptyString EmptyString
                pp ln l x S rest pos2)
      as (pushed & x' & pos' & -> & Hpushed & Hx' & Hbx'); [done..|].
    eexists INHERITANCE, x', pushed, _.
    split; [reflexivity|]. split; [by repeat split|]. by right.
Qed.

Lemma add_attributes_app l1 l2 S :
  add_attributes l2 (add_attributes l1 S) = add_attributes (l1 ++ l2) S.
Proof. unfold add_attributes. cbn. by rewrite <- app_assoc. Qed.

Lemma add_inheritances_app l1 l2 S :
  add_inheritances l2 (add_inheritances l1 S) = add_inheritances (l1 ++ l2) S.
Proof. unfold add_inheritances. cbn. by rewrite <- app_assoc. Qed.

Lemma pending_nonempty x : nonempty_name x = true → pending x = [x].
Proof.
  intros H. apply andb_prop in H as [_ H]. unfold pending.
  by destruct (empty x).
Qed.

(** The list of the attributes and the end of the header line. *)
Lemma header_end g m n S l a x rest p :
  in_header n a x p →
  (a = SECTION ∧ x = EmptyString) ∨
  (a = INHERITANCE ∧ nonempty_name x = true ∧ known_base m n x) →
  Forall (λ b, nonempty_name b = true) l →
  ∃ p',
    loop load_rec (save_list " = " l +:+ String LF rest)
      (with_data (<[n := S]> m) g, p) =
    loop load_rec rest
      (with_data
         (<[n := add_attributes l (add_inheritances (pending x) S)]> m) g,
       p') ∧
    line_start n p' ∧ section p' = n.
Proof.
  intros Hp Hax Hl.
  destruct p as [sec inh att k v pp ptr a0 ln pos fl].
  destruct Hp as (? & ? & ? & ? & ? & ? & ? & ?). cbn in *. subst.
  destruct l as [|y l].
  - cbn [save_list]. rewrite append_Empty, add_attributes_nil.
    destruct Hax as [[-> ->] | (-> & Hx & Hbx)].
    + step_with label_LF. rewrite end_of_line_reset by discriminate.
      setters. cbn [pending empty]. rewrite add_inheritances_nil.
      eexists. split; [reflexivity|]. by repeat split.
    + step_with label_LF. rewrite PushInheritance_known by done.
      rewrite end_of_line_reset by discriminate. setters.
      rewrite pending_nonempty by done.
      eexists. split; [reflexivity|]. by repeat split.
  - apply Forall_cons in Hl as [Hy Hl]. cbn [save_list save_names].
    rewrite !append_assoc, append_Empty.
    assert (∃ pos1,
      loop load_rec
        (" = " +:+ y +:+ save_names false l +:+ String LF rest)
        (with_data (<[n := S]> m) g,
         mkLocals n x EmptyString EmptyString EmptyString pp (Some n) a ln
           pos true) =
      loop load_rec (y +:+ save_names false l +:+ String LF rest)
        (with_data (<[n := add_inheritances (pending x) S]> m) g,
         mkLocals n EmptyString EmptyString EmptyString EmptyString pp
           (Some n) ATTRIBUTE ln pos1 true)) as (pos1 & ->).
    { destruct Hax as [[-> ->] | (-> & Hx & Hbx)].
      - step_with label_space. step_with label_equals.
        step_with label_space. cbn [pending empty].
        rewrite add_inheritances_nil. by eexists.
      - step_with label_space. step_with label_equals.
        rewrite PushInheritance_known by done. setters.
        step_with label_space. rewrite pending_nonempty by done.
        by eexists. }
    match goal with
    | |- ∃ _, loop _ _ (?g1, _) = _ ∧ _ =>
        destruct (name_run g1 n EmptyString EmptyString EmptyString
                    EmptyString pp (Some n) ATTRIBUTE ln true y
                    (save_names false l +:+ String LF rest) pos1)
          as (pos2 & ->); [by apply andb_prop in Hy as [? _]|done|]
    end.
    unfold accumulate. setters. rewrite append_Empty.
    destruct (attribute_names g m n n EmptyString EmptyString EmptyString
                pp ln l y (add_inheritances (pending x) S)
                (String LF rest) pos2)
      as (pushed & x' & pos' & -> & Hpushed & Hx'); [done..|].
    step_with label_LF. rewrite PushAttribute_some by done.
    rewrite end_of_line_reset by discriminate. setters.
    rewrite add_attributes_app, Hpushed.
    eexists. split; [reflexivity|]. by repeat split.
Qed.

End RoundTrip.

(** The assignments of an enumeration of a map, made in order to the empty
    map, give the map back. *)
Lemma insert_all_snoc {V} (l : list (string * V)) x m :
  insert_all (l ++ [x]) m = <[x.1 := x.2]> (insert_all l m).
Proof. unfold insert_all. by rewrite foldl_app. Qed.

Lemma insert_all_list_to_map {V} (l : list (string * V)) :
  insert_all l ∅ = list_to_map (reverse l).
Proof.
  induction l as [|x l IH] using rev_ind; [done|].
  rewrite insert_all_snoc, IH, reverse_snoc. by destruct x.
Qed.

Lemma insert_all_enumeration {V} (l : list (string * V)) (M : gmap string V) :
  l ≡ₚ map_to_list M → insert_all l ∅ = M.
Proof.
  intros Hl. rewrite insert_all_list_to_map.
  rewrite <- (list_to_map_to_list M). apply list_to_map_proper.
  - rewrite reverse_Permutation, Hl. apply NoDup_fst_map_to_list.
  - by rewrite reverse_Permutation.
Qed.

Lemma enumeration_NoDup {V} (l : list (string * V)) (M : gmap string V) :
  l ≡ₚ map_to_list M → NoDup l.*1.
Proof. intros ->. apply NoDup_fst_map_to_list. Qed.

Lemma bases_first_known seen m : ∀ l,
  bases_first seen l = true → (∀ b, b ∈ seen → is_Some (m !! b)) →
  bases_known m l.
Proof.
  intros l. revert seen m.
  induction l as [|x l IH]; intros seen m Hl Hseen; [done|].
  cbn [bases_first] in Hl. apply andb_prop in Hl as [Hx Hl]. split.
  - apply Forall_forall. intros b Hb.
    rewrite forallb_forall in Hx. specialize (Hx b).
    rewrite <- list_elem_of_In in Hx. specialize (Hx Hb).
    apply bool_decide_eq_true in Hx. apply elem_of_cons in Hx as [-> | Hx].
    + by left.
    + right. by apply Hseen.
  - apply (IH (x.1 :: seen)); [done|]. intros b Hb.
    apply elem_of_cons in Hb as [-> | Hb].
    + rewrite lookup_insert_eq. by eexists.
    + destruct (decide (x.1 = b)) as [-> | Hne].
      * rewrite lookup_insert_eq. by eexists.
      * rewrite lookup_insert_ne by done. by apply Hseen.
Qed.

Section Serialized.

Variable load_rec : string → CFGParser → option CFGParser.
Variable value_order : gmap string string → list (string * string).

Lemma save_section_text n S :
  save_section value_order (n, S) =
  "[" +:+ n +:+ "]" +:+ save_list " : " (inheritances S) +:+
  save_list " = " (attributes S) +:+
  String LF (save_values (value_order (values S)) +:+ String LF EmptyString).
Proof.
  unfold save_section, save_list. cbn [fst snd].
  by destruct (inheritances S), (attributes S).
Qed.

(** One section of a serialized file, read back. *)
Lemma section_text g m n S rest p :
  between_sections p → name_text n = true → m !! n = None →
  canonical_section (value_order (values S)) S = true →
  Forall (known_base m n) (inheritances S) →
  value_order (values S) ≡ₚ map_to_list (values S) →
  ∃ p',
    loop load_rec (save_section value_order (n, S) +:+ rest)
      (with_data m g, p) =
    loop load_rec rest (with_data (<[n := S]> m) g, p') ∧
    between_sections p'.
Proof.
  intros (Ha & Hi & Hat & Hk & Hv) Hn Hfresh Hc Hb Hperm.
  apply andb_prop in Hc as [Hc Hcv]. apply andb_prop in Hc as [Hci Hca].
  rewrite forallb_forall in Hci, Hca.
  assert (Forall (λ b, nonempty_name b = true ∧ known_base m n b)
            (inheritances S)) as HI.
  { apply Forall_forall. intros b Hin. split.
    - apply Hci. by apply list_elem_of_In.
    - rewrite Forall_forall in Hb. by apply Hb. }
  assert (Forall (λ b, nonempty_name b = true) (attributes S)) as HA.
  { apply Forall_forall. intros b Hin. apply Hca. by apply list_elem_of_In. }
  rewrite save_section_text, !append_assoc, (append_String LF).
  destruct (header_name load_rec g m n
              (save_list " : " (inheritances S) +:+
               save_list " = " (attributes S) +:+
               String LF ((save_values (value_order (values S)) +:+
                           String LF EmptyString) +:+ rest)) p)
    as (p1 & -> & Hp1); [done..|].
  destruct (header_inheritances load_rec g m n Section0 (inheritances S)
              (save_list " = " (attributes S) +:+
               String LF ((save_values (value_order (values S)) +:+
                           String LF EmptyString) +:+ rest)) p1)
    as (a & x & pushed & p2 & -> & Hp2 & Hcase); [done..|].
  destruct (header_end load_rec g m n (add_inheritances pushed Section0)
              (attributes S) a x
              ((save_values (value_order (values S)) +:+
                String LF EmptyString) +:+ rest) p2)
    as (p3 & -> & Hp3 & Hsec3); [done| |done|].
  { destruct Hcase as [(-> & -> & _ & _) | (-> & ? & ? & _)]; auto. }
  rewrite add_inheritances_app.
  assert (pushed ++ pending x = inheritances S) as ->.
  { destruct Hcase as [(_ & -> & -> & ->) | (_ & Hx & _ & <-)]; [done|].
    by rewrite pending_nonempty. }
  rewrite append_assoc.
  destruct (values_lines load_rec g m n (value_order (values S))
              (add_attributes (attributes S)
                 (add_inheritances (inheritances S) Section0))
              (String LF EmptyString +:+ rest) p3)
    as (p4 & -> & Hp4 & Hsec4); [done|done|..].
  { by eapply enumeration_NoDup. }
  { intros k _. apply lookup_empty. }
  change (values (add_attributes (attributes S)
                    (add_inheritances (inheritances S) Section0)))
    with (∅ : gmap string string).
  rewrite (insert_all_enumeration _ (values S)) by done.
  assert (set_values (values S)
            (add_attributes (attributes S)
               (add_inheritances (inheritances S) Section0)) = S) as ->.
  { by destruct S. }
  destruct p4 as [sec4 inh4 att4 k4 v4 pp4 ptr4 a4 ln4 pos4 fl4].
  destruct Hp4 as (? & ? & ? & ? & ? & ? & ?). cbn in *. subst.
  step_with label_LF. rewrite end_of_line_reset by discriminate. setters.
  eexists. split; [reflexivity|]. by repeat split.
Qed.

(** The sections of a serialized file, read back in their order. *)
Lemma sections_text g : ∀ l m rest p,
  between_sections p →
  forallb (λ x, name_text x.1 &&
                canonical_section (value_order (values x.2)) x.2) l = true →
  Forall (λ x, value_order (values x.2) ≡ₚ map_to_list (values x.2)) l →
  NoDup l.*1 → (∀ n, n ∈ l.*1 → m !! n = None) →
  bases_known m l →
  ∃ p',
    loop load_rec (save_sections value_order l +:+ rest) (with_data m g, p) =
    loop load_rec rest (with_data (insert_all l m) g, p') ∧
    between_sections p'.
Proof.
  induction l as [|[n S] l IH]; intros m rest p Hp Hc Hperm Hnd Hfresh Hb.
  - exists p. cbn [save_sections]. by rewrite append_Empty.
  - cbn [forallb fst snd] in Hc. apply andb_prop in Hc as [Hx Hc].
    apply andb_prop in Hx as [Hn HS].
    apply Forall_cons in Hperm as [HpS Hperm].
    cbn [fmap list_fmap fst] in Hnd. apply NoDup_cons in Hnd as [Hnl Hnd].
    destruct Hb as [HbS Hb]. cbn [fst snd] in *.
    cbn [save_sections]. rewrite append_assoc.
    destruct (section_text g m n S (save_sections value_order l +:+ rest) p)
      as (p1 & -> & Hp1);
      [done|done|apply Hfresh; cbn; left|done|done|done|].
    destruct (IH (<[n := S]> m) rest p1) as (p' & -> & Hp');
      [done|done|done|done| |done|].
    { intros n' Hn'. rewrite lookup_insert_ne; [|by intros ->].
      apply Hfresh. cbn. by right. }
    exists p'. split; [reflexivity|done].
Qed.

End Serialized.

Lemma label_eof : label None = case_default.
Proof. reflexivity. Qed.

Lemma with_data_empty g : _section_data g = ∅ → with_data ∅ g = g.
Proof. destruct g. cbn. by intros ->. Qed.

(** C4 (amended): let the model be canonical in the order in which it is
    serialized: section names, base names, attributes and keys consist of
    characters without a case label of their own, base names, attributes
    and keys are not empty, values consist of such characters and commas,
    and every section comes after the bases it names (or names itself).
    Then [save] followed by [load] of the written file into a parser
    without sections yields that parser with the file as its current file
    and the sections of the model as its sections: the same section names,
    inheritance lists, attribute lists and value maps, and no
    diagnostic. *)
Theorem save_load_round_trip
    (section_order : gmap string Section → list (string * Section))
    (value_order : gmap string string → list (string * string))
    (g g0 : CFGParser) (fs : Files) (file_path : string) (depth : nat) :
  section_order (_section_data g) ≡ₚ map_to_list (_section_data g) →
  (∀ V, value_order V ≡ₚ map_to_list V) →
  canonical value_order (section_order (_section_data g)) = true →
  _section_data g0 = ∅ →
  load (S depth) (save section_order value_order file_path g fs) file_path g0
  = Some (with_data (_section_data g) (set_current_file file_path g0)).
Proof.
  intros Hso Hvo Hc Hempty. apply andb_prop in Hc as [Hc Hb].
  cbn [load]. unfold save. rewrite lookup_insert_eq. unfold save_bytes.
  set (fs' := <[file_path := _]> fs).
  rewrite <- (with_data_empty (set_current_file file_path g0)) at 1
    by (by destruct g0).
  rewrite <- (append_nil_r (save_sections _ _)).
  destruct (sections_text (load depth fs') value_order
              (set_current_file file_path g0)
              (section_order (_section_data g)) ∅ EmptyString Locals0)
    as (p' & -> & Hp'); [by repeat split|done| | | | |].
  - apply Forall_forall. intros x _. apply Hvo.
  - by eapply enumeration_NoDup.
  - intros n _. apply lookup_empty.
  - apply (bases_first_known []); [done|]. intros b Hb'.
    by apply elem_of_nil in Hb'.
  - rewrite (insert_all_enumeration _ (_section_data g)) by done.
    rewrite loop_Empty.
    destruct p' as [sec inh att k v pp ptr a ln pos fl].
    destruct Hp' as (? & _). cbn in *. subst.
    unfold iteration, switch. cbn [fst snd parse_action].
    rewrite label_eof. reflexivity.
Qed.

Lemma save_load_round_trip_witness :
  map_to_list (_section_data derived_model) ≡ₚ
    map_to_list (_section_data derived_model) ∧
  canonical map_to_list (map_to_list (_section_data derived_model)) = true ∧
  _section_data CFGParser0 = ∅ ∧
  load 1 (save map_to_list map_to_list "out" derived_model ∅) "out" CFGParser0
  = Some (with_data (_section_data derived_model)
            (set_current_file "out" CFGParser0)).
Proof.
  assert (H1 : map_to_list (_section_data derived_model) ≡ₚ
               map_to_list (_section_data derived_model)) by reflexivity.
  assert (H2 : canonical map_to_list
                 (map_to_list (_section_data derived_model)) = true)
    by (vm_compute; reflexivity).
  assert (H3 : _section_data CFGParser0 = ∅) by reflexivity.
  split; [exact H1|]. split; [exact H2|]. split; [exact H3|].
  exact (save_load_round_trip map_to_list map_to_list derived_model
           CFGParser0 ∅ "out" 0 H1 (λ V, reflexivity _) H2 H3).
Defined.

(** * Further properties of the code *)

(** ** What [load] leaves as it is *)

Ltac open_state σ :=
  destruct σ as [g [sec inh att k v pp ptr pa ln pos fl]].

Section Effects.

Variable load_rec : string → CFGParser → option CFGParser.

Lemma effect_msg m σ : effect load_rec (view σ) (view (msg m σ)).
Proof. destruct σ as [g p]. apply effect_message. Qed.

Lemma effect_PushInheritance σ :
  effect load_rec (view σ) (view (PushInheritance σ)).
Proof.
  open_state σ. unfold PushInheritance, view. cbn [section_ptr inheritance].
  destruct ptr as [ptr|]; [|constructor].
  destruct (negb _); [|constructor].
  destruct (bool_decide _); constructor.
Qed.

Lemma effect_PushAttribute σ :
  effect load_rec (view σ) (view (PushAttribute σ)).
Proof.
  open_state σ. unfold PushAttribute, view. cbn [section_ptr attribute].
  destruct ptr as [ptr|]; [|constructor].
  destruct (negb _); constructor.
Qed.

Lemma effect_commit_value σ :
  effect load_rec (view σ) (view (commit_value σ)).
Proof.
  open_state σ. unfold commit_value, view. cbn [section_ptr].
  destruct ptr; constructor.
Qed.

Lemma effect_emplace_key σ :
  effect load_rec (view σ) (view (emplace_key σ)).
Proof.
  open_state σ. unfold emplace_key, view. cbn [section_ptr key].
  destruct ptr as [ptr|]; [|constructor].
  destruct (_ ≫= _); [|constructor].
  eapply effect_then; [apply effect_write|apply effect_message].
Qed.

Lemma effect_close_section σ :
  effect load_rec (view σ) (view (close_section σ)).
Proof.
  open_state σ. unfold close_section, view. cbn [section].
  destruct (_section_data g !! sec) eqn:Hs.
  - constructor.
  - by apply effect_emplace.
Qed.

Lemma view_end_of_line σ : view (end_of_line σ) = view σ.
Proof.
  open_state σ. unfold end_of_line, view.
  by destruct (bool_decide _).
Qed.

Lemma effect_escape next σ : effect load_rec (view σ) (view (escape next σ)).
Proof.
  destruct σ as [g p]. unfold escape.
  destruct next as [c|]; [|apply effect_msg].
  repeat (destruct (Ascii.eqb _ _); [constructor|]). apply effect_msg.
Qed.

Lemma view_action a σ : view (action a σ) = view σ.
Proof. by open_state σ. Qed.

Lemma view_value_append c σ : view (value_append c σ) = view σ.
Proof. by open_state σ. Qed.

Lemma view_next_pos σ : view (next_pos σ) = view σ.
Proof. by open_state σ. Qed.

Ltac effect_step :=
  lazymatch goal with
  | |- effect _ _ (view (msg _ _)) =>
      eapply effect_then; [|apply effect_msg]
  | |- effect _ _ (view (PushInheritance _)) =>
      eapply effect_then; [|apply effect_PushInheritance]
  | |- effect _ _ (view (PushAttribute _)) =>
      eapply effect_then; [|apply effect_PushAttribute]
  | |- effect _ _ (view (commit_value _)) =>
      eapply effect_then; [|apply effect_commit_value]
  | |- effect _ _ (view (emplace_key _)) =>
      eapply effect_then; [|apply effect_emplace_key]
  | |- effect _ _ (view (close_section _)) =>
      eapply effect_then; [|apply effect_close_section]
  | |- effect _ _ (view (escape _ _)) =>
      eapply effect_then; [|apply effect_escape]
  | |- effect _ _ (view (action _ _)) => rewrite view_action
  | |- effect _ _ (view (value_append _ _)) => rewrite view_value_append
  | |- effect _ _ (view (end_of_line _)) => rewrite view_end_of_line
  | |- _ => first [apply effect_none | apply effect_reset]
  end.

Lemma Some_eq {A : Type} (x y : A) : Some x = Some y → y = x.
Proof. congruence. Qed.

(** Every run of the body of [switch] is one of the listed changes. *)
Lemma switch_effect (character next : option ascii) (σ σ' : State) :
  switch load_rec character next σ = Some σ' →
  effect load_rec (view σ) (view σ').
Proof.
  open_state σ. unfold switch.
  cbn [fst snd parse_action ignore_current_spaces preprocessor_pair].
  destruct (label character), pa;
    try (intros ->%Some_eq; repeat effect_step; fail);
    try (destruct fl; intros ->%Some_eq; repeat effect_step; fail).
  - destruct (bool_decide _); intros ->%Some_eq; repeat effect_step.
  - destruct (IncludeFile _ _ _) as [g1|] eqn:Hi; [|done].
    intros ->%Some_eq. by eapply effect_include.
Qed.

(** A run of the loop is a sequence of the listed changes. *)
Lemma loop_effect (n : nat) : ∀ bytes σ σ',
  (String.length bytes ≤ n)%nat →
  loop load_rec bytes σ = Some σ' → effect load_rec (view σ) (view σ').
Proof.
  assert (Hstep : ∀ character next σ σ',
    next_pos <$> switch load_rec character next σ = Some σ' →
    effect load_rec (view σ) (view σ')).
  { intros character next σ σ' H.
    destruct (switch _ _ _ _) as [σ1|] eqn:Hs; [|done].
    injection H as <-. rewrite view_next_pos. by eapply switch_effect. }
  induction n as [|n IH]; intros bytes σ σ' Hn.
  { destruct bytes; [|simpl in Hn; lia]. rewrite loop_Empty. apply Hstep. }
  destruct bytes as [|c bytes]; [rewrite loop_Empty; apply Hstep|].
  rewrite loop_String. simpl in Hn.
  destruct (reads_escape c σ).
  - destruct bytes as [|e bytes]; [apply Hstep|].
    destruct (next_pos <$> switch _ _ _ _) as [σ1|] eqn:Hs; [|done].
    cbn [mbind option_bind]. intros H.
    eapply effect_then; [by eapply Hstep|].
    eapply IH; [|done]. simpl in Hn. lia.
  - unfold iteration.
    destruct (next_pos <$> switch _ _ _ _) as [σ1|] eqn:Hs; [|done].
    cbn [mbind option_bind]. intros H.
    eapply effect_then; [by eapply Hstep|].
    eapply IH; [|done]. lia.
Qed.

Lemma IncludeFile_Some path g g' :
  IncludeFile load_rec path g = Some g' →
  ∃ g1, load_rec (_base_path g +:+ path) g = Some g1 ∧
        g' = set_current_file (_current_file g) g1.
Proof.
  unfold IncludeFile. destruct (load_rec _ _) as [g1|]; [|done].
  intros ->%Some_eq. by exists g1.
Qed.

Lemma effect_kept m0 v v' :
  (∀ path g g', load_rec path g = Some g' →
     _section_data g ⊆ _section_data g') →
  effect load_rec v v' → kept m0 v → kept m0 v'.
Proof.
  intros Hrec. induction 1 as [v|m g ptr|n f g|g ptr|n g ptr Hn|
                               path g g' ptr Hi|v1 v2 v3 _ IH1 _ IH2];
    [| | | | | |intros Hk; exact (IH2 (IH1 Hk))];
    unfold kept; cbn [fst snd]; intros [Hsub Hptr]; try done.
  - split; [|done]. unfold through_ptr, set_section_data. cbn.
    apply map_subseteq_spec. intros i x Hi.
    destruct (decide (n = i)) as [->|Hne].
    + rewrite (Hptr i eq_refl) in Hi. done.
    + rewrite lookup_alter_ne by done.
      by eapply lookup_weaken.
  - assert (Hfresh : m0 !! n = None).
    { destruct (m0 !! n) as [x|] eqn:Hx; [|done].
      by rewrite (lookup_weaken _ _ _ _ Hx Hsub) in Hn. }
    split; [|congruence]. unfold set_section_data. cbn.
    by apply insert_subseteq_r.
  - apply IncludeFile_Some in Hi as (g1 & Hl & ->). split; [|done].
    cbn. etrans; [exact Hsub|]. by eapply Hrec.
Qed.

Lemma effect_base_path v v' :
  (∀ path g g', load_rec path g = Some g' → _base_path g' = _base_path g) →
  effect load_rec v v' → _base_path v'.1 = _base_path v.1.
Proof.
  intros Hrec. induction 1 as [v|m g ptr|n f g|g ptr|n g ptr Hn|
                               path g g' ptr Hi|v1 v2 v3 _ IH1 _ IH2];
    cbn [fst snd]; try done.
  - apply IncludeFile_Some in Hi as (g1 & Hl & ->). cbn. by eapply Hrec.
  - congruence.
Qed.

Lemma effect_current_file v v' :
  effect load_rec v v' → _current_file v'.1 = _current_file v.1.
Proof.
  induction 1 as [v|m g ptr|n f g|g ptr|n g ptr Hn|
                  path g g' ptr Hi|v1 v2 v3 _ IH1 _ IH2];
    cbn [fst snd]; try done.
  - by apply IncludeFile_Some in Hi as (g1 & Hl & ->).
  - congruence.
Qed.

Lemma log_extends_refl g : log_extends g g.
Proof.
  unfold log_extends. destruct (_msg_functor g) as [log|]; [|done].
  exists []. by rewrite app_nil_r.
Qed.

Lemma log_extends_trans g1 g2 g3 :
  log_extends g1 g2 → log_extends g2 g3 → log_extends g1 g3.
Proof.
  unfold log_extends. destruct (_msg_functor g1) as [log|].
  - intros [more ->] [more' ->]. exists (more ++ more').
    by rewrite app_assoc.
  - by intros ->.
Qed.

Lemma effect_log v v' :
  (∀ path g g', load_rec path g = Some g' → log_extends g g') →
  effect load_rec v v' → log_extends v.1 v'.1.
Proof.
  intros Hrec. induction 1 as [v|m g ptr|n f g|g ptr|n g ptr Hn|
                               path g g' ptr Hi|v1 v2 v3 _ IH1 _ IH2];
    cbn [fst snd]; try apply log_extends_refl.
  - unfold log_extends. cbn. destruct (_msg_functor g); [|done].
    by eexists.
  - apply (log_extends_refl g).
  - apply (log_extends_refl g).
  - apply IncludeFile_Some in Hi as (g1 & Hl & ->).
    specialize (Hrec _ _ _ Hl). unfold log_extends in *. by cbn.
  - by eapply log_extends_trans.
Qed.

End Effects.

(** What a call of [load] that returns has done to the object. *)
Lemma load_effect (depth : nat) (fs : Files) (file_path : string)
    (g g' : CFGParser) :
  load depth fs file_path g = Some g' →
  (∃ bytes ptr,
     fs !! file_path = Some bytes ∧
     effect (load (pred depth) fs)
       (set_current_file file_path g, None) (g', ptr)) ∨
  (fs !! file_path = None ∧
   g' = call_msg_functor (cannot_open file_path)
          (set_current_file file_path g)).
Proof.
  destruct depth as [|depth]; [done|]. cbn [load pred].
  destruct (fs !! file_path) as [bytes|]; [|intros ->%Some_eq; by right].
  destruct (loop _ _ _) as [[g1 p1]|] eqn:Hl; [|done].
  intros ->%Some_eq. left. exists bytes, (section_ptr p1). split; [done|].
  by apply (loop_effect _ (String.length bytes)) in Hl.
Qed.

Lemma load_keeps (fs : Files) (depth : nat) : ∀ file_path g g',
  load depth fs file_path g = Some g' →
  _section_data g ⊆ _section_data g'.
Proof.
  induction depth as [|depth IH]; [done|]. intros file_path g g' H.
  apply load_effect in H as [(bytes & ptr & _ & He)|[_ ->]]; [|done].
  cbn [pred] in He.
  by destruct (effect_kept _ (_section_data g) _ _ IH He).
Qed.

Lemma load_base_path (fs : Files) (depth : nat) : ∀ file_path g g',
  load depth fs file_path g = Some g' → _base_path g' = _base_path g.
Proof.
  induction depth as [|depth IH]; [done|]. intros file_path g g' H.
  apply load_effect in H as [(bytes & ptr & _ & He)|[_ ->]]; [|done].
  cbn [pred] in He. by apply effect_base_path in He.
Qed.

Lemma load_current_file (fs : Files) (depth : nat) file_path g g' :
  load depth fs file_path g = Some g' → _current_file g' = file_path.
Proof.
  intros H.
  apply load_effect in H as [(bytes & ptr & _ & He)|[_ ->]]; [|done].
  by apply effect_current_file in He.
Qed.

Lemma load_log (fs : Files) (depth : nat) : ∀ file_path g g',
  load depth fs file_path g = Some g' → log_extends g g'.
Proof.
  induction depth as [|depth IH]; [done|]. intros file_path g g' H.
  apply load_effect in H as [(bytes & ptr & _ & He)|[_ ->]].
  - cbn [pred] in He. by apply effect_log in He.
  - unfold log_extends. cbn. destruct (_msg_functor g); [|done].
    by eexists.
Qed.

(** X1: a call of [load] that returns leaves every section that was in
    the object before the call as it was, whatever the file and the files
    it includes hold: the sections map before the call is a part of the
    sections map after it, and the number of sections does not go
    down. *)
Theorem load_keeps_sections (depth : nat) (fs : Files) (file_path : string)
    (g g' : CFGParser) :
  load depth fs file_path g = Some g' →
  getSectionData g ⊆ getSectionData g' ∧
  (getSectionCount g ≤ getSectionCount g')%nat.
Proof.
  intros H%load_keeps. split; [exact H|].
  by apply map_subseteq_size.
Qed.

Lemma load_keeps_sections_witness :
  ∃ g', load 1 (one_file "f" duplicate_section_input) "f" empty_value_model
        = Some g' ∧
        getSectionData empty_value_model ⊆ getSectionData g' ∧
        (getSectionCount empty_value_model ≤ getSectionCount g')%nat.
Proof.
  eexists. split; [vm_compute; reflexivity|].
  apply (load_keeps_sections 1 (one_file "f" duplicate_section_input) "f").
  vm_compute. reflexivity.
Defined.

(** X2: when [load] returns, the current file path is the path it was
    given, also after the includes of the file, the base path is the one
    before the call, and the functor is the one before the call, which
    has received the messages of before and then those of the call. *)
Theorem load_members (depth : nat) (fs : Files) (file_path : string)
    (g g' : CFGParser) :
  load depth fs file_path g = Some g' →
  _current_file g' = file_path ∧ _base_path g' = _base_path g ∧
  log_extends g g'.
Proof.
  intros H. split; [by eapply load_current_file|].
  split; [by eapply load_base_path|by eapply load_log].
Qed.

Lemma load_members_witness :
  ∃ g', load 1 (one_file "f" duplicate_section_input) "f" empty_value_model
        = Some g' ∧
        _current_file g' = "f" ∧
        _base_path g' = _base_path empty_value_model ∧
        log_extends empty_value_model g'.
Proof.
  eexists. split; [vm_compute; reflexivity|].
  apply (load_members 1 (one_file "f" duplicate_section_input) "f").
  vm_compute. reflexivity.
Defined.

Lemma has_name_loop_elem l x : has_name_loop l x = bool_decide (x ∈ l).
Proof.
  induction l as [|y l IH]; cbn [has_name_loop].
  - symmetry. apply bool_decide_eq_false. by intros ?%elem_of_nil.
  - destruct (decide (y = x)) as [->|Hne].
    + rewrite (bool_decide_eq_true_2 (x = x)) by done.
      symmetry. apply bool_decide_eq_true. by left.
    + rewrite (bool_decide_eq_false_2 (y = x)) by done.
      rewrite IH. apply bool_decide_ext. rewrite elem_of_cons.
      split; [by right|]. by intros [->|].
Qed.

(** X3: after a call of [load] that returns, the introspection functions
    answer for a section that was there before the call as they did
    before it: its keys, its attributes and its inheritances are the
    same, and a key it holds itself has the same value. *)
Theorem load_keeps_answers (depth : nat) (fs : Files) (file_path : string)
    (g g' : CFGParser) (S : string) :
  load depth fs file_path g = Some g' →
  hasSection g S = true →
  hasSection g' S = true ∧
  (getInheritances g' S).1 = (getInheritances g S).1 ∧
  (getAttributes g' S).1 = (getAttributes g S).1 ∧
  (hasInheritances g' S).1 = (hasInheritances g S).1 ∧
  (hasAttributes g' S).1 = (hasAttributes g S).1 ∧
  (∀ B, isInheritedFrom g' S B = isInheritedFrom g S B) ∧
  (∀ A, hasAttribute g' S A = hasAttribute g S A) ∧
  (∀ K, (hasKey g' S K).1 = (hasKey g S K).1) ∧
  (∀ K d, (hasKey g S K).1 = true → getString g' S K d = getString g S K d).
Proof.
  intros Hl HS. apply load_keeps in Hl.
  unfold hasSection in HS. apply bool_decide_eq_true in HS as [s Hs].
  pose proof (lookup_weaken _ _ _ _ Hs Hl) as Hs'.
  unfold hasSection, getInheritances, getAttributes, hasInheritances,
    hasAttributes, isInheritedFrom, hasAttribute, hasKey, getString.
  rewrite Hs, Hs'. cbn [fst snd]. split_and!; try done.
  intros K d HK. apply bool_decide_eq_true in HK as [x Hx].
  by rewrite Hx.
Qed.

Lemma load_keeps_answers_witness :
  ∃ g', load 1 (one_file "f" scenario_S1) "f" empty_value_model = Some g' ∧
        hasSection empty_value_model "a" = true ∧
        hasSection g' "a" = true ∧
        (hasKey g' "a" "x").1 = true ∧
        getString g' "a" "x" "none" = EmptyString.
Proof.
  assert (H : hasSection empty_value_model "a" = true)
    by (vm_compute; reflexivity).
  eexists. split; [vm_compute; reflexivity|].
  split; [exact H|].
  edestruct (load_keeps_answers 1 (one_file "f" scenario_S1) "f"
               empty_value_model)
    as (H1 & _ & _ & _ & _ & _ & _ & H2 & H3);
    [vm_compute; reflexivity|exact H|].
  split; [exact H1|]. split; [rewrite H2; vm_compute; reflexivity|].
  rewrite H3; vm_compute; reflexivity.
Defined.

(** ** Files without includes *)

Section Total.

Variable load_rec : string → CFGParser → option CFGParser.

(** Only the closing angle bracket calls [IncludeFile]. *)
Lemma switch_total (character next : option ascii) (σ : State) :
  label character ≠ case_greater →
  ∃ σ', ∀ load_rec', switch load_rec' character next σ = Some σ'.
Proof.
  intros Hc. unfold switch.
  destruct (label character); try done;
    destruct (parse_action σ.2); try by eexists.
  all: by destruct (negb _); eexists.
Qed.

Lemma loop_total (n : nat) : ∀ bytes σ,
  (String.length bytes ≤ n)%nat →
  all_chars (λ c, negb (Ascii.eqb c ">")) bytes = true →
  ∃ σ', ∀ load_rec', loop load_rec' bytes σ = Some σ'.
Proof.
  assert (Heof : ∀ σ, ∃ σ', ∀ load_rec',
            iteration load_rec' None σ = Some σ').
  { intros σ. destruct (switch_total None None σ) as [σ1 H1]; [done|].
    exists (next_pos σ1). intros lr. unfold iteration. by rewrite H1. }
  induction n as [|n IH]; intros bytes σ Hn Hb.
  { destruct bytes; [|simpl in Hn; lia]. apply Heof. }
  destruct bytes as [|c bytes]; [apply Heof|].
  cbn [all_chars] in Hb. apply andb_prop in Hb as [Hc Hb].
  assert (Hlabel : label (Some c) ≠ case_greater).
  { intros Hl. apply negb_true_iff, Ascii.eqb_neq in Hc.
    unfold label in Hl.
    repeat match type of Hl with
           | (if Ascii.eqb c ?x then _ else _) = _ =>
               destruct (Ascii.eqb_spec c x); [try done|]
           end; done. }
  simpl in Hn.
  destruct (reads_escape c σ) eqn:He.
  - destruct bytes as [|e bytes].
    + destruct (switch_total (Some c) None σ Hlabel) as [σ1 H1].
      exists (next_pos σ1). intros lr. rewrite loop_String, He.
      by rewrite H1.
    + destruct (switch_total (Some c) (Some e) σ Hlabel) as [σ1 H1].
      cbn [all_chars] in Hb. apply andb_prop in Hb as [_ Hb].
      destruct (IH bytes (next_pos σ1)) as [σ2 H2];
        [simpl in Hn; lia|done|].
      exists σ2. intros lr. rewrite loop_String, He, H1. apply H2.
  - destruct (switch_total (Some c) None σ Hlabel) as [σ1 H1].
    destruct (IH bytes (next_pos σ1)) as [σ2 H2]; [lia|done|].
    exists σ2. intros lr. rewrite loop_String, He. unfold iteration.
    rewrite H1. apply H2.
Qed.

End Total.

(** X4: a file that holds no closing angle bracket is loaded by one
    activation of [load]: the call returns, with the same object for
    every bound on the nesting of includes; so does the constructor that
    takes the file. *)
Theorem load_without_include (fs : Files) (file_path bytes : string)
    (g : CFGParser) :
  fs !! file_path = Some bytes →
  all_chars (λ c, negb (Ascii.eqb c ">")) bytes = true →
  (∃ g', ∀ depth, load (S depth) fs file_path g = Some g') ∧
  (∃ g', ∀ depth, CFGParser_of_file (S depth) fs file_path = Some g').
Proof.
  intros Hf Hb.
  assert (H : ∀ g0, ∃ g', ∀ depth, load (S depth) fs file_path g0 = Some g').
  { intros g0.
    destruct (loop_total (String.length bytes) bytes
                (set_current_file file_path g0, Locals0)) as [σ' H];
      [done|done|].
    exists σ'.1. intros depth. cbn [load]. by rewrite Hf, H. }
  split; [apply H|apply (H CFGParser0)].
Qed.

Lemma load_without_include_witness :
  (∃ g', ∀ depth,
     load (S depth) (one_file "f" scenario_S5) "f" CFGParser0 = Some g') ∧
  (∃ g', ∀ depth,
     CFGParser_of_file (S depth) (one_file "f" scenario_S5) "f" = Some g').
Proof.
  apply (load_without_include (one_file "f" scenario_S5) "f" scenario_S5).
  - reflexivity.
  - reflexivity.
Defined.

(** ** The include directive *)


Section Include.

Variable load_rec : string → CFGParser → option CFGParser.



End Include.



(** ** Assignment lines inside a section *)

Lemma without_blanks_app s t :
  without_blanks (s +:+ t) = without_blanks s +:+ without_blanks t.
Proof.
  induction s as [|c s IH]; [done|]. rewrite append_String.
  cbn [without_blanks]. destruct (blank c); [done|].
  by rewrite append_String, IH.
Qed.

Section Assignments.

Variable load_rec : string → CFGParser → option CFGParser.

(** The left side of an assignment: the blanks are passed over, the
    other characters are appended to the key buffer. *)
Lemma key_text_run g sec inh att v pp ptr ln : ∀ k rest k0 a pos,
  all_chars (λ c, ordinary c || blank c) k = true →
  a = NEW_LINE ∨ a = KEY →
  ∃ pos',
    loop load_rec (k +:+ rest)
      (g, mkLocals sec inh att k0 v pp ptr a ln pos true) =
    loop load_rec rest
      (g, mkLocals sec inh att (k0 +:+ without_blanks k) v pp ptr
            (if all_chars blank k then a else KEY) ln pos' true).
Proof.
  induction k as [|c k IH]; intros rest k0 a pos Hk Ha.
  - exists pos. by rewrite append_Empty, append_nil_r.
  - cbn [all_chars] in Hk. apply andb_prop in Hk as [Hc Hk].
    cbn [all_chars without_blanks].
    destruct (blank c) eqn:Hb.
    + label_of Hb. rewrite append_String, loop_cons by congruence.
      unfold iteration, switch. cbn [fst snd parse_action]. rewrite Hb.
      destruct Ha as [-> | ->];
        cbn [fmap option_fmap option_map mbind option_bind negb
             ignore_current_spaces to_char]; setters;
        match goal with
        | |- ∃ _, loop _ _ (_, mkLocals _ _ _ _ _ _ _ ?a' _ ?pos' _) = _ =>
            destruct (IH rest k0 a' pos' Hk) as (pos'' & ->); [auto|]
        end; by exists pos''.
    + rewrite orb_false_r in Hc. label_of Hc.
      rewrite append_String, loop_cons by congruence.
      unfold iteration, switch. cbn [fst snd parse_action]. rewrite Hc.
      destruct Ha as [-> | ->];
        cbn [fmap option_fmap option_map mbind option_bind negb
             ignore_current_spaces to_char andb]; setters;
        match goal with
        | |- ∃ _, loop _ _ (_, mkLocals _ _ _ ?k' _ _ _ _ _ ?pos' _) = _ =>
            destruct (IH rest k' KEY pos' Hk) as (pos'' & ->); [auto|]
        end; exists pos''; rewrite push_back_append;
        by destruct (all_chars blank k).
Qed.

(** A value that is not quoted: the blanks are passed over, the other
    characters and the commas are appended to the value buffer. *)
Lemma bare_run g sec inh att k pp ptr ln : ∀ s rest v a pos,
  bare_value s = true → a = VALUE ∨ a = VALUE_ARRAY →
  ∃ a' pos',
    (a' = VALUE ∨ a' = VALUE_ARRAY) ∧
    loop load_rec (s +:+ rest)
      (g, mkLocals sec inh att k v pp ptr a ln pos true) =
    loop load_rec rest
      (g, mkLocals sec inh att k (v +:+ without_blanks s) pp ptr a' ln pos'
            true).
Proof.
  induction s as [|c s IH]; intros rest v a pos Hs Ha.
  - exists a, pos. split; [done|]. by rewrite append_Empty, append_nil_r.
  - cbn [bare_value all_chars] in Hs. apply andb_prop in Hs as [Hc Hs].
    cbn [without_blanks].
    destruct (blank c) eqn:Hb.
    + label_of Hb. rewrite append_String, loop_cons by congruence.
      unfold iteration, switch. cbn [fst snd parse_action]. rewrite Hb.
      destruct Ha as [-> | ->];
        cbn [fmap option_fmap option_map mbind option_bind negb
             ignore_current_spaces to_char]; setters;
        match goal with
        | |- ∃ _ _, _ ∧ loop _ _ (_, mkLocals _ _ _ _ _ _ _ ?a' _ ?pos' _) = _
          => destruct (IH rest v a' pos' Hs) as (a'' & pos'' & Ha'' & ->);
               [auto|]
        end; by exists a'', pos''.
    + rewrite orb_false_r in Hc.
      apply orb_prop in Hc as [Hc|Hc]; label_of Hc;
        rewrite append_String, loop_cons by congruence;
        unfold iteration, switch; cbn [fst snd parse_action]; rewrite Hc;
        destruct Ha as [-> | ->];
        cbn [fmap option_fmap option_map mbind option_bind to_char];
        setters;
        match goal with
        | |- ∃ _ _, _ ∧
               loop _ _ (_, mkLocals _ _ _ _ ?v' _ _ ?a' _ ?pos' _) = _ =>
            destruct (IH rest v' a' pos' Hs) as (a'' & pos'' & Ha'' & ->);
              [auto|]
        end;
        exists a'', pos''; (split; [done|]); by rewrite push_back_append.
Qed.

Lemma label_newline c : label (Some c) = case_newline → c = LF.
Proof.
  unfold label.
  repeat match goal with
         | |- (if Ascii.eqb c ?x then _ else _) = _ → _ =>
             destruct (Ascii.eqb_spec c x); [try done|]
         end; done.
Qed.

(** Inside a quoted string every character but the backslash, the
    double quote and the newline is appended to the value. *)
Lemma string_char g p c :
  parse_action p = STRING_VALUE →
  label (Some c) ≠ case_backslash → label (Some c) ≠ case_quote →
  label (Some c) ≠ case_newline →
  iteration load_rec (Some c) (g, p) = Some (next_pos (value_append c (g, p))).
Proof.
  intros Ha H1 H2 H3. unfold iteration, switch.
  cbn [fst snd to_char]. rewrite Ha.
  by destruct (label (Some c)).
Qed.

Lemma escape_escaped e g p :
  escape_char e = true →
  escape (Some e) (g, p) = (g, set_value (value p +:+ escaped e) p).
Proof.
  unfold escape_char, escape, escaped. intros H.
  repeat (destruct (Ascii.eqb e _); [reflexivity|]). done.
Qed.

(** The inside of a quoted string. *)
Lemma string_run g sec inh att k pp ptr (n : nat) : ∀ body rest v ln pos fl,
  (String.length body ≤ n)%nat → string_body body = true →
  ∃ ln' pos' fl',
    (fl = true → fl' = true) ∧
    loop load_rec (body +:+ rest)
      (g, mkLocals sec inh att k v pp ptr STRING_VALUE ln pos fl) =
    loop load_rec rest
      (g, mkLocals sec inh att k (v +:+ unescape body) pp ptr STRING_VALUE
            ln' pos' fl').
Proof.
  induction n as [|n IH]; intros body rest v ln pos fl Hn Hb.
  { destruct body; [|simpl in Hn; lia]. exists ln, pos, fl. split; [done|].
    by rewrite append_Empty, append_nil_r. }
  destruct body as [|c body].
  { exists ln, pos, fl. split; [done|].
    by rewrite append_Empty, append_nil_r. }
  cbn [string_body unescape] in *. simpl in Hn.
  destruct (Ascii.eqb_spec c BACKSLASH) as [->|Hc].
  - destruct body as [|e body]; [done|].
    apply andb_prop in Hb as [He Hb].
    rewrite !append_String, loop_String.
    unfold reads_escape. cbn [fst snd parse_action].
    rewrite bool_decide_eq_true_2 by done.
    unfold switch. cbn [fst snd parse_action].
    assert (Hl : label (Some BACKSLASH) = case_backslash) by reflexivity.
    rewrite Hl, escape_escaped by done.
    cbn [fmap option_fmap option_map mbind option_bind]. setters.
    match goal with
    | |- ∃ _ _ _, _ ∧
           loop _ _ (_, mkLocals _ _ _ _ ?v' _ _ _ _ ?pos' _) = _ =>
        destruct (IH body rest v' ln pos' fl) as (ln' & pos'' & fl' & Hfl & ->);
          [simpl in Hn; lia|done|]
    end.
    exists ln', pos'', fl'. split; [done|]. by rewrite append_assoc.
  - apply andb_prop in Hb as [Hq Hb].
    apply negb_true_iff, Ascii.eqb_neq in Hq.
    assert (H1 : label (Some c) ≠ case_backslash)
      by (by intros ?%label_backslash).
    assert (H2 : label (Some c) ≠ case_quote) by (by intros ?%label_quote).
    destruct (Ascii.eqb_spec c LF) as [->|Hlf].
    + rewrite append_String, loop_cons by done.
      unfold iteration, switch. cbn [fst snd parse_action]. rewrite label_LF.
      unfold end_of_line.
      cbn [fmap option_fmap option_map mbind option_bind parse_action].
      rewrite bool_decide_eq_false_2 by (intros [? _]; done).
      setters.
      match goal with
      | |- ∃ _ _ _, _ ∧
             loop _ _ (_, mkLocals _ _ _ _ _ _ _ _ ?ln' ?pos' _) = _ =>
          destruct (IH body rest v ln' pos' true)
            as (ln'' & pos'' & fl' & Hfl & ->); [lia|done|]
      end.
      exists ln'', pos'', fl'. split; [auto|done].
    + assert (H3 : label (Some c) ≠ case_newline)
        by (by intros ?%label_newline).
      rewrite append_String, loop_cons, string_char by done.
      cbn [mbind option_bind]. setters.
      match goal with
      | |- ∃ _ _ _, _ ∧
             loop _ _ (_, mkLocals _ _ _ _ ?v' _ _ _ _ ?pos' _) = _ =>
          destruct (IH body rest v' ln pos' fl)
            as (ln' & pos'' & fl' & Hfl & ->); [lia|done|]
      end.
      exists ln', pos'', fl'. split; [done|]. by rewrite push_back_append.
Qed.

(** The equals sign after a key inside the section [n]: the key is
    inserted with an empty value if the section does not hold it, and
    a diagnostic is emitted if it does. *)
Lemma emplace_key_spec g p n :
  section_ptr p = Some n →
  ∃ g1, emplace_key (g, p) = (g1, p) ∧
    match binding g n (key p) with
    | None => g1 = bind_value n (key p) EmptyString g
    | Some _ => ∃ m, g1 = call_msg_functor m g
    end.
Proof.
  intros Hptr. unfold emplace_key, binding. rewrite Hptr.
  destruct (_section_data g !! n) as [s|] eqn:Hs; cbn [mbind option_bind].
  - destruct (values s !! key p) as [x|] eqn:Hx.
    + eexists. split; [reflexivity|]. eexists. unfold msg. cbn [fst snd].
      f_equal. unfold through_ptr, set_section_data. destruct g. cbn in *.
      f_equal. apply map_eq. intros i.
      destruct (decide (n = i)) as [<-|Hne].
      * rewrite lookup_alter_eq, Hs. cbn. f_equal.
        unfold try_emplace_value. rewrite Hx. by destruct s.
      * by rewrite lookup_alter_ne.
    + eexists. split; [reflexivity|].
      unfold through_ptr, bind_value, set_section_data. f_equal.
      apply alter_ext. intros s' Hs'. rewrite Hs in Hs'.
      injection Hs' as <-. unfold try_emplace_value, set_values.
      by rewrite Hx.
  - eexists. split; [reflexivity|].
    unfold through_ptr, bind_value, set_section_data. destruct g. cbn in *.
    f_equal. apply map_eq. intros i.
    destruct (decide (n = i)) as [<-|Hne].
    + by rewrite !lookup_alter_eq, Hs.
    + by rewrite !lookup_alter_ne.
Qed.

Lemma bind_value_again n k v w g :
  through_ptr n (assign_value k w) (bind_value n k v g) = bind_value n k w g.
Proof.
  unfold through_ptr, bind_value, set_section_data. cbn. f_equal.
  apply map_eq. intros i. destruct (decide (n = i)) as [<-|Hne].
  - rewrite !lookup_alter_eq. destruct (_section_data g !! n) as [s|]; [|done].
    cbn. f_equal. unfold assign_value, set_values. cbn.
    by rewrite insert_insert_eq.
  - by rewrite !lookup_alter_ne.
Qed.

Lemma bind_value_assign n k w g :
  through_ptr n (assign_value k w) g = bind_value n k w g.
Proof. reflexivity. Qed.

Lemma through_ptr_msg n f m g :
  through_ptr n f (call_msg_functor m g) =
  call_msg_functor m (through_ptr n f g).
Proof. reflexivity. Qed.

Lemma after_equals_commit g n K V g1 :
  after_equals g n K g1 →
  after_commit g n K V (through_ptr n (assign_value K V) g1).
Proof.
  unfold after_equals, after_commit. destruct (binding g n K).
  - intros [m ->]. by exists m.
  - intros ->. apply bind_value_again.
Qed.

(** The key and the equals sign of a line read inside the section [n],
    with [k0] in the key buffer. *)
Lemma key_equals g sec inh att v pp n ln pos k0 k rest :
  key_text k = true →
  ∃ g1 pos',
    loop load_rec (k +:+ "=" +:+ rest)
      (g, mkLocals sec inh att k0 v pp (Some n) NEW_LINE ln pos true) =
    loop load_rec rest
      (g1, mkLocals sec inh att (k0 +:+ without_blanks k) v pp (Some n) VALUE
             ln pos' true) ∧
    after_equals g n (k0 +:+ without_blanks k) g1.
Proof.
  intros Hk. apply andb_prop in Hk as [Hk Hnb].
  apply negb_true_iff in Hnb.
  destruct (key_text_run g sec inh att v pp (Some n) ln k ("=" +:+ rest) k0
              NEW_LINE pos Hk) as (pos1 & ->); [auto|].
  rewrite Hnb. rewrite append_String, append_Empty.
  rewrite loop_cons by done. unfold iteration, switch.
  cbn [fst snd parse_action]. rewrite label_equals.
  cbn [fmap option_fmap option_map mbind option_bind].
  match goal with
  | |- context [emplace_key (g, ?p)] =>
      destruct (emplace_key_spec g p n eq_refl) as (g1 & -> & Hg1)
  end.
  setters. exists g1. eexists. split; [reflexivity|]. exact Hg1.
Qed.

(** Blanks between the parts of a value. *)
Lemma value_blanks g sec inh att k v pp ptr ln : ∀ s rest pos,
  all_chars blank s = true →
  ∃ pos',
    loop load_rec (s +:+ rest)
      (g, mkLocals sec inh att k v pp ptr VALUE ln pos true) =
    loop load_rec rest
      (g, mkLocals sec inh att k v pp ptr VALUE ln pos' true).
Proof.
  induction s as [|c s IH]; intros rest pos Hs.
  - by exists pos.
  - cbn [all_chars] in Hs. apply andb_prop in Hs as [Hc Hs].
    label_of Hc. rewrite append_String, loop_cons by congruence.
    unfold iteration, switch. cbn [fst snd parse_action]. rewrite Hc.
    cbn [fmap option_fmap option_map mbind option_bind negb
         ignore_current_spaces]. setters.
    match goal with
    | |- ∃ _, loop _ _ (_, mkLocals _ _ _ _ _ _ _ _ _ ?pos' _) = _ =>
        destruct (IH rest pos' Hs) as (pos'' & ->)
    end. by exists pos''.
Qed.

(** A quoted string after the equals sign. *)
Lemma quoted_run g sec inh att k v pp ptr ln pos body rest :
  string_body body = true →
  ∃ ln' pos',
    loop load_rec (DQ +:+ body +:+ DQ +:+ rest)
      (g, mkLocals sec inh att k v pp ptr VALUE ln pos true) =
    loop load_rec rest
      (g, mkLocals sec inh att k (v +:+ unescape body) pp ptr VALUE ln' pos'
            true).
Proof.
  intros Hb. unfold DQ. step_with label_dq.
  match goal with
  | |- ∃ _ _, loop _ _ (_, mkLocals _ _ _ _ _ _ _ _ _ ?pos1 _) = _ =>
      destruct (string_run g sec inh att k pp ptr (String.length body) body
                  (String dq rest) v ln pos1 true)
        as (ln' & pos2 & fl' & Hfl & ->); [done|done|]
  end.
  rewrite (Hfl eq_refl). step_with label_dq.
  by eexists _, _.
Qed.

(** A quoted string that the end of the file leaves open. *)
Lemma open_quote_run g sec inh att k v pp ptr ln pos body :
  string_body body = true →
  ∃ p', loop load_rec (DQ +:+ body)
          (g, mkLocals sec inh att k v pp ptr VALUE ln pos true) =
        Some (g, p').
Proof.
  intros Hb. unfold DQ. step_with label_dq.
  match goal with
  | |- ∃ _, loop _ _ (_, mkLocals _ _ _ _ _ _ _ _ _ ?pos1 _) = _ =>
      destruct (string_run g sec inh att k pp ptr (String.length body) body
                  EmptyString v ln pos1 true)
        as (ln' & pos2 & fl' & Hfl & H); [done|done|]
  end.
  rewrite append_nil_r in H. rewrite H, loop_Empty.
  unfold iteration, switch. cbn [fst snd parse_action]. rewrite label_eof.
  cbn [fmap option_fmap option_map]. by eexists.
Qed.

(** The newline that ends a value inside the section [n]. *)
Lemma commit_line g sec inh att k v pp n a ln pos fl rest :
  a = VALUE ∨ a = VALUE_ARRAY →
  loop load_rec (String LF rest)
    (g, mkLocals sec inh att k v pp (Some n) a ln pos fl) =
  loop load_rec rest
    (through_ptr n (assign_value k v) g,
     mkLocals sec inh att EmptyString EmptyString pp (Some n) NEW_LINE
       (incr32 ln) (incr32 0) true).
Proof.
  intros Ha. rewrite loop_cons by done. unfold iteration, switch.
  cbn [fst snd parse_action]. rewrite label_LF.
  destruct Ha as [-> | ->];
    cbn [fmap option_fmap option_map mbind option_bind];
    unfold commit_value; cbn [section_ptr key value];
    rewrite end_of_line_reset by discriminate; setters; reflexivity.
Qed.

End Assignments.


(** X8: an assignment line whose value is one quoted string, read in the
    state NEW_LINE while a section [n] is current and the ignore-spaces
    flag is set.  The key is what the key buffer holds followed by the
    text before the equals sign without its spaces and tabs; the value
    stored under it is what the value buffer holds followed by the inside
    of the string with its escape sequences replaced: inside the quotes
    spaces, tabs and the characters that end a bare value stand for
    themselves, and a newline is left out of the value unless it is
    written as an escape.  With empty buffers, as at the start of a file
    and after every line that was committed, key and value are those of
    the line. *)
Theorem quoted_line_stores
    (load_rec : string → CFGParser → option CFGParser) (g : CFGParser)
    (p : Locals) (n k b1 body b2 rest : string) :
  parse_action p = NEW_LINE → section_ptr p = Some n →
  ignore_current_spaces p = true →
  key_text k = true →
  all_chars blank b1 = true → string_body body = true →
  all_chars blank b2 = true →
  ∃ g' p',
    loop load_rec
      (k +:+ "=" +:+ b1 +:+ DQ +:+ body +:+ DQ +:+ b2 +:+ String LF rest)
      (g, p) =
    loop load_rec rest (g', p') ∧
    (parse_action p' = NEW_LINE ∧ section_ptr p' = Some n ∧
     ignore_current_spaces p' = true ∧
     key p' = EmptyString ∧ value p' = EmptyString) ∧
    after_commit g n (key p +:+ without_blanks k)
      (value p +:+ unescape body) g' ∧
    (key p = EmptyString → value p = EmptyString →
     after_commit g n (without_blanks k) (unescape body) g').
Proof.
  intros Ha Hptr Hfl Hk Hb1 Hbody Hb2.
  destruct p as [sec inh att k0 v0 pp ptr a ln pos fl]. cbn in *. subst.
  destruct (key_equals load_rec g sec inh att v0 pp n ln pos k0 k
              (b1 +:+ DQ +:+ body +:+ DQ +:+ b2 +:+ String LF rest) Hk)
    as (g1 & pos1 & -> & Hg1).
  destruct (value_blanks load_rec g1 sec inh att
              (k0 +:+ without_blanks k) v0 pp (Some n) ln b1
              (DQ +:+ body +:+ DQ +:+ b2 +:+ String LF rest) pos1 Hb1)
    as (pos2 & ->).
  destruct (quoted_run load_rec g1 sec inh att
              (k0 +:+ without_blanks k) v0 pp (Some n) ln pos2 body
              (b2 +:+ String LF rest) Hbody)
    as (ln3 & pos3 & ->).
  destruct (value_blanks load_rec g1 sec inh att
              (k0 +:+ without_blanks k) (v0 +:+ unescape body) pp (Some n)
              ln3 b2 (String LF rest) pos3 Hb2)
    as (pos4 & ->).
  rewrite commit_line by auto.
  eexists _, _. split; [reflexivity|]. split; [by repeat split|].
  split; [by apply after_equals_commit|].
  intros -> ->. rewrite !append_Empty in *. by apply after_equals_commit.
Qed.

(** X9: an assignment on the last line of a file that does not end with
    a newline is not committed, whether its value is not quoted, is a
    quoted string, or is a quoted string that is not closed.  Read in the
    state NEW_LINE while a section [n] is current and the ignore-spaces
    flag is set, the line ends the run after the equals sign has inserted
    its key, which is what the key buffer holds followed by the text
    before the equals sign without its spaces and tabs, with an empty
    value, or has emitted the diagnostic for a key that the section
    holds; the text of the value is lost. *)
Theorem last_line_without_newline
    (load_rec : string → CFGParser → option CFGParser) (g : CFGParser)
    (p : Locals) (n k v : string) :
  parse_action p = NEW_LINE → section_ptr p = Some n →
  ignore_current_spaces p = true →
  key_text k = true → line_value v →
  ∃ g' p',
    loop load_rec (k +:+ "=" +:+ v) (g, p) = Some (g', p') ∧
    after_equals g n (key p +:+ without_blanks k) g' ∧
    (key p = EmptyString → after_equals g n (without_blanks k) g').
Proof.
  intros Ha Hptr Hfl Hk Hv.
  destruct p as [sec inh att k0 v0 pp ptr a ln pos fl]. cbn in *. subst.
  destruct (key_equals load_rec g sec inh att v0 pp n ln pos k0 k v Hk)
    as (g1 & pos1 & -> & Hg1).
  assert (Hend : ∃ p', loop load_rec v
            (g1, mkLocals sec inh att (k0 +:+ without_blanks k) v0 pp
                   (Some n) VALUE ln pos1 true) = Some (g1, p')).
  { destruct Hv as [v Hv|b1 body b2 Hb1 Hbody Hb2|b1 body Hb1 Hbody].
    - destruct (bare_run load_rec g1 sec inh att (k0 +:+ without_blanks k)
                  pp (Some n) ln v EmptyString v0 VALUE pos1 Hv)
        as (a' & pos2 & Ha' & H); [auto|].
      rewrite append_nil_r in H. rewrite H, loop_Empty.
      unfold iteration, switch. cbn [fst snd parse_action].
      rewrite label_eof.
      destruct Ha' as [-> | ->];
        cbn [fmap option_fmap option_map]; by eexists.
    - destruct (value_blanks load_rec g1 sec inh att
                  (k0 +:+ without_blanks k) v0 pp (Some n) ln b1
                  (DQ +:+ body +:+ DQ +:+ b2) pos1 Hb1) as (pos2 & ->).
      destruct (quoted_run load_rec g1 sec inh att
                  (k0 +:+ without_blanks k) v0 pp (Some n) ln pos2 body b2
                  Hbody) as (ln3 & pos3 & ->).
      destruct (value_blanks load_rec g1 sec inh att
                  (k0 +:+ without_blanks k) (v0 +:+ unescape body) pp
                  (Some n) ln3 b2 EmptyString pos3 Hb2) as (pos4 & H).
      rewrite append_nil_r in H. rewrite H, loop_Empty.
      unfold iteration, switch. cbn [fst snd parse_action].
      rewrite label_eof. cbn [fmap option_fmap option_map]. by eexists.
    - destruct (value_blanks load_rec g1 sec inh att
                  (k0 +:+ without_blanks k) v0 pp (Some n) ln b1
                  (DQ +:+ body) pos1 Hb1) as (pos2 & ->).
      apply open_quote_run. exact Hbody. }
  destruct Hend as (p' & ->). exists g1, p'. split; [reflexivity|].
  split; [exact Hg1|]. intros ->. by rewrite append_Empty in Hg1.
Qed.

(** X10: a line that holds a name and no equals sign, read at the start
    of a line inside the section [n], is reported with the diagnostic
    New line parse error, and its text stays in the key buffer: the
    assignment on the next line binds the key made of both texts. *)
Theorem key_line_without_equals
    (load_rec : string → CFGParser → option CFGParser) (g : CFGParser)
    (p : Locals) (n k1 k2 v rest : string) :
  line_start n p → key_text k1 = true → key_text k2 = true →
  bare_value v = true →
  ∃ prefix g' p',
    loop load_rec
      (k1 +:+ String LF (k2 +:+ "=" +:+ v +:+ String LF rest)) (g, p) =
    loop load_rec rest (g', p') ∧
    line_start n p' ∧
    after_commit
      (call_msg_functor (prefix +:+ "New line parse error") g) n
      (without_blanks k1 +:+ without_blanks k2) (without_blanks v) g'.
Proof.
  intros Hp Hk1 Hk2 Hv.
  destruct p as [sec inh att k0 v0 pp ptr a ln pos fl].
  destruct Hp as (? & ? & ? & ? & ? & ? & ?). cbn in *. subst.
  pose proof Hk1 as Hk1'. apply andb_prop in Hk1' as [Hk Hnb].
  apply negb_true_iff in Hnb.
  destruct (key_text_run load_rec g sec EmptyString EmptyString EmptyString
              pp (Some n) ln k1
              (String LF (k2 +:+ "=" +:+ v +:+ String LF rest)) EmptyString
              NEW_LINE pos Hk) as (pos1 & ->); [auto|].
  rewrite Hnb, append_Empty.
  rewrite loop_cons by done. unfold iteration, switch.
  cbn [fst snd parse_action]. rewrite label_LF.
  cbn [fmap option_fmap option_map mbind option_bind].
  unfold msg at 1. cbn [fst snd].
  rewrite end_of_line_reset by discriminate. setters.
  match goal with
  | |- context [call_msg_functor (?pre +:+ "New line parse error") g] =>
      exists pre; set (g2 := call_msg_functor (pre +:+ _) g)
  end.
  match goal with
  | |- ∃ _ _, loop _ _ (_, mkLocals _ _ _ _ _ _ _ _ ?ln1 ?pos2 _) = _ ∧ _ =>
      destruct (key_equals load_rec g2 sec EmptyString EmptyString EmptyString
                  pp n ln1 pos2 (without_blanks k1) k2
                  (v +:+ String LF rest) Hk2)
        as (g1 & pos3 & -> & Hg1);
      destruct (bare_run load_rec g1 sec EmptyString EmptyString
                  (without_blanks k1 +:+ without_blanks k2) pp (Some n) ln1 v
                  (String LF rest) EmptyString VALUE pos3 Hv)
        as (a' & pos4 & Ha' & ->); [auto|]
  end.
  rewrite append_Empty, commit_line by done.
  eexists _, _. split; [reflexivity|]. split; [by repeat split|].
  by apply after_equals_commit.
Qed.


Lemma quoted_line_stores_witness :
  ∃ g' p',
    loop no_include
      ("y" +:+ "=" +:+ " " +:+ DQ +:+
       ("a b;" +:+ String BACKSLASH "n" +:+ String LF "c") +:+ DQ +:+
       EmptyString +:+ String LF EmptyString)
      (empty_value_model, inside "a") =
    loop no_include EmptyString (g', p') ∧
    after_commit empty_value_model "a" "y" ("a b;" +:+ String LF "c") g'.
Proof.
  destruct (quoted_line_stores no_include empty_value_model (inside "a")
              "a" "y" " " ("a b;" +:+ String BACKSLASH "n" +:+ String LF "c")
              EmptyString EmptyString)
    as (g' & p' & H1 & _ & _ & H3); [reflexivity..|].
  exists g', p'. split; [exact H1|]. apply H3; reflexivity.
Defined.

Lemma last_line_without_newline_witness :
  line_value (" " +:+ DQ +:+ "q") ∧
  ∃ g' p',
    loop no_include ("y" +:+ "=" +:+ (" " +:+ DQ +:+ "q"))
      (empty_value_model, inside_after "a" "x" "1") =
    Some (g', p') ∧
    after_equals empty_value_model "a" "xy" g'.
Proof.
  assert (Hv : line_value (" " +:+ DQ +:+ "q"))
    by (by apply value_open).
  split; [exact Hv|].
  destruct (last_line_without_newline no_include empty_value_model
              (inside_after "a" "x" "1") "a" "y" (" " +:+ DQ +:+ "q"))
    as (g' & p' & H1 & H2 & _); [reflexivity..|exact Hv|].
  exists g', p'. split; [exact H1|exact H2].
Defined.

Lemma key_line_without_equals_witness :
  ∃ prefix g' p',
    loop no_include
      ("foo" +:+ String LF ("bar" +:+ "=" +:+ "1" +:+ String LF EmptyString))
      (empty_value_model, inside "a") =
    loop no_include EmptyString (g', p') ∧
    line_start "a" p' ∧
    after_commit
      (call_msg_functor (prefix +:+ "New line parse error")
         empty_value_model) "a"
      ("foo" +:+ "bar") "1" g'.
Proof.
  apply (key_line_without_equals no_include empty_value_model (inside "a")
           "a" "foo" "bar" "1" EmptyString).
  - by repeat split.
  - reflexivity.
  - reflexivity.
  - reflexivity.
Defined.

(** ** [set] and the typed getters *)

Lemma digit_pretty_N_char (d : N) :
  (d < 10)%N → digit (pretty_N_char d) = Some (Z.of_N d).
Proof.
  intros Hd.
  assert (d = 0 ∨ d = 1 ∨ d = 2 ∨ d = 3 ∨ d = 4 ∨ d = 5 ∨ d = 6 ∨ d = 7 ∨
          d = 8 ∨ d = 9)%N as H by lia.
  repeat (destruct H as [->|H]; [reflexivity|]). by subst.
Qed.

(** The digits that [std::to_string] writes are read back as the number
    they stand for. *)
Lemma digits_pretty_N_go (x : N) : ∀ s,
  (0 < x)%N →
  digits (pretty_N_go x s) None = digits s (Some (Z.of_N x)).
Proof.
  induction (N.lt_wf_0 x) as [x _ IH]. intros s Hx.
  rewrite pretty_N_go_step by done.
  assert (Hd : (x `mod` 10 < 10)%N) by (apply N.mod_lt; lia).
  destruct (decide (x `div` 10 = 0)%N) as [H0|H0].
  - rewrite H0, pretty_N_go_0. cbn [digits].
    rewrite digit_pretty_N_char by done. cbn [default]. f_equal. f_equal.
    pose proof (N.div_mod x 10 ltac:(done)) as Hdm.
    set (q := (x `div` 10)%N) in *. set (r := (x `mod` 10)%N) in *.
    clearbody q r. unfold id. lia.
  - rewrite IH; [|apply N.div_lt; lia|by apply N.neq_0_lt_0]. cbn [digits].
    rewrite digit_pretty_N_char by done. cbn [default]. f_equal. f_equal.
    pose proof (N.div_mod x 10 ltac:(done)) as Hdm.
    set (q := (x `div` 10)%N) in *. set (r := (x `mod` 10)%N) in *.
    clearbody q r. unfold id. lia.
Qed.

Lemma pretty_N_go_head (x : N) : ∀ s,
  (0 < x)%N →
  ∃ d rest, (d < 10)%N ∧ pretty_N_go x s = String (pretty_N_char d) rest.
Proof.
  induction (N.lt_wf_0 x) as [x _ IH]. intros s Hx.
  rewrite pretty_N_go_step by done.
  destruct (decide (x `div` 10 = 0)%N) as [H0|H0].
  - rewrite H0, pretty_N_go_0. exists (x `mod` 10)%N, s.
    split; [apply N.mod_lt; lia|done].
  - apply IH; [apply N.div_lt; lia|by apply N.neq_0_lt_0].
Qed.

Lemma pretty_N_char_plain (d : N) :
  (d < 10)%N →
  isspace (pretty_N_char d) = false ∧
  Ascii.eqb (pretty_N_char d) "-" = false ∧
  Ascii.eqb (pretty_N_char d) "+" = false.
Proof.
  intros Hd.
  assert (d = 0 ∨ d = 1 ∨ d = 2 ∨ d = 3 ∨ d = 4 ∨ d = 5 ∨ d = 6 ∨ d = 7 ∨
          d = 8 ∨ d = 9)%N as H by lia.
  repeat (destruct H as [->|H]; [by vm_compute|]). subst. by vm_compute.
Qed.

Lemma stoi_pretty_pos (x : positive) :
  (Z.pos x < 2 ^ 31)%Z → stoi (pretty (Z.pos x)) = Some (Z.pos x).
Proof.
  intros Hx. unfold pretty, pretty_Z, pretty, pretty_positive, pretty,
    pretty_N.
  rewrite decide_False by done.
  destruct (pretty_N_go_head (N.pos x) EmptyString) as (d & rest & Hd & Hs);
    [lia|].
  pose proof (digits_pretty_N_go (N.pos x) EmptyString) as Hdig.
  rewrite Hs in Hdig |- *.
  destruct (pretty_N_char_plain d Hd) as (H1 & H2 & H3).
  unfold stoi. cbn [skip_spaces]. rewrite H1, H2, H3, Hdig by lia.
  cbn [digits mbind option_bind].
  rewrite bool_decide_eq_true_2; [done|]. cbn. lia.
Qed.

Lemma stoi_pretty_neg (x : positive) :
  (- 2 ^ 31 ≤ Z.neg x)%Z → stoi (pretty (Z.neg x)) = Some (Z.neg x).
Proof.
  intros Hx. unfold pretty, pretty_Z, pretty, pretty_positive, pretty,
    pretty_N.
  rewrite decide_False by done.
  pose proof (digits_pretty_N_go (N.pos x) EmptyString) as Hdig.
  unfold stoi. rewrite append_String, append_Empty. cbn [skip_spaces].
  assert (Hsp : isspace "-" = false) by (by vm_compute).
  rewrite Hsp. cbn [Ascii.eqb Bool.eqb]. rewrite Hdig by lia.
  cbn [digits mbind option_bind].
  rewrite bool_decide_eq_true_2; [done|]. cbn. lia.
Qed.

(** [std::stoi] reads back what [std::to_string] writes for an [int]. *)
Lemma stoi_to_string_int (v : Z) :
  (- 2 ^ 31 ≤ v < 2 ^ 31)%Z → stoi (to_string_int v) = Some v.
Proof.
  intros Hv. unfold to_string_int. destruct v as [|x|x].
  - by vm_compute.
  - apply stoi_pretty_pos. lia.
  - apply stoi_pretty_neg. lia.
Qed.

Lemma to_string_int_nonempty (v : Z) : empty (to_string_int v) = false.
Proof.
  unfold to_string_int, pretty, pretty_Z, pretty, pretty_positive, pretty,
    pretty_N.
  destruct v as [|x|x]; [done| |done].
  rewrite decide_False by done.
  by destruct (pretty_N_go_head (N.pos x) EmptyString) as (d & rest & _ & ->).
Qed.

Section SetProperties.

Context {T : Type} (to_string_T : T → string).

(** [set] on a key that the section holds stores the text of the
    value. *)
Lemma set_own_key g S K (v : T) :
  (hasKey g S K).1 = true →
  set to_string_T g S K v = bind_value S K (to_string_T v) g ∧
  ∀ d, getString (set to_string_T g S K v) S K d = to_string_T v.
Proof.
  unfold hasKey, set, getString.
  destruct (_section_data g !! S) as [s|] eqn:Hs; [|done]. cbn [fst].
  intros [x Hx]%bool_decide_eq_true. rewrite Hx. split; [done|].
  intros d. unfold through_ptr, set_section_data. cbn [_section_data].
  rewrite lookup_alter_eq, Hs. cbn. by rewrite lookup_insert_eq.
Qed.

Lemma set_unbound g S K (v : T) :
  (hasKey g S K).1 = false → ∃ m, set to_string_T g S K v = call_msg_functor m g.
Proof.
  unfold hasKey, set.
  destruct (_section_data g !! S) as [s|] eqn:Hs; [|by eexists].
  cbn [fst]. intros H%bool_decide_eq_false.
  destruct (values s !! K) eqn:Hx; [|by eexists].
  destruct H. by eexists.
Qed.

End SetProperties.

(** X11: [set] of an [int] on a key that the section holds itself,
    followed by [get<int>] of that key, returns the value that was set,
    whatever the default is. *)
Theorem set_then_get_int (g : CFGParser) (S K : string) (v d : Z) :
  (hasKey g S K).1 = true → (- 2 ^ 31 ≤ v < 2 ^ 31)%Z →
  get makeValueFromString_int (set to_string_int g S K v) S K d = Some v.
Proof.
  intros HK Hv. unfold get.
  destruct (set_own_key to_string_int g S K v HK) as [_ ->].
  rewrite to_string_int_nonempty. cbn [negb].
  by apply stoi_to_string_int.
Qed.

Lemma set_then_get_int_witness :
  (hasKey array_model "t" "arr").1 = true ∧
  get makeValueFromString_int
    (set to_string_int array_model "t" "arr" (-24)%Z) "t" "arr" 0%Z =
  Some (-24)%Z.
Proof.
  assert (H : (hasKey array_model "t" "arr").1 = true)
    by (vm_compute; reflexivity).
  split; [exact H|].
  apply (set_then_get_int array_model "t" "arr" (-24) 0 H). lia.
Defined.

(** X12: [set] of a [bool] stores the text 1 or 0, which the conversion
    of [get<bool>] does not take for true: after [set] of either truth
    value on a key that the section holds, [get<bool>] of that key
    returns false. *)
Theorem set_then_get_bool (g : CFGParser) (S K : string) (b d : bool) :
  (hasKey g S K).1 = true →
  get makeValueFromString_bool (set to_string_bool g S K b) S K d =
  Some false.
Proof.
  intros HK. unfold get.
  destruct (set_own_key to_string_bool g S K b HK) as [_ ->].
  by destruct b.
Qed.

Lemma set_then_get_bool_witness :
  (hasKey array_model "t" "arr").1 = true ∧
  get makeValueFromString_bool
    (set to_string_bool array_model "t" "arr" true) "t" "arr" true =
  Some false.
Proof.
  assert (H : (hasKey array_model "t" "arr").1 = true)
    by (vm_compute; reflexivity).
  split; [exact H|].
  apply (set_then_get_bool array_model "t" "arr" true true H).
Defined.





(** ** Section headers with bases that do not exist *)

Lemma add_messages_snoc ms m g :
  add_messages (ms ++ [m]) g = call_msg_functor m (add_messages ms g).
Proof. unfold add_messages. by rewrite foldl_app. Qed.

Lemma add_messages_cons m ms g :
  add_messages (m :: ms) g = add_messages ms (call_msg_functor m g).
Proof. reflexivity. Qed.

Lemma add_messages_functor ms g :
  _msg_functor (add_messages ms g) = (λ log, log ++ ms) <$> _msg_functor g.
Proof.
  revert g. induction ms as [|m ms IH]; intros g.
  - cbn. destruct (_msg_functor g); cbn; [|done]. by rewrite app_nil_r.
  - rewrite add_messages_cons, IH. cbn.
    destruct (_msg_functor g); cbn; [|done]. by rewrite <- app_assoc.
Qed.

Lemma add_messages_data ms g :
  _section_data (add_messages ms g) = _section_data g.
Proof.
  revert g. induction ms as [|m ms IH]; intros g; [done|].
  by rewrite add_messages_cons, IH.
Qed.



Lemma prefixed_Empty l : prefixed EmptyString l = l.
Proof. destruct l; [done|]. cbn [prefixed]. by rewrite append_Empty. Qed.

Section Headers.

Variable load_rec : string → CFGParser → option CFGParser.



Lemma add_messages_app ms1 ms2 g :
  add_messages ms2 (add_messages ms1 g) = add_messages (ms1 ++ ms2) g.
Proof. unfold add_messages. by rewrite foldl_app. Qed.






End Headers.

Lemma with_data_self g : with_data (_section_data g) g = g.
Proof. by destruct g. Qed.



(** ** The rest of a line after an error *)

Section Errors.

Variable load_rec : string → CFGParser → option CFGParser.

(** In the state ERROR, and in the comment that a semicolon starts from
    it, a character that is no newline and no vertical bar emits at most
    a diagnostic. *)
Lemma error_step g p c :
  parse_action p = ERROR ∨ parse_action p = COMMENT →
  label (Some c) ≠ case_newline →
  label (Some c) ≠ case_comment_multiline →
  ∃ ms pa pos,
    iteration load_rec (Some c) (g, p) =
      Some (add_messages ms g,
            set_character_pos pos (set_parse_action pa p)) ∧
    (pa = ERROR ∨ pa = COMMENT).
Proof.
  intros Ha H1 H2.
  destruct p as [sec inh att k v pp ptr a ln pos fl]. cbn in Ha.
  unfold iteration, switch. cbn [fst snd parse_action].
  destruct Ha as [-> | ->]; destruct (label (Some c)); try done;
    cbn [fmap option_fmap option_map]; setters;
    first [ by eexists [], _, _; split; [reflexivity|auto]
          | by eexists [_], _, _; split; [reflexivity|auto] ].
Qed.

Lemma error_run : ∀ s rest g p,
  parse_action p = ERROR ∨ parse_action p = COMMENT →
  line_comment_text s = true →
  ∃ ms pa pos,
    loop load_rec (s +:+ rest) (g, p) =
    loop load_rec rest
      (add_messages ms g, set_character_pos pos (set_parse_action pa p)) ∧
    (pa = ERROR ∨ pa = COMMENT).
Proof.
  induction s as [|c s IH]; intros rest g p Ha Hs.
  - exists [], (parse_action p), (character_pos p).
    rewrite append_Empty. split; [by destruct p|done].
  - cbn [line_comment_text all_chars] in Hs.
    apply andb_prop in Hs as [Hc Hs]. apply andb_prop in Hc as [Hc1 Hc2].
    apply negb_true_iff, bool_decide_eq_false in Hc1, Hc2.
    rewrite append_String, loop_cons_action
      by (cbn; destruct Ha as [-> | ->]; done).
    destruct (error_step g p c Ha Hc1 Hc2) as (ms1 & pa1 & pos1 & -> & Hpa1).
    cbn [mbind option_bind].
    destruct (IH rest (add_messages ms1 g)
                (set_character_pos pos1 (set_parse_action pa1 p)))
      as (ms2 & pa2 & pos2 & -> & Hpa2); [by destruct p|done|].
    exists (ms1 ++ ms2), pa2, pos2. rewrite add_messages_app.
    split; [by destruct p|done].
Qed.

End Errors.

(** X15: once a line is in the state ERROR, the rest of the line up to
    its newline stores nothing: if it holds no vertical bar, the object is
    left as it is but for the diagnostics that are emitted, and the next
    line starts in the section that was current, with the ignore-spaces
    flag set. *)
Theorem error_line_skipped
    (load_rec : string → CFGParser → option CFGParser) (g : CFGParser)
    (p : Locals) (s rest : string) :
  parse_action p = ERROR → line_comment_text s = true →
  ∃ ms p',
    loop load_rec (s +:+ String LF rest) (g, p) =
    loop load_rec rest (add_messages ms g, p') ∧
    parse_action p' = NEW_LINE ∧ section_ptr p' = section_ptr p ∧
    ignore_current_spaces p' = true.
Proof.
  intros Ha Hs.
  destruct (error_run load_rec s (String LF rest) g p) as
    (ms1 & pa1 & pos1 & -> & Hpa1); [auto|done|].
  destruct p as [sec inh att k v pp ptr a ln pos fl]. setters.
  rewrite loop_cons by done. unfold iteration, switch.
  cbn [fst snd parse_action]. rewrite label_LF.
  destruct Hpa1 as [-> | ->];
    cbn [fmap option_fmap option_map mbind option_bind].
  - unfold msg at 1. cbn [fst snd].
    rewrite end_of_line_reset by discriminate. setters.
    eexists (ms1 ++ [_]), _. rewrite add_messages_snoc.
    split; [reflexivity|]. by repeat split.
  - rewrite end_of_line_reset by discriminate. setters.
    eexists ms1, _. split; [reflexivity|]. by repeat split.
Qed.

Lemma error_line_skipped_witness :
  ∃ ms p',
    loop no_include (" value" +:+ String LF EmptyString)
      (empty_value_model, set_parse_action ERROR (inside "a")) =
    loop no_include EmptyString (add_messages ms empty_value_model, p') ∧
    parse_action p' = NEW_LINE ∧
    section_ptr p' = section_ptr (set_parse_action ERROR (inside "a")) ∧
    ignore_current_spaces p' = true.
Proof.
  apply (error_line_skipped no_include empty_value_model
           (set_parse_action ERROR (inside "a")) " value" EmptyString);
    reflexivity.
Defined.

(** ** The introspection functions *)

(** X16: for a section that the object does not hold, the functions that
    report it call the functor once, each with the same message, and
    answer false or the empty vector; [hasAttribute], [isInheritedFrom]
    and [getString] answer false, false and the default and do not call
    the functor. *)
Theorem unknown_section_answers (g : CFGParser) (S K A B d : string) :
  hasSection g S = false →
  let g1 := call_msg_functor (is_not_exist S) g in
  hasKey g S K = (false, g1) ∧
  hasAttributes g S = (false, g1) ∧
  hasInheritances g S = (false, g1) ∧
  getAttributes g S = ([], g1) ∧
  getInheritances g S = ([], g1) ∧
  hasAttribute g S A = false ∧
  isInheritedFrom g S B = false ∧
  getString g S K d = d.
Proof.
  unfold hasSection, hasKey, hasAttributes, hasInheritances, getAttributes,
    getInheritances, hasAttribute, isInheritedFrom, getString.
  intros H%bool_decide_eq_false.
  destruct (_section_data g !! S) as [s|]; [|done].
  destruct H. by eexists.
Qed.

Lemma unknown_section_answers_witness :
  hasSection empty_value_model "b" = false ∧
  hasKey empty_value_model "b" "x" =
    (false, call_msg_functor (is_not_exist "b") empty_value_model) ∧
  getString empty_value_model "b" "x" "none" = "none".
Proof.
  assert (H : hasSection empty_value_model "b" = false)
    by (vm_compute; reflexivity).
  split; [exact H|].
  destruct (unknown_section_answers empty_value_model "b" "x" "" "" "none" H)
    as (H1 & _ & _ & _ & _ & _ & _ & H2).
  split; [exact H1|exact H2].
Defined.

(** X17: the tests on the attributes and on the inheritances of a
    section agree with the vectors that the getters return:
    [hasAttribute] is membership in the result of [getAttributes],
    [hasAttributes] says that this result is not empty, and the same for
    [isInheritedFrom], [hasInheritances] and [getInheritances]. *)
Theorem tests_agree_with_getters (g : CFGParser) (S x : string) :
  (hasAttribute g S x = true ↔ x ∈ (getAttributes g S).1) ∧
  ((hasAttributes g S).1 = true ↔ (getAttributes g S).1 ≠ []) ∧
  (isInheritedFrom g S x = true ↔ x ∈ (getInheritances g S).1) ∧
  ((hasInheritances g S).1 = true ↔ (getInheritances g S).1 ≠ []).
Proof.
  unfold hasAttribute, hasAttributes, isInheritedFrom, hasInheritances,
    getAttributes, getInheritances.
  destruct (_section_data g !! S) as [s|]; cbn [fst].
  - rewrite has_name_loop_elem, !bool_decide_eq_true, !negb_true_iff,
      !bool_decide_eq_false. done.
  - split_and!; (split; [done|]); try done; by intros ?%elem_of_nil.
Qed.

(** ** The conversions of the typed getters *)

Lemma split_commas_trailing s :
  ∃ seg l, split_commas (s +:+ ",") = (seg :: l) ++ [EmptyString].
Proof.
  induction s as [|c s (seg & l & IH)]; [by exists EmptyString, []|].
  rewrite append_String. cbn [split_commas]. rewrite IH.
  destruct (Ascii.eqb c ",").
  - by exists EmptyString, (seg :: l).
  - by exists (String c seg), l.
Qed.

(** X19: [getArray<int>] ends the program on a raw value with an empty
    segment: the conversion of the empty text throws in a function that
    is declared [noexcept]; a raw value that ends with a comma has such a
    segment. *)
Theorem getArray_int_empty_segment (g : CFGParser) (S K : string)
    (s : Section) (raw : string) :
  _section_data g !! S = Some s →
  values s !! K = Some raw →
  raw ≠ EmptyString →
  (EmptyString ∈ split_commas raw →
     getArray makeValueFromString_int g S K = None) ∧
  (∀ t, raw = t +:+ "," → getArray makeValueFromString_int g S K = None).
Proof.
  intros HS HK Hraw.
  assert (Hseg : EmptyString ∈ split_commas raw →
                 getArray makeValueFromString_int g S K = None).
  { intros Hin. unfold getArray, getString. rewrite HS, HK.
    destruct raw as [|c raw]; [done|].
    cbn [empty negb]. rewrite getArray_loop_split.
    pose proof (split_commas_nonempty (String c raw)) as Hne.
    destruct (split_commas (String c raw)) as [|seg l] eqn:Hl; [done|].
    unfold continue_segment. rewrite append_Empty.
    assert (mapM makeValueFromString_int (seg :: l) = None) as ->; [|done].
    apply mapM_None_2, Exists_exists. by exists EmptyString. }
  split; [exact Hseg|].
  intros t ->. apply Hseg.
  destruct (split_commas_trailing t) as (seg & l & ->).
  apply elem_of_app. right. by left.
Qed.

Lemma getArray_int_empty_segment_witness :
  _section_data trailing_comma_model !! "t" =
    Some (plain_section [("arr", "1,2,")]) ∧
  values (plain_section [("arr", "1,2,")]) !! "arr" = Some "1,2," ∧
  "1,2," ≠ EmptyString ∧
  getArray makeValueFromString_int trailing_comma_model "t" "arr" = None.
Proof.
  assert (H1 : _section_data trailing_comma_model !! "t" =
               Some (plain_section [("arr", "1,2,")])) by reflexivity.
  assert (H2 : values (plain_section [("arr", "1,2,")]) !! "arr" =
               Some "1,2,") by reflexivity.
  assert (H3 : "1,2," ≠ EmptyString) by discriminate.
  split_and!; [exact H1|exact H2|exact H3|].
  exact (proj2 (getArray_int_empty_segment trailing_comma_model
                  "t" "arr" _ _ H1 H2 H3) "1,2" eq_refl).
Defined.

(** ** [isCharacterValid] *)

(** X20: [isCharacterValid] compares the result of the search with the
    end of [allowed_characters] for equality: it returns true for the
    characters that are not in the array, and false for the digits, the
    letters and the underscore. *)
Theorem isCharacterValid_not_allowed (character : ascii) :
  isCharacterValid character = negb (name_character character) ∧
  (isCharacterValid character = true ↔ character ∉ allowed_characters).
Proof.
  assert (H : isCharacterValid character = negb (name_character character)
              ∧ isCharacterValid character =
                negb (bool_decide (character ∈ allowed_characters))).
  { destruct character as [[] [] [] [] [] [] [] []];
      split; vm_compute; reflexivity. }
  destruct H as [H1 H2]. split; [exact H1|].
  rewrite H2, negb_true_iff, bool_decide_eq_false. done.
Qed.

(** ** Loading a saved file into an object that holds sections *)

Lemma insert_all_union {V} (l : list (string * V)) (m : gmap string V) :
  insert_all l m = insert_all l ∅ ∪ m.
Proof.
  induction l as [|x l IH] using rev_ind.
  - cbn. by rewrite (left_id_L ∅ (∪)).
  - rewrite !insert_all_snoc, IH. by rewrite insert_union_l.
Qed.

Lemma load_saved_into
    (section_order : gmap string Section → list (string * Section))
    (value_order : gmap string string → list (string * string))
    (g g0 : CFGParser) (fs : Files) (file_path : string) (depth : nat) :
  section_order (_section_data g) ≡ₚ map_to_list (_section_data g) →
  (∀ V, value_order V ≡ₚ map_to_list V) →
  forallb (λ x, name_text x.1 &&
                canonical_section (value_order (values x.2)) x.2)
          (section_order (_section_data g)) = true →
  _section_data g ##ₘ _section_data g0 →
  bases_known (_section_data g0) (section_order (_section_data g)) →
  load (S depth) (save section_order value_order file_path g fs) file_path g0
  = Some (with_data (_section_data g ∪ _section_data g0)
            (set_current_file file_path g0)).
Proof.
  intros Hso Hvo Hc Hdisj Hb.
  cbn [load]. unfold save. rewrite lookup_insert_eq. unfold save_bytes.
  set (fs' := <[file_path := _]> fs).
  rewrite <- (with_data_self (set_current_file file_path g0)) at 1.
  rewrite <- (append_nil_r (save_sections _ _)).
  destruct (sections_text (load depth fs') value_order
              (set_current_file file_path g0)
              (section_order (_section_data g))
              (_section_data (set_current_file file_path g0))
              EmptyString Locals0)
    as (p' & -> & Hp'); [by repeat split|done| | | | |].
  - apply Forall_forall. intros x _. apply Hvo.
  - by eapply enumeration_NoDup.
  - intros n Hn. cbn [_section_data set_current_file].
    apply list_elem_of_fmap in Hn as ([n' s] & -> & Hx). cbn.
    rewrite Hso in Hx. apply elem_of_map_to_list in Hx.
    by eapply map_disjoint_Some_l.
  - exact Hb.
  - cbn [_section_data set_current_file].
    rewrite insert_all_union.
    rewrite (insert_all_enumeration _ (_section_data g)) by done.
    rewrite loop_Empty.
    destruct p' as [sec inh att k v pp ptr a ln pos fl].
    destruct Hp' as (? & _). cbn in *. subst.
    unfold iteration, switch. cbn [fst snd parse_action].
    rewrite label_eof. reflexivity.
Qed.

(** X21: [load] of a file that [save] wrote from a canonical model, into
    an object that holds sections with other names, adds the sections of
    the model to the ones that the object holds and emits no diagnostic;
    the bases of a written section may be sections of the object. *)
Theorem load_saved_merges
    (section_order : gmap string Section → list (string * Section))
    (value_order : gmap string string → list (string * string))
    (g g0 : CFGParser) (fs : Files) (file_path : string) (depth : nat) :
  section_order (_section_data g) ≡ₚ map_to_list (_section_data g) →
  (∀ V, value_order V ≡ₚ map_to_list V) →
  forallb (λ x, name_text x.1 &&
                canonical_section (value_order (values x.2)) x.2)
          (section_order (_section_data g)) = true →
  _section_data g ##ₘ _section_data g0 →
  bases_known (_section_data g0) (section_order (_section_data g)) →
  load (S depth) (save section_order value_order file_path g fs) file_path g0
  = Some (with_data (_section_data g ∪ _section_data g0)
            (set_current_file file_path g0)).
Proof. apply load_saved_into. Qed.

Lemma load_saved_merges_witness :
  load 1 (save map_to_list map_to_list "out" derived_model ∅) "out"
    array_model
  = Some (with_data (_section_data derived_model ∪ _section_data array_model)
            (set_current_file "out" array_model)).
Proof.
  apply (load_saved_merges map_to_list map_to_list derived_model array_model
           ∅ "out" 0).
  - reflexivity.
  - intros V. reflexivity.
  - vm_compute. reflexivity.
  - apply map_disjoint_spec. intros i x y Hx Hy.
    destruct (decide (i = "t")) as [->|Hne].
    + vm_compute in Hx. discriminate.
    + unfold array_model in Hy. cbn [_section_data] in Hy.
      by rewrite lookup_singleton_ne in Hy.
  - apply (bases_first_known []); [vm_compute; reflexivity|].
    intros b Hb. by apply elem_of_nil in Hb.
Defined.

(** X22: after [load] has returned, [saveCurrent] writes to the path
    that was given to [load], also when the file has included other
    files: it does to the file system what [save] to that path does, and
    every other file, the included ones among them, is left as it is. *)
Theorem saveCurrent_writes_loaded_file
    (section_order : gmap string Section → list (string * Section))
    (value_order : gmap string string → list (string * string))
    (g g' : CFGParser) (fs fs' : Files) (file_path : string) (depth : nat) :
  load depth fs file_path g = Some g' →
  saveCurrent section_order value_order g' fs' =
  save section_order value_order file_path g' fs' ∧
  ∀ other, other ≠ file_path →
    saveCurrent section_order value_order g' fs' !! other = fs' !! other.
Proof.
  intros H. apply load_current_file in H.
  unfold saveCurrent. rewrite H. split; [reflexivity|].
  intros other Hne. unfold save. by rewrite lookup_insert_ne.
Qed.

Lemma saveCurrent_writes_loaded_file_witness :
  ∃ g',
    load 2 including_files "main" CFGParser0 = Some g' ∧
    is_Some (_section_data g' !! "a") ∧
    saveCurrent map_to_list map_to_list g' including_files =
    save map_to_list map_to_list "main" g' including_files ∧
    saveCurrent map_to_list map_to_list g' including_files !! "inc" =
    including_files !! "inc".
Proof.
  destruct (load 2 including_files "main" CFGParser0) as [g'|] eqn:H;
    [|vm_compute in H; discriminate].
  exists g'. split; [reflexivity|].
  split; [vm_compute in H; apply Some_eq in H as ->; by eexists|].
  destruct (saveCurrent_writes_loaded_file map_to_list map_to_list
              CFGParser0 g' including_files including_files "main" 2 H)
    as [H1 H2].
  split; [exact H1|]. apply H2. discriminate.
Defined.

(** ** The line counter of the diagnostics *)

Section Lines.

Variable load_rec : string → CFGParser → option CFGParser.

Lemma line_msg m σ : line (msg m σ).2 = line σ.2.
Proof. done. Qed.

Lemma line_action a σ : line (action a σ).2 = line σ.2.
Proof. by open_state σ. Qed.

Lemma line_value_append c σ : line (value_append c σ).2 = line σ.2.
Proof. by open_state σ. Qed.

Lemma line_escape next σ : line (escape next σ).2 = line σ.2.
Proof.
  unfold escape. destruct next as [c|]; [|done].
  repeat (destruct (Ascii.eqb _ _); [apply line_value_append|]). done.
Qed.

Lemma line_PushInheritance σ : line (PushInheritance σ).2 = line σ.2.
Proof.
  open_state σ. unfold PushInheritance. cbn [section_ptr inheritance].
  destruct ptr; [|done]. destruct (negb _); [|done].
  by destruct (bool_decide _).
Qed.

Lemma line_PushAttribute σ : line (PushAttribute σ).2 = line σ.2.
Proof.
  open_state σ. unfold PushAttribute. cbn [section_ptr attribute].
  destruct ptr; [|done]. by destruct (negb _).
Qed.

Lemma line_commit_value σ : line (commit_value σ).2 = line σ.2.
Proof. by open_state σ. Qed.

Lemma line_emplace_key σ : line (emplace_key σ).2 = line σ.2.
Proof.
  open_state σ. unfold emplace_key. cbn [section_ptr key].
  destruct ptr; [|done]. by destruct (_ ≫= _).
Qed.

Lemma line_close_section σ : line (close_section σ).2 = line σ.2.
Proof.
  open_state σ. unfold close_section. cbn [section].
  by destruct (_section_data g !! sec).
Qed.

Lemma line_end_of_line σ : line (end_of_line σ).2 = incr32 (line σ.2).
Proof.
  open_state σ. unfold end_of_line. by destruct (bool_decide _).
Qed.

Lemma line_next_pos σ : line (next_pos σ).2 = line σ.2.
Proof. by open_state σ. Qed.

(** Only the newline case counts a line. *)
Lemma switch_line (character next : option ascii) (σ σ' : State) :
  switch load_rec character next σ = Some σ' →
  line σ'.2 = if bool_decide (label character = case_newline)
              then incr32 (line σ.2) else line σ.2.
Proof.
  unfold switch.
  destruct (label character) eqn:Hl;
    [..|]; cbn [bool_decide decide_rel]; 
    try rewrite bool_decide_eq_false_2 by done;
    try rewrite bool_decide_eq_true_2 by done.
  all: destruct (parse_action σ.2);
    try (intros ->%Some_eq;
         rewrite ?line_end_of_line, ?line_msg, ?line_action,
           ?line_value_append, ?line_escape, ?line_PushInheritance,
           ?line_PushAttribute, ?line_commit_value, ?line_emplace_key,
           ?line_close_section, ?line_action;
         by open_state σ).
  all: try (destruct (negb _); intros ->%Some_eq;
            rewrite ?line_msg, ?line_action; by open_state σ).
  - intros ->%Some_eq. cbn [snd]. by destruct (bool_decide _); open_state σ.
  - destruct (IncludeFile _ _ _); [|done]. intros ->%Some_eq.
    by open_state σ.
Qed.

Lemma iterate_incr32 (n : nat) (x : N) :
  (x < 2 ^ 32)%N →
  Nat.iter n incr32 x = ((x + N.of_nat n) mod 2 ^ 32)%N.
Proof.
  intros Hx. induction n as [|n IH].
  - cbn. rewrite N.add_0_r. symmetry. by apply N.mod_small.
  - rewrite Nat.iter_succ, IH. unfold incr32.
    rewrite N.Div0.add_mod_idemp_l. f_equal. lia.
Qed.

Lemma loop_line : ∀ bytes σ σ',
  all_chars (λ c, negb (Ascii.eqb c BACKSLASH)) bytes = true →
  loop load_rec bytes σ = Some σ' →
  line σ'.2 = Nat.iter (newlines bytes) incr32 (line σ.2).
Proof.
  assert (Hstep : ∀ character σ σ',
    iteration load_rec character σ = Some σ' →
    line σ'.2 = if bool_decide (label character = case_newline)
                then incr32 (line σ.2) else line σ.2).
  { intros character σ σ'. unfold iteration.
    destruct (switch _ _ _ _) as [σ1|] eqn:Hs; [|done].
    intros ->%Some_eq. rewrite line_next_pos. by eapply switch_line. }
  induction bytes as [|c bytes IH]; intros σ σ' Hb.
  - rewrite loop_Empty. intros H%Hstep. by rewrite H.
  - cbn [all_chars] in Hb. apply andb_prop in Hb as [Hc Hb].
    apply negb_true_iff, Ascii.eqb_neq in Hc.
    rewrite loop_cons by (by intros ?%label_backslash).
    destruct (iteration _ _ _) as [σ1|] eqn:Hi; [|done].
    cbn [mbind option_bind]. intros H%IH; [|done].
    apply Hstep in Hi. rewrite H, Hi. cbn [newlines].
    destruct (Ascii.eqb_spec c LF) as [->|Hlf].
    + rewrite bool_decide_eq_true_2 by apply label_LF.
      by rewrite Nat.iter_succ_r.
    + rewrite bool_decide_eq_false_2; [done|].
      by intros ?%label_newline.
Qed.

End Lines.

(** X23: the line number that the diagnostics of [load] report counts
    the newlines read so far: after a text without backslash has been
    read, the counter is the counter before it plus the number of
    newlines of the text, in 32-bit arithmetic, in whatever state the
    newlines were read. *)
Theorem line_counter (load_rec : string → CFGParser → option CFGParser)
    (bytes : string) (σ σ' : State) :
  all_chars (λ c, negb (Ascii.eqb c BACKSLASH)) bytes = true →
  (line σ.2 < 2 ^ 32)%N →
  loop load_rec bytes σ = Some σ' →
  line σ'.2 = ((line σ.2 + N.of_nat (newlines bytes)) mod 2 ^ 32)%N.
Proof.
  intros Hb Hx Hl. rewrite <- iterate_incr32 by done.
  by eapply loop_line.
Qed.

Lemma line_counter_witness :
  ∃ σ', loop no_include scenario_S1 (CFGParser0, Locals0) = Some σ' ∧
        line σ'.2 = 5%N.
Proof.
  eexists. split; [vm_compute; reflexivity|].
  apply (line_counter no_include scenario_S1 (CFGParser0, Locals0)).
  - vm_compute. reflexivity.
  - vm_compute. reflexivity.
  - vm_compute. reflexivity.
Defined.

(** ** Loading a file whose sections are in the object *)

Lemma all_chars_app P s t :
  all_chars P (s +:+ t) = all_chars P s && all_chars P t.
Proof.
  induction s as [|c s IH]; [done|]. rewrite append_String.
  cbn [all_chars]. by rewrite IH, andb_assoc.
Qed.

Lemma all_chars_weaken (P Q : ascii → bool) s :
  (∀ c, P c = true → Q c = true) → all_chars P s = true →
  all_chars Q s = true.
Proof.
  intros H. induction s as [|c s IH]; [done|]. cbn [all_chars].
  intros [Hc Hs]%andb_prop. by rewrite (H c Hc), IH.
Qed.

(** The names that [save] writes in a header make a list text. *)
Lemma save_names_list_text first l :
  Forall (λ b, nonempty_name b = true) l →
  list_text (save_names first l) = true.
Proof.
  revert first. induction l as [|x l IH]; intros first Hl; [done|].
  apply Forall_cons in Hl as [Hx Hl]. cbn [save_names].
  unfold list_text in *. rewrite !all_chars_app.
  apply andb_prop in Hx as [Hx _].
  assert (Hx' : all_chars (λ c, ordinary c || blank c || comma c) x = true).
  { eapply all_chars_weaken; [|exact Hx]. by intros c ->. }
  rewrite Hx', IH by done. by destruct first.
Qed.

(** What follows the bracketed name in a header that [save] writes. *)
Lemma saved_header_tail l atts :
  Forall (λ b, nonempty_name b = true) l →
  Forall (λ b, nonempty_name b = true) atts →
  header_tail (save_list " : " l +:+ save_list " = " atts).
Proof.
  intros Hl Ha.
  pose proof (save_names_list_text true l Hl) as Hl'.
  pose proof (save_names_list_text true atts Ha) as Ha'.
  destruct l as [|x l], atts as [|y atts]; unfold save_list.
  - by apply tail_none.
  - rewrite append_Empty.
    apply (tail_attributes " " (" " +:+ save_names true (y :: atts))); [done|].
    unfold list_text in *. by rewrite all_chars_app, Ha'.
  - rewrite append_nil_r.
    apply (tail_bases " " (" " +:+ save_names true (x :: l))); [done|].
    unfold list_text in *. by rewrite all_chars_app, Hl'.
  - replace ((" : " +:+ save_names true (x :: l)) +:+
             " = " +:+ save_names true (y :: atts))
      with (" " +:+ ":" +:+ (" " +:+ save_names true (x :: l) +:+ " ") +:+
            "=" +:+ (" " +:+ save_names true (y :: atts))).
    + apply tail_both; [done| |]; unfold list_text in *.
      * by rewrite !all_chars_app, Hl'.
      * by rewrite all_chars_app, Ha'.
    + repeat (rewrite ?append_assoc, ?append_String, ?append_Empty).
      reflexivity.
Qed.

(** The assignment lines that [save] writes. *)
Lemma saved_values_lines kvs :
  forallb canonical_pair kvs = true →
  ∃ lines, Forall assignment_line lines ∧
           save_values kvs = concat_lines lines.
Proof.
  induction kvs as [|[k v] kvs IH]; intros Hc.
  - by exists [].
  - cbn [forallb] in Hc. apply andb_prop in Hc as [Hkv Hc].
    destruct (IH Hc) as (lines & Hlines & Heq).
    apply andb_prop in Hkv as [Hk Hv]. cbn in Hk, Hv.
    apply andb_prop in Hk as [Hk Hne].
    exists (((k +:+ " ") +:+ "=" +:+ (" " +:+ v) +:+ String LF EmptyString)
            :: lines).
    split.
    + constructor; [|done]. apply bare_assignment.
      * unfold key_text. rewrite !all_chars_app.
        rewrite (all_chars_weaken ordinary (λ c, ordinary c || blank c) k)
          by (done || by intros c ->).
        cbn. destruct k as [|a k]; [done|]. cbn [all_chars].
        cbn [name_text all_chars] in Hk. apply andb_prop in Hk as [Ho _].
        unfold ordinary, blank in *. apply bool_decide_eq_true in Ho.
        rewrite (bool_decide_eq_false_2 (label (Some a) = case_space))
          by congruence.
        done.
      * unfold bare_value. rewrite all_chars_app. cbn.
        eapply all_chars_weaken; [|exact Hv]. intros c Hc'.
        apply orb_prop in Hc' as [->| ->]; [done|]. by rewrite orb_true_r.
    + cbn [save_values concat_lines]. rewrite Heq.
      repeat (rewrite ?append_assoc, ?append_String, ?append_Empty).
      reflexivity.
Qed.

Section Again.

Variable load_rec : string → CFGParser → option CFGParser.
Variable value_order : gmap string string → list (string * string).

Lemma empty_line g rest p :
  no_section_line_start p →
  ∃ p', loop load_rec (String LF rest) (g, p) = loop load_rec rest (g, p') ∧
        no_section_line_start p'.
Proof.
  intros Hp. destruct p as [sec inh att k v pp ptr a ln pos fl].
  destruct Hp as (? & ? & ?). cbn in *. subst.
  step_with label_LF. rewrite end_of_line_reset by discriminate. setters.
  eexists. split; [reflexivity|]. by repeat split.
Qed.

(** A section that [save] wrote, read when the object holds a section of
    that name: one diagnostic, and nothing else. *)
Lemma section_again g n S rest p :
  parse_action p = NEW_LINE → name_text n = true →
  canonical_section (value_order (values S)) S = true →
  is_Some (_section_data g !! n) →
  ∃ m p',
    loop load_rec (save_section value_order (n, S) +:+ rest) (g, p) =
    loop load_rec rest (call_msg_functor m g, p') ∧
    no_section_line_start p'.
Proof.
  intros Ha Hn Hc Hin.
  apply andb_prop in Hc as [Hc Hkvs]. apply andb_prop in Hc as [Hl Hatts].
  rewrite forallb_forall in Hl, Hatts.
  assert (Hl' : Forall (λ b, nonempty_name b = true) (inheritances S)).
  { apply Forall_forall. intros b Hb. apply Hl. by apply list_elem_of_In. }
  assert (Hatts' : Forall (λ b, nonempty_name b = true) (attributes S)).
  { apply Forall_forall. intros b Hb. apply Hatts. by apply list_elem_of_In. }
  destruct (saved_values_lines _ Hkvs) as (lines & Hlines & Heq).
  rewrite save_section_text, Heq.
  replace (("[" +:+ n +:+ "]" +:+ save_list " : " (inheritances S) +:+
            save_list " = " (attributes S) +:+
            String LF (concat_lines lines +:+ String LF EmptyString)) +:+
           rest)
    with ("[" +:+ n +:+ "]" +:+
          (save_list " : " (inheritances S) +:+
           save_list " = " (attributes S)) +:+
          String LF (concat_lines lines +:+ String LF rest))
    by (repeat (rewrite ?append_assoc, ?append_String, ?append_Empty);
        reflexivity).
  destruct (duplicate_header load_rec g n _
              (concat_lines lines +:+ String LF rest) p Ha Hn Hin
              (saved_header_tail _ _ Hl' Hatts'))
    as (pos & p1 & -> & Hp1).
  destruct (idle_assignment_lines load_rec
              (call_msg_functor (already_exist (line p) pos n) g) lines
              (String LF rest) p1 Hlines Hp1) as (p2 & -> & Hp2).
  destruct (empty_line (call_msg_functor (already_exist (line p) pos n) g)
              rest p2 Hp2) as (p3 & -> & Hp3).
  by eexists _, p3.
Qed.

(** The sections that [save] wrote, read when the object holds a section
    of each of their names. *)
Lemma sections_again : ∀ l g rest p,
  parse_action p = NEW_LINE →
  forallb (λ x, name_text x.1 &&
                canonical_section (value_order (values x.2)) x.2) l = true →
  Forall (λ x, is_Some (_section_data g !! x.1)) l →
  ∃ ms p',
    loop load_rec (save_sections value_order l +:+ rest) (g, p) =
    loop load_rec rest (add_messages ms g, p') ∧
    parse_action p' = NEW_LINE ∧ length ms = length l.
Proof.
  induction l as [|[n S] l IH]; intros g rest p Ha Hc Hin.
  - by exists [], p.
  - cbn [forallb] in Hc. apply andb_prop in Hc as [Hx Hc].
    apply andb_prop in Hx as [Hn HS]. apply Forall_cons in Hin as [Hin1 Hin].
    cbn [save_sections]. rewrite append_assoc.
    destruct (section_again g n S (save_sections value_order l +:+ rest) p
                Ha Hn HS Hin1) as (m & p1 & -> & Hp1).
    destruct (IH (call_msg_functor m g) rest p1) as (ms & p2 & -> & Hp2 & Hms);
      [by destruct Hp1|done|done|].
    exists (m :: ms), p2. split; [done|]. split; [done|]. cbn. by rewrite Hms.
Qed.

End Again.

(** X24: [load] of a file that [save] wrote from a model with canonical
    names and values, into an object that holds a section of every name
    in the file, changes no section: the values in the file do not
    replace the ones in the object, and one diagnostic is emitted for
    each section of the file. *)
Theorem load_saved_again
    (section_order : gmap string Section → list (string * Section))
    (value_order : gmap string string → list (string * string))
    (g g0 : CFGParser) (fs : Files) (file_path : string) (depth : nat) :
  forallb (λ x, name_text x.1 &&
                canonical_section (value_order (values x.2)) x.2)
          (section_order (_section_data g)) = true →
  Forall (λ x, is_Some (_section_data g0 !! x.1))
         (section_order (_section_data g)) →
  ∃ ms,
    load (S depth) (save section_order value_order file_path g fs) file_path
      g0 = Some (add_messages ms (set_current_file file_path g0)) ∧
    length ms = length (section_order (_section_data g)).
Proof.
  intros Hc Hin.
  cbn [load]. unfold save. rewrite lookup_insert_eq. unfold save_bytes.
  set (fs' := <[file_path := _]> fs).
  rewrite <- (append_nil_r (save_sections _ _)).
  destruct (sections_again (load depth fs') value_order
              (section_order (_section_data g))
              (set_current_file file_path g0) EmptyString Locals0)
    as (ms & p' & -> & Hp' & Hms); [done..|].
  exists ms. split; [|done].
  rewrite loop_Empty.
  destruct p' as [sec inh att k v pp ptr a ln pos fl]. cbn in Hp'. subst.
  unfold iteration, switch. cbn [fst snd parse_action].
  rewrite label_eof. reflexivity.
Qed.

Lemma load_saved_again_witness :
  ∃ ms,
    load 1 (save map_to_list map_to_list "out" derived_model ∅) "out"
      (bind_value "a" "x" "old" derived_model) =
    Some (add_messages ms
            (set_current_file "out"
               (bind_value "a" "x" "old" derived_model))) ∧
    length ms = length (map_to_list (_section_data derived_model)).
Proof.
  apply (load_saved_again map_to_list map_to_list derived_model
           (bind_value "a" "x" "old" derived_model) ∅ "out" 0).
  - vm_compute. reflexivity.
  - apply Forall_forall. intros [n s] Hx.
    apply elem_of_map_to_list in Hx. cbn.
    unfold bind_value, set_section_data. cbn [_section_data].
    apply lookup_alter_is_Some. by eexists.
Defined.
